(** * zeek-try-cluster: flow-hash sharder, log merger and log query engine

    A shallow embedding of the data-processing core of the repository:
    - [app/runner/split_pcap.py]  (module [SplitPcap] below),
    - [app/runner/merge_logs.py]  (module [MergeLogs]),
    - the query parser and the log endpoint of [app/main.py] (modules [Re]
      and [Query]).

    Conventions of the embedding.
    - Python [bytes] are [list byte]; Python [int] is [Z]; list lengths and
      offsets that the code keeps non-negative are [nat].
    - Python [str] is [list ascii]; the model covers code points below 256,
      with the Unicode classification of that range (white space, case).
    - An operation that can raise (indexing, [to_bytes], [%] by zero, an
      explicit [raise]) returns a [result]; slicing never raises.
    - A [while] loop is a fixpoint on a fuel argument; running out of fuel is
      the outcome [Raise OutOfFuel], so that termination is a theorem about
      the fuel the caller passes and not a modelling assumption. *)

From Stdlib Require Import ZArith List Ascii String Strings.Byte Bool Lia.
From Stdlib Require Import SpecFloat DecimalString HexadecimalString.
From Stdlib Require Import Permutation Sorted.
From stdpp Require Import gmap strings list sorting.

Local Open Scope nat_scope.

(** ** Python values shared by the three modules *)

Inductive exn : Type :=
| ValueError
| IndexError
| KeyError
| OverflowError
| ZeroDivisionError
| OutOfFuel.

Inductive result (A : Type) : Type :=
| Ok (a : A)
| Raise (e : exn).

Arguments Ok {A} a.
Arguments Raise {A} e.

Definition rbind {A B : Type} (m : result A) (f : A -> result B) : result B :=
  match m with
  | Ok a => f a
  | Raise e => Raise e
  end.

Notation "x <~ m ;; k" := (rbind m (fun x => k))
  (at level 100, m at next level, right associativity).

Definition is_ok {A : Type} (m : result A) : bool :=
  match m with Ok _ => true | Raise _ => false end.

Abbreviation str := (list ascii).

(** A string literal as a Python [str]. *)
Definition s2l (s : string) : str := list_ascii_of_string s.

(** [l[a:b]] for [0 <= a], [0 <= b]. *)
Definition slice {A : Type} (l : list A) (a b : nat) : list A :=
  firstn (b - a) (skipn a l).

(** [l[i]] for [0 <= i]; out of range raises [IndexError]. *)
Definition index {A : Type} (l : list A) (i : nat) : result A :=
  match nth_error l i with
  | Some x => Ok x
  | None => Raise IndexError
  end.

Definition byte_val (b : byte) : Z := Z.of_N (Byte.to_N b).

Definition byte_of_Z (z : Z) : byte :=
  match Byte.of_N (Z.to_N (z mod 256)) with
  | Some b => b
  | None => x00
  end.

(** [int.from_bytes(bs, "big")] and [int.from_bytes(bs, "little")]. *)
Definition int_from_bytes_big (bs : list byte) : Z :=
  fold_left (fun acc b => acc * 256 + byte_val b)%Z bs 0%Z.

Definition int_from_bytes_little (bs : list byte) : Z :=
  fold_right (fun b acc => byte_val b + 256 * acc)%Z 0%Z bs.

Fixpoint be_bytes (n : nat) (v : Z) : list byte :=
  match n with
  | O => []
  | S n' => be_bytes n' (v / 256) ++ [byte_of_Z v]
  end.

(** [v.to_bytes(n, "big")]: [OverflowError] when [v] is negative or needs
    more than [n] bytes. *)
Definition int_to_bytes_big (n : nat) (v : Z) : result (list byte) :=
  if ((0 <=? v) && (v <? 256 ^ Z.of_nat n))%Z then Ok (be_bytes n v)
  else Raise OverflowError.

(** [bytes([v])]: [ValueError] outside [range(256)]. *)
Definition bytes_of_int (v : Z) : result (list byte) :=
  if ((0 <=? v) && (v <? 256))%Z then Ok [byte_of_Z v]
  else Raise ValueError.

(** [str(v)] for an [int]. *)
Definition str_of_int (v : Z) : str :=
  s2l (DecimalString.NilZero.string_of_int (Z.to_int v)).

(** [sep.join(parts)]. *)
Fixpoint join (sep : str) (parts : list str) : str :=
  match parts with
  | [] => []
  | [p] => p
  | p :: ps => p ++ sep ++ join sep ps
  end.

(** ** SHA-1 ([hashlib.sha1]), FIPS 180-4 *)

Module Sha1.

Local Open Scope Z_scope.

Definition w32 (x : Z) : Z := x mod 2 ^ 32.

Definition rotl (n x : Z) : Z :=
  w32 (Z.lor (Z.shiftl x n) (Z.shiftr x (32 - n))).

(** Padding: the bit 1, zero bits up to 56 mod 64 bytes, the bit length on
    eight bytes. *)
Definition pad (msg : list byte) : list byte :=
  let len := Z.of_nat (length msg) in
  let zeros := Z.to_nat ((55 - len) mod 64) in
  msg ++ [x80] ++ repeat x00 zeros ++ be_bytes 8 (8 * len).

Fixpoint chunks (fuel : nat) (n : nat) (l : list byte) : list (list byte) :=
  match fuel with
  | O => []
  | S fuel' =>
      match l with
      | [] => []
      | _ => firstn n l :: chunks fuel' n (skipn n l)
      end
  end.

Definition words (block : list byte) : list Z :=
  map int_from_bytes_big (chunks 16 4 block).

Fixpoint schedule (n : nat) (w : list Z) : list Z :=
  match n with
  | O => w
  | S n' =>
      let i := length w in
      let x := Z.lxor (Z.lxor (nth (i - 3) w 0) (nth (i - 8) w 0))
                      (Z.lxor (nth (i - 14) w 0) (nth (i - 16) w 0)) in
      schedule n' (w ++ [rotl 1 x])
  end.

Definition lnot32 (x : Z) : Z := Z.lxor x (2 ^ 32 - 1).

Definition f_k (t : nat) (b c d : Z) : Z * Z :=
  if (t <? 20)%nat then
    (Z.lor (Z.land b c) (Z.land (lnot32 b) d), 0x5A827999)
  else if (t <? 40)%nat then
    (Z.lxor (Z.lxor b c) d, 0x6ED9EBA1)
  else if (t <? 60)%nat then
    (Z.lor (Z.lor (Z.land b c) (Z.land b d)) (Z.land c d), 0x8F1BBCDC)
  else
    (Z.lxor (Z.lxor b c) d, 0xCA62C1D6).

Definition state : Type := Z * Z * Z * Z * Z.

Definition round (st : state) (tw : nat * Z) : state :=
  let '(a, b, c, d, e) := st in
  let '(t, w) := tw in
  let '(f, k) := f_k t b c d in
  let temp := w32 (rotl 5 a + f + e + k + w) in
  (temp, a, rotl 30 b, c, d).

Definition compress (h : state) (block : list byte) : state :=
  let w := schedule 64 (words block) in
  let '(a, b, c, d, e) := fold_left round (combine (seq 0 80) w) h in
  let '(h0, h1, h2, h3, h4) := h in
  (w32 (h0 + a), w32 (h1 + b), w32 (h2 + c), w32 (h3 + d), w32 (h4 + e)).

Definition init : state :=
  (0x67452301, 0xEFCDAB89, 0x98BADCFE, 0x10325476, 0xC3D2E1F0).

Definition digest (msg : list byte) : list byte :=
  let p := pad msg in
  let '(h0, h1, h2, h3, h4) :=
    fold_left compress (chunks (length p) 64 p) init in
  be_bytes 4 h0 ++ be_bytes 4 h1 ++ be_bytes 4 h2 ++ be_bytes 4 h3
    ++ be_bytes 4 h4.

End Sha1.

(** ** [list.sort(key=...)]

    The built-in sort is stable and compares keys with [<] only.  It is
    modelled as insertion from the left, each element moving towards the
    front past the elements its key is strictly less than (the sorted prefix
    is kept reversed).  On keys that [<] orders as a strict weak order every
    stable sort returns the same list.  With a NaN among float keys [<] is
    no such order, and the list the built-in sort leaves then depends on
    its runs and merges, which this model does not follow: what is proved
    below of the order of a sorted list excludes NaN keys. *)

Section PySort.

Context {A K : Type} (lt : K -> K -> bool) (key : A -> K).

Fixpoint insert_rev (x : A) (racc : list A) : list A :=
  match racc with
  | [] => [x]
  | y :: racc' =>
      if lt (key x) (key y) then y :: insert_rev x racc' else x :: racc
  end.

Definition py_sort (l : list A) : list A :=
  rev (fold_left (fun racc x => insert_rev x racc) l []).

End PySort.

Definition TAB : ascii := "009"%char.
Definition LF : ascii := "010"%char.
Definition CR : ascii := "013"%char.
Definition DQUOTE : ascii := "034"%char.
Definition BACKSLASH : ascii := "092"%char.

(** [a % b] on [int]: the sign of the result follows the divisor. *)
Definition py_mod (a b : Z) : result Z :=
  if (b =? 0)%Z then Raise ZeroDivisionError else Ok (a mod b)%Z.

(** The position [l[i]] denotes for a list of length [len]: a negative [i]
    counts from the end. *)
Definition resolve_index (len : nat) (i : Z) : result nat :=
  if ((0 <=? i) && (i <? Z.of_nat len))%Z then Ok (Z.to_nat i)
  else if ((- Z.of_nat len <=? i) && (i <? 0))%Z then
    Ok (Z.to_nat (Z.of_nat len + i))
  else Raise IndexError.

Fixpoint bytes_eqb (a b : list byte) : bool :=
  match a, b with
  | [], [] => true
  | x :: a', y :: b' => Byte.eqb x y && bytes_eqb a' b'
  | _, _ => false
  end.

(** Comparison of [str] values: lexicographic on code points. *)
Fixpoint str_compare (a b : str) : comparison :=
  match a, b with
  | [], [] => Eq
  | [], _ :: _ => Lt
  | _ :: _, [] => Gt
  | x :: a', y :: b' =>
      match N.compare (N_of_ascii x) (N_of_ascii y) with
      | Eq => str_compare a' b'
      | c => c
      end
  end.

Definition lex (c : comparison) (rest : comparison) : comparison :=
  match c with Eq => rest | _ => c end.

(** ** app/runner/split_pcap.py *)

Module SplitPcap.

Definition PCAP_GLOBAL_HDR_LEN : nat := 24.
Definition PCAP_PKT_HDR_LEN : nat := 16.

Definition _hash_key (key : list byte) : Z :=
  let h := Sha1.digest key in
  int_from_bytes_big (firstn 8 h).

Definition _fmt_ipv4 (ip4 : list byte) : str :=
  join (s2l ".") (map (fun b => str_of_int (byte_val b)) ip4).

(** [f"{v:04x}"] for [0 <= v]. *)
Definition format_04x (v : Z) : str :=
  let h := s2l (HexadecimalString.NilZero.string_of_uint
                  (N.to_hex_uint (Z.to_N v))) in
  repeat "0"%char (4 - length h) ++ h.

Definition _fmt_ipv6 (ip6 : list byte) : str :=
  join (s2l ":")
       (map (fun i => format_04x (int_from_bytes_big (slice ip6 i (i + 2))))
            [0; 2; 4; 6; 8; 10; 12; 14]).

Definition l3_tuple : Type := list byte * list byte * Z * Z * Z.

Definition is_tcp_udp (proto : Z) : bool := ((proto =? 6) || (proto =? 17))%Z.

Definition _ipv4_tuple (pkt : list byte) : result (option l3_tuple) :=
  if length pkt <? 14 + 20 then Ok None else
  let eth_type := int_from_bytes_big (slice pkt 12 14) in
  if negb (eth_type =? 0x0800)%Z then Ok None else
  let ip := skipn 14 pkt in
  ver_ihl <~ index ip 0 ;;
  let ver := Z.shiftr (byte_val ver_ihl) 4 in
  if negb (ver =? 4)%Z then Ok None else
  let ihl := (Z.land (byte_val ver_ihl) 0x0F * 4)%Z in
  if (Z.of_nat (length ip) <? ihl)%Z then Ok None else
  proto <~ index ip 9 ;;
  let proto := byte_val proto in
  let src_ip := slice ip 12 16 in
  let dst_ip := slice ip 16 20 in
  if is_tcp_udp proto then
    if (Z.of_nat (length ip) <? ihl + 4)%Z then Ok None else
    let l4 := skipn (Z.to_nat ihl) ip in
    let src_port := int_from_bytes_big (slice l4 0 2) in
    let dst_port := int_from_bytes_big (slice l4 2 4) in
    Ok (Some (src_ip, dst_ip, src_port, dst_port, proto))
  else
    Ok (Some (src_ip, dst_ip, 0%Z, 0%Z, proto)).

Definition _ipv6_tuple (pkt : list byte) : result (option l3_tuple) :=
  if length pkt <? 14 + 40 then Ok None else
  let eth_type := int_from_bytes_big (slice pkt 12 14) in
  if negb (eth_type =? 0x86DD)%Z then Ok None else
  let ip := skipn 14 pkt in
  b0 <~ index ip 0 ;;
  let ver := Z.shiftr (byte_val b0) 4 in
  if negb (ver =? 6)%Z then Ok None else
  nxt <~ index ip 6 ;;
  let src_ip := slice ip 8 24 in
  let dst_ip := slice ip 24 40 in
  let proto := byte_val nxt in
  if is_tcp_udp proto then
    if length ip <? 40 + 4 then Ok None else
    let l4 := skipn 40 ip in
    let src_port := int_from_bytes_big (slice l4 0 2) in
    let dst_port := int_from_bytes_big (slice l4 2 4) in
    Ok (Some (src_ip, dst_ip, src_port, dst_port, proto))
  else
    Ok (Some (src_ip, dst_ip, 0%Z, 0%Z, proto)).

(** The display dictionary returned next to the key. *)
Module Rep.
Record t : Type := mk {
  ip_ver : Z;
  src_ip : str;
  dst_ip : str;
  src_port : Z;
  dst_port : Z;
  proto : Z
}.
End Rep.

Definition l3_key (tag : byte) (t : l3_tuple) : result (list byte) :=
  let '(src_ip_b, dst_ip_b, sp, dp, pr) := t in
  spb <~ int_to_bytes_big 2 sp ;;
  dpb <~ int_to_bytes_big 2 dp ;;
  prb <~ bytes_of_int pr ;;
  Ok ([tag] ++ src_ip_b ++ dst_ip_b ++ spb ++ dpb ++ prb).

Definition fallback_rep : Rep.t :=
  Rep.mk 0 (s2l "-") (s2l "-") 0 0 0.

Definition tuple_for_packet (pkt : list byte) : result (list byte * Rep.t) :=
  t4 <~ _ipv4_tuple pkt ;;
  match t4 with
  | Some (src_ip_b, dst_ip_b, sp, dp, pr) =>
      key <~ l3_key x34 (src_ip_b, dst_ip_b, sp, dp, pr) ;;
      Ok (key, Rep.mk 4 (_fmt_ipv4 src_ip_b) (_fmt_ipv4 dst_ip_b) sp dp pr)
  | None =>
      t6 <~ _ipv6_tuple pkt ;;
      match t6 with
      | Some (src_ip_b, dst_ip_b, sp, dp, pr) =>
          key <~ l3_key x36 (src_ip_b, dst_ip_b, sp, dp, pr) ;;
          Ok (key, Rep.mk 6 (_fmt_ipv6 src_ip_b) (_fmt_ipv6 dst_ip_b) sp dp pr)
      | None =>
          Ok ([x58] ++ firstn 64 pkt, fallback_rep)
      end
  end.

(** One value of [flow_map]. *)
Module Flow.
Record t : Type := mk {
  worker : Z;
  ip_ver : Z;
  src_ip : str;
  dst_ip : str;
  src_port : Z;
  dst_port : Z;
  proto : Z;
  pkt_count : Z
}.
End Flow.

(** [flow_map]: a dictionary keeps its keys in insertion order, and
    [flow_map.values()] is read in that order. *)
Definition flow_map : Type := list (list byte * Flow.t).

Fixpoint fm_mem (key : list byte) (m : flow_map) : bool :=
  match m with
  | [] => false
  | (k, _) :: m' => bytes_eqb key k || fm_mem key m'
  end.

(** [flow_map[key]["pkt_count"] += 1] *)
Fixpoint fm_incr (key : list byte) (m : flow_map) : flow_map :=
  match m with
  | [] => []
  | (k, v) :: m' =>
      if bytes_eqb key k then
        (k, Flow.mk (Flow.worker v) (Flow.ip_ver v) (Flow.src_ip v)
                    (Flow.dst_ip v) (Flow.src_port v) (Flow.dst_port v)
                    (Flow.proto v) (Flow.pkt_count v + 1)) :: m'
      else (k, v) :: fm_incr key m'
  end.

Definition fm_update (key : list byte) (worker_id : Z) (rep : Rep.t)
    (m : flow_map) : flow_map :=
  if negb (fm_mem key m) then
    m ++ [(key, Flow.mk worker_id (Rep.ip_ver rep) (Rep.src_ip rep)
                        (Rep.dst_ip rep) (Rep.src_port rep)
                        (Rep.dst_port rep) (Rep.proto rep) 1)]
  else fm_incr key m.

(** The state the pass threads: the bytes written so far to each open
    output file ([outs], in worker order) and [flow_map]. *)
Record pass : Type := mkpass {
  outs : list (list byte);
  flows : flow_map
}.

(** The body of the loop for one record. *)
Definition route (workers : Z) (pkt_hdr pkt : list byte) (st : pass)
    : result pass :=
  kr <~ tuple_for_packet pkt ;;
  let '(key, rep) := kr in
  idx <~ py_mod (_hash_key key) workers ;;
  let worker_id := (idx + 1)%Z in
  i <~ resolve_index (length (outs st)) idx ;;
  let outs' := alter (fun f => f ++ pkt_hdr ++ pkt) i (outs st) in
  Ok (mkpass outs' (fm_update key worker_id rep (flows st))).

Fixpoint split_loop (fuel : nat) (data : list byte) (workers : Z)
    (off : nat) (st : pass) : result pass :=
  match fuel with
  | O => Raise OutOfFuel
  | S fuel' =>
      if off + PCAP_PKT_HDR_LEN <=? length data then
        let pkt_hdr := slice data off (off + PCAP_PKT_HDR_LEN) in
        let incl_len := Z.to_nat (int_from_bytes_little (slice pkt_hdr 8 12)) in
        let pkt_off := off + PCAP_PKT_HDR_LEN in
        let pkt_end := pkt_off + incl_len in
        if length data <? pkt_end then Ok st
        else
          let pkt := slice data pkt_off pkt_end in
          st' <~ route workers pkt_hdr pkt st ;;
          split_loop fuel' data workers pkt_end st'
      else Ok st
  end.

(** The sort key of the shard map. *)
Definition row_key (r : Flow.t) : Z * Z * Z * str * str * Z :=
  (Flow.worker r, (- Flow.pkt_count r)%Z, Flow.ip_ver r, Flow.src_ip r,
   Flow.dst_ip r, Flow.proto r).

Definition key_compare (a b : Z * Z * Z * str * str * Z) : comparison :=
  let '(w1, c1, v1, s1, d1, p1) := a in
  let '(w2, c2, v2, s2, d2, p2) := b in
  lex (w1 ?= w2)%Z (lex (c1 ?= c2)%Z (lex (v1 ?= v2)%Z
    (lex (str_compare s1 s2) (lex (str_compare d1 d2) (p1 ?= p2)%Z)))).

Definition key_lt (a b : Z * Z * Z * str * str * Z) : bool :=
  match key_compare a b with Lt => true | _ => false end.

Definition worker_map_fields : list str :=
  map s2l ["worker"; "ip_ver"; "src_ip"; "src_port"; "dst_ip"; "dst_port";
           "proto"; "pkt_count"]%string.

Definition worker_map_types : list str :=
  map s2l ["count"; "count"; "string"; "port"; "string"; "port"; "count";
           "count"]%string.

Definition worker_map_line (r : Flow.t) : str :=
  join [TAB]
    [str_of_int (Flow.worker r); str_of_int (Flow.ip_ver r); Flow.src_ip r;
     str_of_int (Flow.src_port r); Flow.dst_ip r;
     str_of_int (Flow.dst_port r); str_of_int (Flow.proto r);
     str_of_int (Flow.pkt_count r)] ++ [LF].

(** The text [write_worker_map_log] writes. *)
Definition write_worker_map_log (rows : list Flow.t) : str :=
  (s2l "#separator " ++ [TAB; LF])
  ++ (s2l "#set_separator ," ++ [LF])
  ++ (s2l "#empty_field (empty)" ++ [LF])
  ++ (s2l "#unset_field -" ++ [LF])
  ++ (s2l "#path worker_map" ++ [LF])
  ++ (s2l "#open 0" ++ [LF])
  ++ (s2l "#fields" ++ [TAB] ++ join [TAB] worker_map_fields ++ [LF])
  ++ (s2l "#types" ++ [TAB] ++ join [TAB] worker_map_types ++ [LF])
  ++ concat (map worker_map_line rows)
  ++ (s2l "#close 0" ++ [LF]).

(** What a run leaves behind: the bytes of [worker1.pcap] ... and the text
    of [worker_map.log]. *)
Record output : Type := mkoutput {
  shards : list (list byte);
  worker_map : str
}.

Definition split_pcap_flowhash (data : list byte) (workers : Z)
    : result output :=
  let outs0 : list (list byte) := replicate (Z.to_nat workers) [] in
  if length data <? PCAP_GLOBAL_HDR_LEN then Raise ValueError else
  let global_hdr := firstn PCAP_GLOBAL_HDR_LEN data in
  let outs1 := map (fun f => f ++ global_hdr) outs0 in
  st <~ split_loop (S (length data)) data workers PCAP_GLOBAL_HDR_LEN
          (mkpass outs1 []) ;;
  let rows := py_sort key_lt row_key (map snd (flows st)) in
  Ok (mkoutput (outs st) (write_worker_map_log rows)).

End SplitPcap.

(** ** Text files and [str] methods *)

Definition ascii_eqb (a b : ascii) : bool := Ascii.eqb a b.

Fixpoint str_eqb (a b : str) : bool :=
  match a, b with
  | [], [] => true
  | x :: a', y :: b' => ascii_eqb x y && str_eqb a' b'
  | _, _ => false
  end.

(** Reading a text file with the default [newline=None]: the line endings
    CR LF and CR both arrive as LF. *)
Fixpoint universal_newlines (s : str) : str :=
  match s with
  | [] => []
  | c :: s' =>
      if ascii_eqb c CR then
        LF :: match s' with
              | c' :: s'' =>
                  if ascii_eqb c' LF then universal_newlines s''
                  else universal_newlines s'
              | [] => []
              end
      else c :: universal_newlines s'
  end.

(** The lines [for line in f] yields, each with its line feed; [cur] is the
    line being read, reversed. *)
Fixpoint lines_from (cur : str) (s : str) : list str :=
  match s with
  | [] => match cur with [] => [] | _ => [rev cur] end
  | c :: s' =>
      if ascii_eqb c LF then rev (c :: cur) :: lines_from [] s'
      else lines_from (c :: cur) s'
  end.

Definition file_lines (content : str) : list str :=
  lines_from [] (universal_newlines content).

(** [line.rstrip("\n")] *)
Fixpoint rstrip_lf (s : str) : str :=
  match s with
  | [] => []
  | c :: s' =>
      match rstrip_lf s' with
      | [] => if ascii_eqb c LF then [] else [c]
      | r => c :: r
      end
  end.

(** [s.startswith(p)] *)
Fixpoint startswith (s p : str) : bool :=
  match p, s with
  | [], _ => true
  | y :: p', x :: s' => ascii_eqb x y && startswith s' p'
  | _ :: _, [] => false
  end.

(** [s.split(sep)] for a separator of one character. *)
Fixpoint split_on (sep : ascii) (s : str) : list str :=
  match s with
  | [] => [[]]
  | c :: s' =>
      if ascii_eqb c sep then [] :: split_on sep s'
      else match split_on sep s' with
           | p :: ps => (c :: p) :: ps
           | [] => [[c]]
           end
  end.

(** [str.isspace] on one character (code points below 256). *)
Definition isspace (c : ascii) : bool :=
  let n := N_of_ascii c in
  (((9 <=? n) && (n <=? 13)) || ((28 <=? n) && (n <=? 32))
   || (n =? 133) || (n =? 160))%N.

Fixpoint lstrip (s : str) : str :=
  match s with
  | c :: s' => if isspace c then lstrip s' else s
  | [] => []
  end.

(** [s.strip()] *)
Definition strip (s : str) : str := rev (lstrip (rev (lstrip s))).

(** Case mapping of one character.  Three letters of the range have their
    upper case outside it (181, 223, 255) and are left alone by [upper_chr];
    none of them is the upper case of anything in the range. *)
Definition lower_chr (c : ascii) : ascii :=
  let n := N_of_ascii c in
  if (((65 <=? n) && (n <=? 90))
      || ((192 <=? n) && (n <=? 222) && negb (n =? 215)))%N
  then ascii_of_N (n + 32) else c.

Definition upper_chr (c : ascii) : ascii :=
  let n := N_of_ascii c in
  if (((97 <=? n) && (n <=? 122))
      || ((224 <=? n) && (n <=? 254) && negb (n =? 247)))%N
  then ascii_of_N (n - 32) else c.

Definition upper (s : str) : str := map upper_chr s.

(** ** app/runner/merge_logs.py *)

Module MergeLogs.

Definition read_state : Type := list str * list str * list (list str).

Definition read_line (st : read_state) (raw : str) : read_state :=
  let '(header_lines, fields, rows) := st in
  let line := rstrip_lf raw in
  if startswith line (s2l "#") then
    let header_lines := header_lines ++ [line] in
    if startswith line (s2l "#fields") then
      (header_lines, tail (split_on TAB line), rows)
    else (header_lines, fields, rows)
  else
    match line with
    | [] => st
    | _ => (header_lines, fields, rows ++ [split_on TAB line])
    end.

(** [_read_zeek_log], on the text of the file. *)
Definition _read_zeek_log (content : str) : read_state :=
  fold_left read_line (file_lines content) ([], [], []).

(** [fields.index("ts")], [None] for [ValueError]. *)
Fixpoint index_of (x : str) (l : list str) : option nat :=
  match l with
  | [] => None
  | y :: l' => if str_eqb y x then Some 0 else option_map S (index_of x l')
  end.

Definition _ts_index (fields : list str) : option nat :=
  index_of (s2l "ts") fields.

Section Merge.

(** The built-in [float] on a [str]: [None] stands for [ValueError].  The
    values are IEEE 754 binary64 numbers. *)
Variable float : str -> option spec_float.

Definition _ts_val (ts_i : nat) (r : list str) : spec_float :=
  if length r <=? ts_i then S754_zero false
  else match nth_error r ts_i with
       | Some v => match float v with
                   | Some x => x
                   | None => S754_zero false
                   end
       | None => S754_zero false
       end.

(** The rows of all files, in the order of [paths]. *)
Definition concat_rows (paths : list str) : list (list str) :=
  fold_left (fun all_rows p =>
               let '(_, fields, rows) := _read_zeek_log p in
               all_rows ++ rows) paths [].

Definition merged_rows (paths : list str) : result (list (list str)) :=
  p0 <~ index paths 0 ;;
  let '(_, first_fields, _) := _read_zeek_log p0 in
  let all_rows := concat_rows paths in
  match _ts_index first_fields with
  | Some ts_i => Ok (py_sort SFltb (_ts_val ts_i) all_rows)
  | None => Ok all_rows
  end.

(** The body of the loop over [per_log.items()]: the text written to
    [merged_dir / log_name] from the files [paths]. *)
Definition merge_one (paths : list str) : result str :=
  p0 <~ index paths 0 ;;
  let '(first_header, _, _) := _read_zeek_log p0 in
  all_rows <~ merged_rows paths ;;
  Ok (concat (map (fun h => h ++ [LF]) first_header)
      ++ concat (map (fun r => join [TAB] r ++ [LF]) all_rows)).

(** A directory listing: the entries of [workers_dir] the pattern
    [worker*] selects, each with the [*.log] files of its [logs]
    subdirectory ([None] when it has none), names paired with texts.
    Every entry stands for a file that can be read.  The code opens
    whatever the pattern selects, so a directory of such a name makes
    [open] raise and ends the run; a listing has no such entry. *)
Definition listing : Type := list (str * option (list (str * str))).

Definition name_lt (a b : str) : bool :=
  match str_compare a b with Lt => true | _ => false end.

(** [per_log.setdefault(name, []).append(lp)] *)
Fixpoint per_log_add (name : str) (lp : str) (per_log : list (str * list str))
    : list (str * list str) :=
  match per_log with
  | [] => [(name, [lp])]
  | (n, ps) :: per_log' =>
      if str_eqb n name then (n, ps ++ [lp]) :: per_log'
      else (n, ps) :: per_log_add name lp per_log'
  end.

Definition collect (dir : listing) : list (str * list str) :=
  fold_left (fun per_log w =>
               match snd w with
               | None => per_log
               | Some logs =>
                   fold_left (fun per_log lp =>
                                per_log_add (fst lp) (snd lp) per_log)
                             (py_sort name_lt fst logs) per_log
               end)
            (py_sort name_lt fst dir) [].

Fixpoint merge_each (per_log : list (str * list str))
    : result (list (str * str)) :=
  match per_log with
  | [] => Ok []
  | (log_name, paths) :: per_log' =>
      text <~ merge_one paths ;;
      rest <~ merge_each per_log' ;;
      Ok ((log_name, text) :: rest)
  end.

(** [merge_worker_logs]: the files written to [merged_dir]. *)
Definition merge_worker_logs (dir : listing) : result (list (str * str)) :=
  merge_each (collect dir).

End Merge.

End MergeLogs.

(** ** The regular expressions of [re] the code uses

    A backtracking matcher with the semantics of [re]: alternatives are
    tried in order, repetitions are greedy, and the first way to match
    wins.  Patterns are syntax trees; the three patterns of app/main.py are
    transcribed below their source text. *)

Module Re.

Inductive item : Type :=
| IChar (c : ascii)        (* a character of a class *)
| ISpace.                  (* \s inside a class *)

Inductive regex : Type :=
| Empty
| Lit (c : ascii)          (* an escaped or ordinary character *)
| Dot                      (* .      any character but the line feed *)
| Space                    (* \s *)
| OneOf (items : list item)    (* [...]  *)
| NoneOf (items : list item)   (* [^...] *)
| Bol                      (* ^ *)
| Eol                      (* $      at the end, or before a final line feed *)
| Seq (r1 r2 : regex)
| Alt (r1 r2 : regex)      (* r1|r2 *)
| Star (r : regex)         (* r*  greedy *)
| Plus (r : regex)         (* r+  greedy *)
| Group (n : nat) (r : regex)  (* the n-th capturing group *)
| IgnoreCase (r : regex).  (* (?i:r) *)

(** A position in the subject: how much is consumed, what is left, and the
    spans of the groups closed so far (latest first). *)
Record mstate : Type := mk {
  pos : nat;
  rest : str;
  spans : list (nat * (nat * nat))
}.

Definition advance (st : mstate) : mstate :=
  mk (S (pos st)) (tail (rest st)) (spans st).

Definition chr_eq (ic : bool) (c x : ascii) : bool :=
  if ic then ascii_eqb (lower_chr c) (lower_chr x) else ascii_eqb c x.

Definition item_match (ic : bool) (x : ascii) (i : item) : bool :=
  match i with
  | IChar c => chr_eq ic c x
  | ISpace => isspace x
  end.

(** One character test. *)
Definition step (test : ascii -> bool) (st : mstate)
    (k : mstate -> option mstate) : option mstate :=
  match rest st with
  | x :: _ => if test x then k (advance st) else None
  | [] => None
  end.

(** Greedy repetition of [body], at most [n] more times; an iteration that
    consumes nothing ends the repetition. *)
Fixpoint iter_star (body : mstate -> (mstate -> option mstate) -> option mstate)
    (n : nat) (st : mstate) (k : mstate -> option mstate) : option mstate :=
  match n with
  | O => k st
  | S n' =>
      match body st (fun st' =>
                       if length (rest st') <? length (rest st)
                       then iter_star body n' st' k else None) with
      | Some r => Some r
      | None => k st
      end
  end.

Fixpoint exec (ic : bool) (r : regex) (st : mstate)
    (k : mstate -> option mstate) : option mstate :=
  match r with
  | Empty => k st
  | Lit c => step (chr_eq ic c) st k
  | Dot => step (fun x => negb (ascii_eqb x LF)) st k
  | Space => step isspace st k
  | OneOf items => step (fun x => existsb (item_match ic x) items) st k
  | NoneOf items => step (fun x => negb (existsb (item_match ic x) items)) st k
  | Bol => if pos st =? 0 then k st else None
  | Eol =>
      match rest st with
      | [] => k st
      | [c] => if ascii_eqb c LF then k st else None
      | _ => None
      end
  | Seq r1 r2 => exec ic r1 st (fun st' => exec ic r2 st' k)
  | Alt r1 r2 =>
      match exec ic r1 st k with
      | Some m => Some m
      | None => exec ic r2 st k
      end
  | Star r' => iter_star (exec ic r') (length (rest st)) st k
  | Plus r' =>
      exec ic r' st (fun st' => iter_star (exec ic r') (length (rest st')) st' k)
  | Group n r' =>
      exec ic r' st
           (fun st' => k (mk (pos st') (rest st')
                             ((n, (pos st, pos st')) :: spans st')))
  | IgnoreCase r' => exec true r' st k
  end.

(** A match object: the span of the whole match and of the groups. *)
Record matched : Type := mkmatched {
  m_start : nat;
  m_end : nat;
  m_spans : list (nat * (nat * nat))
}.

(** The pattern tried at offset [start] of [s]. *)
Definition match_at (ic : bool) (r : regex) (s : str) (start : nat)
    : option matched :=
  match exec ic r (mk start (skipn start s) []) Some with
  | Some st => Some (mkmatched start (pos st) (spans st))
  | None => None
  end.

(** [re.match(r, s)] *)
Definition re_match (ic : bool) (r : regex) (s : str) : option matched :=
  match_at ic r s 0.

(** The leftmost match at or after [start], looking at [n] more offsets. *)
Fixpoint search_from (ic : bool) (r : regex) (s : str) (n : nat) (start : nat)
    : option matched :=
  match match_at ic r s start with
  | Some m => Some m
  | None =>
      match n with
      | O => None
      | S n' => search_from ic r s n' (S start)
      end
  end.

(** [rx.search(s)] *)
Definition re_search (ic : bool) (r : regex) (s : str) : option matched :=
  search_from ic r s (length s) 0.

Fixpoint span_of (n : nat) (spans : list (nat * (nat * nat)))
    : option (nat * nat) :=
  match spans with
  | [] => None
  | (g, sp) :: spans' => if g =? n then Some sp else span_of n spans'
  end.

(** [m.group(n)]: the text of the group, [None] when it took no part. *)
Definition group (s : str) (m : matched) (n : nat) : option str :=
  match span_of n (m_spans m) with
  | Some (a, b) => Some (slice s a b)
  | None => None
  end.

(** [rx.finditer(s)]: successive leftmost matches that do not overlap; after
    an empty match the scan moves on by one character. *)
Fixpoint finditer_from (fuel : nat) (ic : bool) (r : regex) (s : str)
    (start : nat) : result (list matched) :=
  match fuel with
  | O => Raise OutOfFuel
  | S fuel' =>
      if length s <? start then Ok []
      else
        match search_from ic r s (length s - start) start with
        | None => Ok []
        | Some m =>
            let next := if m_end m =? m_start m then S (m_end m) else m_end m in
            ms <~ finditer_from fuel' ic r s next ;;
            Ok (m :: ms)
        end
  end.

Definition finditer (ic : bool) (r : regex) (s : str) : result (list matched) :=
  finditer_from (S (S (length s))) ic r s 0.

(** A literal word as a pattern. *)
Definition word (w : string) : regex :=
  fold_right (fun c r => Seq (Lit c) r) Empty (s2l w).

Definition alts (rs : list regex) : regex :=
  match rs with
  | [] => Empty
  | r :: rs' => fold_left Alt rs' r
  end.

End Re.

(** ** app/main.py: the query parser and the log endpoint *)

Module Query.

Import Re.

(** A decoded row, [Dict[str, str]]. *)
Abbreviation row := (gmap str str).

(** [_TOKEN_RE], compiled with [re.VERBOSE]:
<<
    \s*(
        \(|\) |
        (?i:AND|OR|NOT) |
        [^\s()]+ |
        QUOTE(?:\\.|[^QUOTE])*QUOTE
    )
>>
    where QUOTE stands for the double quote character. *)
Definition QUOTED : regex :=
  Seq (Lit DQUOTE)
      (Seq (Star (Alt (Seq (Lit BACKSLASH) Dot) (NoneOf [IChar DQUOTE])))
           (Lit DQUOTE)).

Definition _TOKEN_RE : regex :=
  Seq (Star Space)
      (Group 1
         (alts [Lit "("; Lit ")";
                IgnoreCase (alts [word "AND"; word "OR"; word "NOT"]);
                Plus (NoneOf [ISpace; IChar "("; IChar ")"]);
                QUOTED])).

Definition _tokenize (q : str) : result (list str) :=
  ms <~ finditer false _TOKEN_RE q ;;
  Ok (fold_left (fun toks m =>
                   match group q m 1 with
                   | Some (c :: t) => toks ++ [c :: t]
                   | _ => toks
                   end) ms []).

(** [s.replace(old, new)] for [old] of two characters [a], [b]. *)
Fixpoint replace2 (a b : ascii) (new : str) (s : str) : str :=
  match s with
  | [] => []
  | x :: s' =>
      match s' with
      | y :: s'' =>
          if ascii_eqb x a && ascii_eqb y b then new ++ replace2 a b new s''
          else x :: replace2 a b new s'
      | [] => [x]
      end
  end.

Definition _strip_quotes (s : str) : str :=
  if (2 <=? length s) && str_eqb (firstn 1 s) [DQUOTE]
     && str_eqb (skipn (length s - 1) s) [DQUOTE] then
    let inner := slice s 1 (length s - 1) in
    replace2 BACKSLASH BACKSLASH [BACKSLASH]
             (replace2 BACKSLASH DQUOTE [DQUOTE] inner)
  else s.

(** The pattern [_wildcard_to_regex] builds, as [re.compile] reads it back:
    [re.escape] makes every other character match itself. *)
Definition wildcard_item (ch : ascii) : regex :=
  if ascii_eqb ch "*" then Star Dot
  else if ascii_eqb ch "?" then Dot
  else Lit ch.

Definition _wildcard_to_regex (pat : str) : regex :=
  Seq Bol (fold_right (fun ch r => Seq (wildcard_item ch) r) Eol pat).

(** [_match_value], with [re.IGNORECASE].  Every pattern built above
    compiles, so the handler of the [try] is never entered. *)
Definition _match_value (val pat : str) : bool :=
  match re_search true (_wildcard_to_regex pat) val with
  | Some _ => true
  | None => false
  end.

(** [^([^:=]+)\s*[:=]\s*(.+)$] *)
Definition TERM_RE : regex :=
  Seq Bol
    (Seq (Group 1 (Plus (NoneOf [IChar ":"; IChar "="])))
       (Seq (Star Space)
          (Seq (OneOf [IChar ":"; IChar "="])
             (Seq (Star Space)
                (Seq (Group 2 (Plus Dot)) Eol))))).

(** The field and the pattern of a [field:value] term. *)
Definition term_fields (term : str) : option (str * str) :=
  let term := _strip_quotes term in
  match re_match false TERM_RE term with
  | Some m =>
      match group term m 1, group term m 2 with
      | Some g1, Some g2 => Some (strip g1, _strip_quotes (strip g2))
      | _, _ => None
      end
  | None => None
  end.

Definition _pred (field pat : str) (r : row) : bool :=
  _match_value (default [] (r !! field)) pat.

Definition _pred_any (pat : str) (r : row) : bool :=
  existsb (fun kv => _match_value (snd kv) pat) (map_to_list r).

Definition _term_predicate (term : str) : row -> bool :=
  match term_fields term with
  | Some (field, pat) => _pred field pat
  | None => _pred_any (_strip_quotes term)
  end.

(** [prec[t]] *)
Definition prec (t : str) : result Z :=
  if str_eqb t (s2l "NOT") then Ok 3%Z
  else if str_eqb t (s2l "AND") then Ok 2%Z
  else if str_eqb t (s2l "OR") then Ok 1%Z
  else Raise KeyError.

Definition in_prec (t : str) : bool :=
  str_eqb t (s2l "NOT") || str_eqb t (s2l "AND") || str_eqb t (s2l "OR").

Definition is_operator (t : str) : bool :=
  str_eqb t (s2l "AND") || str_eqb t (s2l "OR") || str_eqb t (s2l "NOT").

Definition norm (t : str) : str :=
  let u := upper t in
  if is_operator u then u else t.

(** The two stacks of [_to_rpn] hold their top at the head; [out] grows at
    its end. *)
Fixpoint pop_to_paren (opstack out : list str) : list str * list str :=
  match opstack with
  | [] => ([], out)
  | top :: opstack' =>
      if negb (str_eqb top (s2l "(")) then pop_to_paren opstack' (out ++ [top])
      else (opstack, out)
  end.

Fixpoint pop_higher (t : str) (opstack out : list str)
    : result (list str * list str) :=
  match opstack with
  | [] => Ok ([], out)
  | top :: opstack' =>
      if in_prec top then
        ptop <~ prec top ;;
        pt <~ prec t ;;
        if (pt <=? ptop)%Z then pop_higher t opstack' (out ++ [top])
        else Ok (opstack, out)
      else Ok (opstack, out)
  end.

Definition rpn_step (st : list str * list str) (raw : str)
    : result (list str * list str) :=
  let '(opstack, out) := st in
  let t := norm raw in
  if str_eqb t (s2l "(") then Ok (t :: opstack, out)
  else if str_eqb t (s2l ")") then
    let '(opstack, out) := pop_to_paren opstack out in
    match opstack with
    | top :: opstack' =>
        if str_eqb top (s2l "(") then Ok (opstack', out) else Ok (opstack, out)
    | [] => Ok (opstack, out)
    end
  else if is_operator t then
    st' <~ pop_higher t opstack out ;;
    Ok (t :: fst st', snd st')
  else Ok (opstack, out ++ [raw]).

Fixpoint rpn_loop (tokens : list str) (st : list str * list str)
    : result (list str * list str) :=
  match tokens with
  | [] => Ok st
  | raw :: tokens' => st' <~ rpn_step st raw ;; rpn_loop tokens' st'
  end.

Definition _to_rpn (tokens : list str) : result (list str) :=
  st <~ rpn_loop tokens ([], []) ;;
  Ok (snd st ++ fst st).

Definition always_true : row -> bool := fun _ => true.

(** One postfix token against the stack [preds] (top at the head). *)
Definition compile_step (preds : list (row -> bool)) (tok : str)
    : result (list (row -> bool)) :=
  let u := upper tok in
  if str_eqb u (s2l "NOT") then
    match preds with
    | [] => Ok [always_true]
    | a :: preds' => Ok ((fun r => negb (a r)) :: preds')
    end
  else if str_eqb u (s2l "AND") || str_eqb u (s2l "OR") then
    if length preds <? 2 then Ok (always_true :: preds)
    else
      match preds with
      | b :: a :: preds' =>
          if str_eqb u (s2l "AND") then Ok ((fun r => a r && b r) :: preds')
          else Ok ((fun r => a r || b r) :: preds')
      | _ => Raise IndexError
      end
  else Ok (_term_predicate tok :: preds).

Fixpoint compile_loop (rpn : list str) (preds : list (row -> bool))
    : result (list (row -> bool)) :=
  match rpn with
  | [] => Ok preds
  | tok :: rpn' => preds' <~ compile_step preds tok ;; compile_loop rpn' preds'
  end.

Definition _compile_query (q : str) : result (option (row -> bool)) :=
  let q := strip q in
  match q with
  | [] => Ok None
  | _ =>
      toks <~ _tokenize q ;;
      match toks with
      | [] => Ok None
      | _ =>
          rpn <~ _to_rpn toks ;;
          preds <~ compile_loop rpn [] ;;
          match preds with
          | [] => Ok None
          | p :: _ => Ok (Some p)
          end
      end
  end.

(** The reading loop of [get_log]: the field list, the header lines and the
    rows kept so far. *)
Record scan : Type := mkscan {
  fields : option (list str);
  header_meta : list str;
  all_rows : list row
}.

(** [{fields[i]: parts[i] for i in range(len(fields))}]: a later column of
    the same name replaces an earlier one. *)
Definition make_row (fields parts : list str) : row :=
  fold_left (fun (m : row) kv => <[fst kv := snd kv]> m) (combine fields parts) ∅.

Definition keep (pred : option (row -> bool)) (r : row) : bool :=
  match pred with
  | None => true
  | Some p => p r
  end.

Definition decode (flds : option (list str)) (line : str) : list str * row :=
  match flds with
  | None => ([s2l "_raw"], {[ s2l "_raw" := line ]})
  | Some fs =>
      let parts := split_on TAB line in
      let parts := parts ++ repeat [] (length fs - length parts) in
      let parts := firstn (length fs) parts in
      (fs, make_row fs parts)
  end.

Definition scan_line (pred : option (row -> bool)) (st : scan) (raw : str)
    : scan :=
  let line := rstrip_lf raw in
  if startswith line (s2l "#") then
    let header_meta := header_meta st ++ [line] in
    if startswith line (s2l "#fields") then
      mkscan (Some (tail (split_on TAB line))) header_meta (all_rows st)
    else mkscan (fields st) header_meta (all_rows st)
  else
    let '(fs, r) := decode (fields st) line in
    if keep pred r then mkscan (Some fs) (header_meta st) (all_rows st ++ [r])
    else mkscan (Some fs) (header_meta st) (all_rows st).

(** The body of the response. *)
Record page : Type := mkpage {
  p_fields : list str;
  p_offset : Z;
  p_limit : Z;
  p_total : nat;
  p_rows : list row;
  p_header : list str
}.

(** [get_log] on the text of an existing merged log.  A call of the
    predicate is taken to return: the closures [_compile_query] builds nest
    one level for each operator, and a query of some thousand operators
    exceeds the recursion limit of the interpreter when it is applied. *)
Definition get_log (content : str) (offset limit : Z) (q : str) : result page :=
  pred <~ _compile_query q ;;
  let st := fold_left (scan_line pred) (file_lines content)
                      (mkscan None [] []) in
  let total := length (all_rows st) in
  let offset := if (offset <? 0)%Z then 0%Z else offset in
  let limit := if (limit <? 1)%Z then 1%Z else limit in
  let limit := if (5000 <? limit)%Z then 5000%Z else limit in
  let rows := slice (all_rows st) (Z.to_nat offset) (Z.to_nat (offset + limit)) in
  Ok (mkpage (default [] (fields st)) offset limit total rows (header_meta st)).

End Query.

(** * Properties *)

(** ** Bytes and integers *)

Lemma byte_val_range (b : byte) : (0 <= byte_val b < 256)%Z.
Proof.
  unfold byte_val. pose proof (Byte.to_N_bounded b) as H.
  lia.
Qed.

Lemma int_from_bytes_big_acc (bs : list byte) (acc : Z) :
  fold_left (fun a b => a * 256 + byte_val b)%Z bs acc
  = (acc * 256 ^ Z.of_nat (length bs)
     + fold_left (fun a b => a * 256 + byte_val b) bs 0)%Z.
Proof.
  revert acc. induction bs as [|b bs IH]; intros acc.
  - simpl. lia.
  - cbn [fold_left length]. rewrite IH. rewrite (IH (0 * 256 + byte_val b)%Z).
    rewrite Nat2Z.inj_succ, Z.pow_succ_r by lia. ring.
Qed.

Lemma int_from_bytes_big_range (bs : list byte) :
  (0 <= int_from_bytes_big bs < 256 ^ Z.of_nat (length bs))%Z.
Proof.
  unfold int_from_bytes_big.
  induction bs as [|b bs IH] using rev_ind.
  - simpl. lia.
  - rewrite fold_left_app. cbn [fold_left].
    rewrite length_app. cbn [length].
    replace (Z.of_nat (length bs + 1)) with (Z.succ (Z.of_nat (length bs))) by lia.
    rewrite Z.pow_succ_r by lia.
    pose proof (byte_val_range b). lia.
Qed.

Lemma length_slice_le {A : Type} (l : list A) (a b : nat) :
  length (slice l a b) <= b - a.
Proof. unfold slice. rewrite length_take. lia. Qed.

Lemma port_range (l : list byte) (a : nat) :
  (0 <= int_from_bytes_big (slice l a (a + 2)) < 256 ^ 2)%Z.
Proof.
  pose proof (int_from_bytes_big_range (slice l a (a + 2))) as H.
  pose proof (length_slice_le l a (a + 2)) as Hl.
  assert (256 ^ Z.of_nat (length (slice l a (a + 2))) <= 256 ^ 2)%Z.
  { apply Z.pow_le_mono_r; lia. }
  lia.
Qed.

Lemma bytes_eqb_eq (a b : list byte) : bytes_eqb a b = true <-> a = b.
Proof.
  revert b. induction a as [|x a IH]; intros [|y b]; simpl; try (split; congruence).
  rewrite andb_true_iff, IH. split.
  - intros [Hxy ->]. apply Byte.byte_dec_bl in Hxy. congruence.
  - intros [= -> ->]. split; [apply Byte.byte_dec_lb|]; reflexivity.
Qed.

Lemma bytes_eqb_refl (a : list byte) : bytes_eqb a a = true.
Proof. apply bytes_eqb_eq. reflexivity. Qed.

Lemma bytes_eqb_neq (a b : list byte) : bytes_eqb a b = false <-> a <> b.
Proof.
  destruct (bytes_eqb a b) eqn:E.
  - apply bytes_eqb_eq in E. split; [discriminate | congruence].
  - split; [|reflexivity]. intros _ Hab. apply bytes_eqb_eq in Hab. congruence.
Qed.

(** ** Classification never raises *)

Section Classify.

Import SplitPcap.

Lemma l3_key_ok (tag : byte) (src dst : list byte) (sp dp pr : Z) :
  (0 <= sp < 256 ^ 2)%Z -> (0 <= dp < 256 ^ 2)%Z -> (0 <= pr < 256)%Z ->
  l3_key tag (src, dst, sp, dp, pr)
  = Ok ([tag] ++ src ++ dst ++ be_bytes 2 sp ++ be_bytes 2 dp ++ [byte_of_Z pr]).
Proof.
  intros Hs Hd Hp. unfold l3_key, int_to_bytes_big, bytes_of_int.
  change (256 ^ Z.of_nat 2)%Z with (256 ^ 2)%Z.
  replace ((0 <=? sp) && (sp <? 256 ^ 2))%Z with true by (symmetry; apply andb_true_iff; lia).
  replace ((0 <=? dp) && (dp <? 256 ^ 2))%Z with true by (symmetry; apply andb_true_iff; lia).
  replace ((0 <=? pr) && (pr <? 256))%Z with true by (symmetry; apply andb_true_iff; lia).
  reflexivity.
Qed.

(** The tuples the two parsers return hold ports of two bytes and a protocol
    of one byte. *)
Definition tuple_in_range (t : l3_tuple) : Prop :=
  let '(_, _, sp, dp, pr) := t in
  (0 <= sp < 256 ^ 2)%Z /\ (0 <= dp < 256 ^ 2)%Z /\ (0 <= pr < 256)%Z.

Lemma index_ok {A : Type} (l : list A) (i : nat) :
  i < length l -> exists x, index l i = Ok x /\ nth_error l i = Some x.
Proof.
  intros H. unfold index. destruct (nth_error l i) as [x|] eqn:E.
  - eauto.
  - apply nth_error_None in E. lia.
Qed.

Lemma _ipv4_tuple_ok (pkt : list byte) :
  exists o, _ipv4_tuple pkt = Ok o /\
            match o with Some t => tuple_in_range t | None => True end.
Proof.
  unfold _ipv4_tuple.
  destruct (length pkt <? 14 + 20) eqn:Hlen; [eexists; split; [reflexivity|exact I]|].
  apply Nat.ltb_ge in Hlen.
  destruct (negb _); [eexists; split; [reflexivity|exact I]|].
  assert (Hip : 20 <= length (skipn 14 pkt)) by (rewrite length_drop; lia).
  destruct (index_ok (skipn 14 pkt) 0) as (b0 & -> & _); [lia|]. cbn [rbind].
  destruct (negb _); [eexists; split; [reflexivity|exact I]|].
  destruct (_ <? _)%Z; [eexists; split; [reflexivity|exact I]|].
  destruct (index_ok (skipn 14 pkt) 9) as (p & -> & _); [lia|]. cbn [rbind].
  pose proof (byte_val_range p) as Hp.
  destruct (is_tcp_udp (byte_val p)).
  - destruct (_ <? _)%Z; [eexists; split; [reflexivity|exact I]|].
    eexists; split; [reflexivity|]. cbn.
    pose proof (port_range (skipn (Z.to_nat (Z.land (byte_val b0) 15 * 4)) (skipn 14 pkt)) 0).
    pose proof (port_range (skipn (Z.to_nat (Z.land (byte_val b0) 15 * 4)) (skipn 14 pkt)) 2).
    auto.
  - eexists; split; [reflexivity|]. cbn. lia.
Qed.

Lemma _ipv6_tuple_ok (pkt : list byte) :
  exists o, _ipv6_tuple pkt = Ok o /\
            match o with Some t => tuple_in_range t | None => True end.
Proof.
  unfold _ipv6_tuple.
  destruct (length pkt <? 14 + 40) eqn:Hlen; [eexists; split; [reflexivity|exact I]|].
  apply Nat.ltb_ge in Hlen.
  destruct (negb _); [eexists; split; [reflexivity|exact I]|].
  assert (Hip : 40 <= length (skipn 14 pkt)) by (rewrite length_drop; lia).
  destruct (index_ok (skipn 14 pkt) 0) as (b0 & -> & _); [lia|]. cbn [rbind].
  destruct (negb _); [eexists; split; [reflexivity|exact I]|].
  destruct (index_ok (skipn 14 pkt) 6) as (p & -> & _); [lia|]. cbn [rbind].
  pose proof (byte_val_range p) as Hp.
  destruct (is_tcp_udp (byte_val p)).
  - destruct (_ <? _); [eexists; split; [reflexivity|exact I]|].
    eexists; split; [reflexivity|]. cbn.
    pose proof (port_range (skipn 40 (skipn 14 pkt)) 0).
    pose proof (port_range (skipn 40 (skipn 14 pkt)) 2).
    auto.
  - eexists; split; [reflexivity|]. cbn. lia.
Qed.

Lemma tuple_for_packet_ok (pkt : list byte) :
  exists key rep, tuple_for_packet pkt = Ok (key, rep).
Proof.
  unfold tuple_for_packet.
  destruct (_ipv4_tuple_ok pkt) as (o4 & -> & H4). cbn [rbind].
  destruct o4 as [[[[[s d] sp] dp] pr]|].
  - destruct H4 as (? & ? & ?). rewrite l3_key_ok by assumption. cbn [rbind]. eauto.
  - destruct (_ipv6_tuple_ok pkt) as (o6 & -> & H6). cbn [rbind].
    destruct o6 as [[[[[s d] sp] dp] pr]|].
    + destruct H6 as (? & ? & ?). rewrite l3_key_ok by assumption. cbn [rbind]. eauto.
    + eauto.
Qed.

End Classify.

(** ** The pass over the capture *)

Section Sharder.

Import SplitPcap.

(** A packet record: its 16-byte header and its payload. *)
Definition record : Type := list byte * list byte.

Definition rec_bytes (r : record) : list byte := fst r ++ snd r.

(** The captured length a record header declares. *)
Definition incl_len (hdr : list byte) : nat :=
  Z.to_nat (int_from_bytes_little (slice hdr 8 12)).

Definition complete (r : record) : Prop :=
  length (fst r) = 16 /\ length (snd r) = incl_len (fst r).

(** What cannot start a record: fewer than 16 bytes, or a header that
    declares more payload than is left. *)
Definition truncated (tail : list byte) : Prop :=
  length tail < 16 \/ length tail < 16 + incl_len (firstn 16 tail).

(** [body], the capture after its global header, is the complete records
    [rs] followed by [tail]. *)
Definition framed (body : list byte) (rs : list record) (tail : list byte)
    : Prop :=
  body = concat (map rec_bytes rs) ++ tail /\ Forall complete rs /\ truncated tail.

Definition flow_key (pkt : list byte) : list byte :=
  match tuple_for_packet pkt with
  | Ok (key, _) => key
  | Raise _ => []
  end.

Definition flow_rep (pkt : list byte) : Rep.t :=
  match tuple_for_packet pkt with
  | Ok (_, rep) => rep
  | Raise _ => fallback_rep
  end.

(** The 0-based shard of a key. *)
Definition shard_index (workers : Z) (key : list byte) : Z :=
  (_hash_key key mod workers)%Z.

Definition on_shard (workers : Z) (i : nat) (r : record) : bool :=
  Z.to_nat (shard_index workers (flow_key (snd r))) =? i.

Fixpoint route_all (workers : Z) (rs : list record) (st : pass) : result pass :=
  match rs with
  | [] => Ok st
  | r :: rs' => st' <~ route workers (fst r) (snd r) st ;; route_all workers rs' st'
  end.

Definition deliver (workers : Z) (rs : list record) (o : list (list byte))
    : list (list byte) :=
  fold_left (fun o r =>
               alter (fun f => f ++ rec_bytes r)
                     (Z.to_nat (shard_index workers (flow_key (snd r)))) o)
            rs o.

Definition account (workers : Z) (rs : list record) (m : flow_map) : flow_map :=
  fold_left (fun m r =>
               fm_update (flow_key (snd r))
                         (shard_index workers (flow_key (snd r)) + 1)
                         (flow_rep (snd r)) m)
            rs m.

Lemma framing_exists (body : list byte) : exists rs tail, framed body rs tail.
Proof.
  remember (length body) as n eqn:Hn.
  revert body Hn. induction n as [n IH] using lt_wf_ind. intros body Hn.
  destruct (le_lt_dec 16 (length body)) as [H16|H16].
  2:{ exists [], body. repeat split; [constructor | left; exact H16]. }
  destruct (le_lt_dec (16 + incl_len (firstn 16 body)) (length body)) as [Hc|Hc].
  2:{ exists [], body. repeat split; [constructor | right; exact Hc]. }
  set (k := incl_len (firstn 16 body)) in *.
  destruct (IH (length (skipn (16 + k) body))) with (body := skipn (16 + k) body)
    as (rs & tail & Hb & Hrs & Ht).
  { rewrite length_drop. lia. }
  { reflexivity. }
  exists ((firstn 16 body, firstn k (skipn 16 body)) :: rs), tail.
  repeat split.
  - cbn [map concat]. unfold rec_bytes at 1. cbn [fst snd].
    rewrite <- !app_assoc, <- Hb.
    rewrite <- (drop_drop body k 16).
    rewrite (take_drop k (skipn 16 body)). symmetry. apply take_drop.
  - constructor; [|exact Hrs]. split; cbn [fst snd].
    + rewrite length_take. lia.
    + rewrite length_take, length_drop. fold k. lia.
  - exact Ht.
Qed.

Lemma complete_length (rs : list record) :
  Forall complete rs -> 16 * length rs <= length (concat (map rec_bytes rs)).
Proof.
  induction 1 as [|r rs [Hh _] _ IH]; cbn [map concat length]; [lia|].
  unfold rec_bytes at 1. rewrite !length_app. lia.
Qed.

Lemma slice_app_length {A : Type} (pre x : list A) (n : nat) :
  slice (pre ++ x) (length pre) (length pre + n) = firstn n x.
Proof.
  unfold slice. rewrite drop_app_length. f_equal. lia.
Qed.

Lemma split_loop_framed (workers : Z) (rs : list record) :
  forall (pre tail : list byte) (st : pass) (fuel : nat),
    Forall complete rs -> truncated tail -> length rs < fuel ->
    split_loop fuel (pre ++ concat (map rec_bytes rs) ++ tail) workers
               (length pre) st
    = route_all workers rs st.
Proof.
  induction rs as [|[h p] rs IH]; intros pre tail st fuel Hrs Ht Hfuel.
  - destruct fuel as [|fuel]; [lia|]. cbn [map concat app route_all split_loop].
    unfold PCAP_PKT_HDR_LEN. rewrite slice_app_length, length_app.
    destruct Ht as [Ht|Ht].
    + replace (length pre + 16 <=? length pre + length tail) with false
        by (symmetry; apply Nat.leb_gt; lia).
      reflexivity.
    + destruct (length pre + 16 <=? length pre + length tail); [|reflexivity].
      fold (incl_len (firstn 16 tail)).
      replace (length pre + length tail <? length pre + 16 + incl_len (firstn 16 tail))
        with true by (symmetry; apply Nat.ltb_lt; lia).
      reflexivity.
  - destruct fuel as [|fuel]; [cbn in Hfuel; lia|].
    apply Forall_cons_1 in Hrs. destruct Hrs as [[Hh Hp] Hrs]. cbn [fst snd] in Hh, Hp.
    pose (rest := concat (map rec_bytes rs) ++ tail).
    match goal with
    | |- split_loop _ ?d _ _ _ = _ => replace d with (pre ++ h ++ p ++ rest)
    end.
    2:{ cbn [map concat]. change (rec_bytes (h, p)) with (h ++ p). unfold rest.
        rewrite <- !app_assoc. reflexivity. }
    cbn [route_all split_loop fst snd]. unfold PCAP_PKT_HDR_LEN.
    rewrite slice_app_length.
    assert (Hhdr : firstn 16 (h ++ p ++ rest) = h)
      by (rewrite <- Hh; apply take_app_length).
    rewrite Hhdr. fold (incl_len h). rewrite <- Hp.
    assert (Hlen : length (pre ++ h ++ p ++ rest)
                   = length pre + 16 + length p + length rest).
    { rewrite !length_app. lia. }
    rewrite Hlen.
    replace (length pre + 16 <=? length pre + 16 + length p + length rest)
      with true by (symmetry; apply Nat.leb_le; lia).
    replace (length pre + 16 + length p + length rest <? length pre + 16 + length p)
      with false by (symmetry; apply Nat.ltb_ge; lia).
    assert (Hpkt : slice (pre ++ h ++ p ++ rest) (length pre + 16)
                         (length pre + 16 + length p) = p).
    { replace (pre ++ h ++ p ++ rest) with ((pre ++ h) ++ p ++ rest)
        by (rewrite <- app_assoc; reflexivity).
      replace (length pre + 16) with (length (pre ++ h)) by (rewrite length_app; lia).
      rewrite slice_app_length. apply take_app_length. }
    rewrite Hpkt.
    destruct (route workers h p st) as [st'|e]; cbn [rbind]; [|reflexivity].
    replace (pre ++ h ++ p ++ rest) with ((pre ++ h ++ p) ++ rest)
      by (rewrite <- !app_assoc; reflexivity).
    replace (length pre + 16 + length p) with (length (pre ++ h ++ p))
      by (rewrite !length_app; lia).
    apply IH; [exact Hrs | exact Ht | cbn in Hfuel; lia].
Qed.

Lemma route_ok (workers : Z) (h p : list byte) (st : pass) :
  (1 <= workers)%Z -> length (outs st) = Z.to_nat workers ->
  route workers h p st
  = Ok (mkpass (alter (fun f => f ++ h ++ p)
                      (Z.to_nat (shard_index workers (flow_key p))) (outs st))
               (fm_update (flow_key p) (shard_index workers (flow_key p) + 1)
                          (flow_rep p) (flows st))).
Proof.
  intros Hw Hlen. unfold route, flow_key, flow_rep, shard_index.
  destruct (tuple_for_packet_ok p) as (key & rep & ->). cbn [rbind].
  unfold py_mod. replace (workers =? 0)%Z with false by (symmetry; apply Z.eqb_neq; lia).
  cbn [rbind]. unfold resolve_index. rewrite Hlen.
  pose proof (Z.mod_pos_bound (_hash_key key) workers ltac:(lia)) as Hm.
  set (idx := (_hash_key key mod workers)%Z) in *. clearbody idx.
  rewrite Z2Nat.id by lia.
  replace ((0 <=? idx) && (idx <? workers))%Z
    with true by (symmetry; apply andb_true_iff; lia).
  reflexivity.
Qed.

Lemma route_all_ok (workers : Z) (rs : list record) :
  forall st, (1 <= workers)%Z -> length (outs st) = Z.to_nat workers ->
    route_all workers rs st
    = Ok (mkpass (deliver workers rs (outs st)) (account workers rs (flows st))).
Proof.
  induction rs as [|[h p] rs IH]; intros st Hw Hlen.
  - destruct st; reflexivity.
  - cbn [route_all fst snd]. rewrite route_ok by assumption. cbn [rbind].
    rewrite IH; [reflexivity | assumption |].
    cbn [outs]. rewrite length_alter. exact Hlen.
Qed.

Lemma length_deliver (workers : Z) (rs : list record) (o : list (list byte)) :
  length (deliver workers rs o) = length o.
Proof.
  unfold deliver. revert o. induction rs as [|r rs IH]; intros o; [reflexivity|].
  cbn [fold_left]. rewrite IH. apply length_alter.
Qed.

Lemma lookup_deliver (workers : Z) (rs : list record) :
  forall (o : list (list byte)) (i : nat),
    deliver workers rs o !! i
    = (fun f => f ++ concat (map rec_bytes (List.filter (on_shard workers i) rs)))
        <$> (o !! i).
Proof.
  unfold deliver. induction rs as [|r rs IH]; intros o i.
  - cbn. destruct (o !! i); cbn; [rewrite app_nil_r|]; reflexivity.
  - cbn [fold_left List.filter]. rewrite IH.
    unfold on_shard at 2.
    destruct (Nat.eqb_spec (Z.to_nat (shard_index workers (flow_key (snd r)))) i) as [->|Hne].
    + rewrite list_lookup_alter_eq. destruct (o !! _); cbn; [|reflexivity].
      rewrite <- !app_assoc. reflexivity.
    + rewrite list_lookup_alter_ne by exact Hne. reflexivity.
Qed.

(** The whole run on a capture whose body is framed. *)
Lemma split_framed (data : list byte) (workers : Z) (rs : list record)
    (tail : list byte) :
  (1 <= workers)%Z -> 24 <= length data -> framed (skipn 24 data) rs tail ->
  split_pcap_flowhash data workers
  = Ok (mkoutput
          (deliver workers rs (replicate (Z.to_nat workers) (firstn 24 data)))
          (write_worker_map_log
             (py_sort key_lt row_key (map snd (account workers rs []))))).
Proof.
  intros Hw Hlen (Hbody & Hrs & Ht). unfold split_pcap_flowhash, PCAP_GLOBAL_HDR_LEN.
  replace (length data <? 24) with false by (symmetry; apply Nat.ltb_ge; lia).
  assert (Hdata : data = firstn 24 data ++ concat (map rec_bytes rs) ++ tail).
  { rewrite <- Hbody. symmetry. apply take_drop. }
  assert (Hpre : length (firstn 24 data) = 24) by (rewrite length_take; lia).
  remember (firstn 24 data) as hdr eqn:Hh. clear Hh Hbody Hlen. subst data.
  replace (map (fun f : list byte => f ++ hdr) (replicate (Z.to_nat workers) []))
    with (replicate (Z.to_nat workers) hdr).
  2:{ generalize (Z.to_nat workers) as n. induction n as [|n IH]; cbn; congruence. }
  match goal with
  | |- context [split_loop ?f ?d ?w 24 ?s] =>
      replace (split_loop f d w 24 s) with (split_loop f d w (length hdr) s)
        by (rewrite Hpre; reflexivity)
  end.
  rewrite split_loop_framed; try assumption.
  - rewrite route_all_ok; [reflexivity | exact Hw |].
    cbn [outs]. apply length_replicate.
  - pose proof (complete_length rs Hrs) as Hc.
    rewrite !length_app. lia.
Qed.

(** *** The flow map *)

Definition bump (v : Flow.t) : Flow.t :=
  Flow.mk (Flow.worker v) (Flow.ip_ver v) (Flow.src_ip v) (Flow.dst_ip v)
          (Flow.src_port v) (Flow.dst_port v) (Flow.proto v)
          (Flow.pkt_count v + 1).

(** How many of the records carry the key [k]. *)
Definition packets_of (k : list byte) (rs : list record) : nat :=
  length (List.filter (fun r => bytes_eqb (flow_key (snd r)) k) rs).

Lemma fm_mem_In (k : list byte) (m : flow_map) :
  fm_mem k m = true <-> In k (map fst m).
Proof.
  induction m as [|[k' v] m IH]; cbn; [split; [discriminate | tauto]|].
  rewrite orb_true_iff, IH, bytes_eqb_eq. split; intros [H|H]; auto.
Qed.

Lemma fm_incr_keys (k : list byte) (m : flow_map) :
  map fst (fm_incr k m) = map fst m.
Proof.
  induction m as [|[k' v] m IH]; cbn; [reflexivity|].
  destruct (bytes_eqb k k'); cbn; congruence.
Qed.

Lemma fm_incr_In (k : list byte) (m : flow_map) (k1 : list byte) (v1 : Flow.t) :
  NoDup (map fst m) -> In (k1, v1) (fm_incr k m) ->
  (k1 <> k /\ In (k1, v1) m) \/ (k1 = k /\ exists v, In (k, v) m /\ v1 = bump v).
Proof.
  induction m as [|[k' v] m IH]; cbn; [tauto|]. intros Hnd Hin.
  apply NoDup_cons_1_1 in Hnd as Hk'. apply NoDup_cons_1_2 in Hnd as Hnd'.
  destruct (bytes_eqb k k') eqn:E.
  - apply bytes_eqb_eq in E. subst k'. destruct Hin as [[= <- <-]|Hin].
    + right. split; [reflexivity|]. exists v. split; [left|]; reflexivity.
    + left. split; [|right; exact Hin]. intros ->. apply Hk'.
      apply list_elem_of_In. apply (in_map fst) in Hin. exact Hin.
  - apply bytes_eqb_neq in E. destruct Hin as [[= <- <-]|Hin].
    + left. split; [congruence | left; reflexivity].
    + destruct (IH Hnd' Hin) as [[? ?]|(-> & v' & ? & ->)].
      * left. split; [assumption | right; assumption].
      * right. split; [reflexivity|]. exists v'. split; [right; assumption | reflexivity].
Qed.

Lemma packets_of_snoc (k : list byte) (rs : list record) (r : record) :
  packets_of k (rs ++ [r])
  = packets_of k rs + (if bytes_eqb (flow_key (snd r)) k then 1 else 0).
Proof.
  unfold packets_of. rewrite List.filter_app, length_app. cbn.
  destruct (bytes_eqb _ _); reflexivity.
Qed.

Lemma packets_of_0 (k : list byte) (rs : list record) :
  ~ In k (map (fun r => flow_key (snd r)) rs) -> packets_of k rs = 0.
Proof.
  unfold packets_of. induction rs as [|r rs IH]; cbn; [reflexivity|]. intros Hn.
  destruct (bytes_eqb _ _) eqn:E.
  - apply bytes_eqb_eq in E. tauto.
  - apply IH. tauto.
Qed.

(** What the flow map holds after the records [rs]. *)
Definition flow_map_of (workers : Z) (rs : list record) (m : flow_map) : Prop :=
  NoDup (map fst m)
  /\ (forall k, In k (map fst m) <-> In k (map (fun r => flow_key (snd r)) rs))
  /\ (forall k v, In (k, v) m ->
        Flow.worker v = (shard_index workers k + 1)%Z
        /\ Flow.pkt_count v = Z.of_nat (packets_of k rs)).

Lemma account_snoc (workers : Z) (rs : list record) (r : record) (m : flow_map) :
  account workers (rs ++ [r]) m
  = fm_update (flow_key (snd r)) (shard_index workers (flow_key (snd r)) + 1)
              (flow_rep (snd r)) (account workers rs m).
Proof. unfold account. rewrite fold_left_app. reflexivity. Qed.

Lemma account_spec (workers : Z) (rs : list record) :
  flow_map_of workers rs (account workers rs []).
Proof.
  induction rs as [|r rs IH] using rev_ind.
  - cbn. repeat split; try tauto; try constructor; cbn in *; tauto.
  - rewrite account_snoc. destruct IH as (Hnd & Hkeys & Hvals).
    set (m := account workers rs []) in *. set (k0 := flow_key (snd r)).
    unfold fm_update. destruct (fm_mem k0 m) eqn:Hmem; cbn [negb].
    + (* a key already seen *)
      apply fm_mem_In in Hmem. repeat split.
      * rewrite fm_incr_keys. exact Hnd.
      * rewrite fm_incr_keys, map_app, in_app_iff, Hkeys. cbn. tauto.
      * rewrite fm_incr_keys, map_app, in_app_iff, Hkeys. cbn. intros [H|[<-|[]]]; [assumption|].
        apply Hkeys. exact Hmem.
      * apply fm_incr_In in H; [|exact Hnd].
        destruct H as [[_ H]|(-> & v' & H & ->)]; [apply (Hvals _ _ H)|].
        cbn. apply (Hvals _ _ H).
      * rewrite packets_of_snoc. fold k0.
        apply fm_incr_In in H; [|exact Hnd].
        destruct H as [[Hne H]|(-> & v' & H & ->)].
        -- replace (bytes_eqb k0 k) with false
             by (symmetry; apply bytes_eqb_neq; congruence).
           rewrite Nat.add_0_r. apply (Hvals _ _ H).
        -- rewrite bytes_eqb_refl. cbn. destruct (Hvals _ _ H) as [_ ->]. lia.
    + (* a new key *)
      assert (Hnew : ~ In k0 (map fst m)).
      { intros Hin. apply fm_mem_In in Hin. congruence. }
      repeat split.
      * rewrite map_app. cbn. apply NoDup_app. repeat split; [exact Hnd | | apply NoDup_singleton].
        intros x Hx Hx'. apply list_elem_of_In in Hx. apply list_elem_of_In in Hx'.
        cbn in Hx'. destruct Hx' as [<-|[]]. tauto.
      * rewrite !map_app, !in_app_iff, Hkeys. cbn. tauto.
      * rewrite !map_app, !in_app_iff, Hkeys. cbn. tauto.
      * apply in_app_iff in H. destruct H as [H|[[= <- <-]|[]]]; [apply (Hvals _ _ H)|].
        reflexivity.
      * rewrite packets_of_snoc. fold k0.
        apply in_app_iff in H. destruct H as [H|[[= <- <-]|[]]].
        -- replace (bytes_eqb k0 k) with false.
           ++ rewrite Nat.add_0_r. apply (Hvals _ _ H).
           ++ symmetry. apply bytes_eqb_neq. intros ->. apply Hnew.
              apply (in_map fst) in H. exact H.
        -- rewrite bytes_eqb_refl. cbn. rewrite packets_of_0; [reflexivity|].
           rewrite <- Hkeys. exact Hnew.
Qed.

End Sharder.

(** ** Examples: a small capture *)

Definition bytes_of (l : list Z) : list byte := map byte_of_Z l.

Definition ex_global_hdr : list byte :=
  bytes_of [0xd4; 0xc3; 0xb2; 0xa1; 2; 0; 4; 0; 0; 0; 0; 0; 0; 0; 0; 0;
            0xff; 0xff; 0; 0; 1; 0; 0; 0]%Z.

(** An Ethernet frame with an IPv4 header of 20 bytes and [l4] after it. *)
Definition ex_ipv4 (proto : Z) (src dst l4 : list Z) : list byte :=
  bytes_of ([0; 0; 0; 0; 0; 1; 0; 0; 0; 0; 0; 2; 8; 0]
            ++ [0x45; 0; 0; 24; 0; 0; 0; 0; 64; proto; 0; 0] ++ src ++ dst
            ++ l4)%Z.

Definition ex_record (pkt : list byte) : list byte :=
  bytes_of [1; 0; 0; 0; 0; 0; 0; 0; Z.of_nat (length pkt); 0; 0; 0;
            Z.of_nat (length pkt); 0; 0; 0]%Z ++ pkt.

(** 10.0.0.1:1234 -> 10.0.0.2:80 and 10.0.0.3:5555 -> 10.0.0.2:443, TCP. *)
Definition ex_pkt_a : list byte :=
  ex_ipv4 6 [10; 0; 0; 1]%Z [10; 0; 0; 2]%Z [4; 210; 0; 80]%Z.

Definition ex_pkt_b : list byte :=
  ex_ipv4 6 [10; 0; 0; 3]%Z [10; 0; 0; 2]%Z [21; 179; 1; 187]%Z.

(** Three records and the start of a fourth that declares 100 bytes. *)
Definition ex_capture : list byte :=
  ex_global_hdr ++ ex_record ex_pkt_a ++ ex_record ex_pkt_b
  ++ ex_record ex_pkt_a
  ++ bytes_of [2; 0; 0; 0; 0; 0; 0; 0; 100; 0; 0; 0; 100; 0; 0; 0; 1; 2; 3]%Z.

(** A TCP packet that ends with its IPv4 header. *)
Definition ex_pkt_short : list byte :=
  ex_ipv4 6 [1; 2; 3; 4]%Z [5; 6; 7; 8]%Z [].

Example ex_capture_shards :
  option_map SplitPcap.shards
    (match SplitPcap.split_pcap_flowhash ex_capture 2 with
     | Ok out => Some out
     | Raise _ => None
     end)
  = Some [ex_global_hdr ++ ex_record ex_pkt_a ++ ex_record ex_pkt_a;
          ex_global_hdr ++ ex_record ex_pkt_b].
Proof. vm_compute. reflexivity. Qed.

Example ex_capture_map :
  option_map (fun out => string_of_list_ascii (SplitPcap.worker_map out))
    (match SplitPcap.split_pcap_flowhash ex_capture 2 with
     | Ok out => Some out
     | Raise _ => None
     end)
  = Some (string_of_list_ascii
      (s2l "#separator " ++ [TAB; LF]
       ++ s2l "#set_separator ," ++ [LF]
       ++ s2l "#empty_field (empty)" ++ [LF]
       ++ s2l "#unset_field -" ++ [LF]
       ++ s2l "#path worker_map" ++ [LF]
       ++ s2l "#open 0" ++ [LF]
       ++ join [TAB] (s2l "#fields" :: SplitPcap.worker_map_fields) ++ [LF]
       ++ join [TAB] (s2l "#types" :: SplitPcap.worker_map_types) ++ [LF]
       ++ join [TAB] (map s2l ["1"; "4"; "10.0.0.1"; "1234"; "10.0.0.2"; "80";
                               "6"; "2"]%string) ++ [LF]
       ++ join [TAB] (map s2l ["2"; "4"; "10.0.0.3"; "5555"; "10.0.0.2"; "443";
                               "6"; "1"]%string) ++ [LF]
       ++ s2l "#close 0" ++ [LF])).
Proof. vm_compute. reflexivity. Qed.

(** ** The sharder: claims *)

Section SharderClaims.

Import SplitPcap.

Lemma framed_unique (body : list byte) (rs : list record) :
  forall rs' tail tail',
    framed body rs tail -> framed body rs' tail' -> rs = rs' /\ tail = tail'.
Proof.
  revert body. induction rs as [|[h p] rs IH]; intros body rs' tail tail'.
  - intros (-> & _ & Ht) (Hb & Hrs' & _). cbn [map concat app] in *.
    destruct rs' as [|[h' p'] rs']; [cbn in Hb; auto|].
    exfalso. apply Forall_cons_1 in Hrs'. destruct Hrs' as [[Hh Hp] _].
    cbn [fst snd] in Hh, Hp. cbn [map concat] in Hb.
    change (rec_bytes (h', p')) with (h' ++ p') in Hb. rewrite <- !app_assoc in Hb.
    assert (Hf : firstn 16 tail = h') by (rewrite Hb, <- Hh; apply take_app_length).
    assert (Hl : length tail = 16 + length p' + length (concat (map rec_bytes rs') ++ tail')).
    { rewrite Hb at 1. rewrite !length_app. lia. }
    destruct Ht as [Ht|Ht]; [lia|]. rewrite Hf, <- Hp in Ht. lia.
  - intros (Hb & Hrs & Ht) (Hb' & Hrs' & Ht').
    apply Forall_cons_1 in Hrs. destruct Hrs as [[Hh Hp] Hrs]. cbn [fst snd] in Hh, Hp.
    cbn [map concat] in Hb. change (rec_bytes (h, p)) with (h ++ p) in Hb.
    rewrite <- !app_assoc in Hb.
    assert (Hf : firstn 16 body = h) by (rewrite Hb, <- Hh; apply take_app_length).
    destruct rs' as [|[h' p'] rs'].
    + exfalso. cbn [map concat app] in Hb'. subst tail'.
      assert (Hl : length body = 16 + length p + length (concat (map rec_bytes rs) ++ tail)).
      { rewrite Hb at 1. rewrite !length_app. lia. }
      destruct Ht' as [Ht'|Ht']; [lia|]. rewrite Hf, <- Hp in Ht'. lia.
    + apply Forall_cons_1 in Hrs'. destruct Hrs' as [[Hh' Hp'] Hrs'].
      cbn [fst snd] in Hh', Hp'. cbn [map concat] in Hb'.
      change (rec_bytes (h', p')) with (h' ++ p') in Hb'. rewrite <- !app_assoc in Hb'.
      assert (Hf' : firstn 16 body = h') by (rewrite Hb', <- Hh'; apply take_app_length).
      rewrite Hf in Hf'. subst h'.
      assert (Hpp : p' = p).
      { assert (Hd : skipn 16 body = p ++ concat (map rec_bytes rs) ++ tail)
          by (rewrite Hb, <- Hh; apply drop_app_length).
        assert (Hd' : skipn 16 body = p' ++ concat (map rec_bytes rs') ++ tail')
          by (rewrite Hb', <- Hh; apply drop_app_length).
        assert (H1 : firstn (incl_len h) (skipn 16 body) = p)
          by (rewrite Hd, <- Hp; apply take_app_length).
        assert (H2 : firstn (incl_len h) (skipn 16 body) = p')
          by (rewrite Hd', <- Hp'; apply take_app_length).
        congruence. }
      subst p'.
      destruct (IH (concat (map rec_bytes rs) ++ tail) rs' tail tail') as [-> ->].
      * repeat split; assumption.
      * repeat split; try assumption.
        rewrite Hb in Hb'. apply app_inv_head in Hb'. apply app_inv_head in Hb'.
        exact Hb'.
      * split; reflexivity.
Qed.

(** C1.  For a worker count [workers >= 1] the shard of a packet is
    [int(sha1(key)[:8], big-endian) mod workers], numbered from 1: shard [i]
    receives, after the global header, exactly the records whose key hashes
    to [i], so two records with one key are in the same file; and the shard
    map is the sorted list of one row per distinct key, carrying that shard
    number and the number of records with the key.  The run is a function
    of the capture and [workers]. *)
Theorem shard_is_function_of_key (data : list byte) (workers : Z) :
  (1 <= workers)%Z -> 24 <= length data ->
  exists out rs tail m,
    split_pcap_flowhash data workers = Ok out
    /\ framed (skipn 24 data) rs tail
    /\ (forall i, i < Z.to_nat workers ->
          shards out !! i
          = Some (firstn 24 data
                  ++ concat (map rec_bytes
                       (List.filter
                          (fun r => Z.to_nat
                             (int_from_bytes_big
                                (firstn 8 (Sha1.digest (flow_key (snd r))))
                              mod workers) =? i) rs))))
    /\ (forall r1 r2 i, flow_key (snd r1) = flow_key (snd r2) ->
          on_shard workers i r1 = on_shard workers i r2)
    /\ worker_map out
       = write_worker_map_log (py_sort key_lt row_key (map snd m))
    /\ NoDup (map fst m)
    /\ (forall k, In k (map fst m) <-> exists r, In r rs /\ flow_key (snd r) = k)
    /\ (forall k v, In (k, v) m ->
          Flow.worker v
          = (int_from_bytes_big (firstn 8 (Sha1.digest k)) mod workers + 1)%Z
          /\ (1 <= Flow.worker v <= workers)%Z
          /\ Flow.pkt_count v = Z.of_nat (packets_of k rs)).
Proof.
  intros Hw Hlen. destruct (framing_exists (skipn 24 data)) as (rs & tail & Hf).
  eexists _, rs, tail, (account workers rs []).
  split; [apply (split_framed data workers rs tail Hw Hlen Hf)|].
  split; [exact Hf|]. cbn [shards worker_map].
  destruct (account_spec workers rs) as (Hnd & Hkeys & Hvals).
  repeat split.
  - intros i Hi. rewrite lookup_deliver, lookup_replicate_2 by exact Hi. reflexivity.
  - intros r1 r2 i Hk. unfold on_shard. rewrite Hk. reflexivity.
  - exact Hnd.
  - intros Hin. apply Hkeys in Hin. apply in_map_iff in Hin.
    destruct Hin as (r & <- & Hr). eauto.
  - intros (r & Hr & <-). apply Hkeys. apply in_map_iff. eauto.
  - apply (Hvals _ _ H).
  - destruct (Hvals _ _ H) as [-> _]. unfold shard_index.
    pose proof (Z.mod_pos_bound (_hash_key k) workers ltac:(lia)). lia.
  - destruct (Hvals _ _ H) as [-> _]. unfold shard_index.
    pose proof (Z.mod_pos_bound (_hash_key k) workers ltac:(lia)). lia.
  - apply (Hvals _ _ H).
Qed.

Lemma shard_is_function_of_key_witness :
  exists out rs tail m,
    split_pcap_flowhash ex_capture 2 = Ok out
    /\ framed (skipn 24 ex_capture) rs tail
    /\ (forall i, i < Z.to_nat 2 ->
          shards out !! i
          = Some (firstn 24 ex_capture
                  ++ concat (map rec_bytes
                       (List.filter
                          (fun r => Z.to_nat
                             (int_from_bytes_big
                                (firstn 8 (Sha1.digest (flow_key (snd r))))
                              mod 2) =? i) rs))))
    /\ (forall r1 r2 i, flow_key (snd r1) = flow_key (snd r2) ->
          on_shard 2 i r1 = on_shard 2 i r2)
    /\ worker_map out
       = write_worker_map_log (py_sort key_lt row_key (map snd m))
    /\ NoDup (map fst m)
    /\ (forall k, In k (map fst m) <-> exists r, In r rs /\ flow_key (snd r) = k)
    /\ (forall k v, In (k, v) m ->
          Flow.worker v
          = (int_from_bytes_big (firstn 8 (Sha1.digest k)) mod 2 + 1)%Z
          /\ (1 <= Flow.worker v <= 2)%Z
          /\ Flow.pkt_count v = Z.of_nat (packets_of k rs)).
Proof.
  apply (shard_is_function_of_key ex_capture 2); [lia | simpl; lia].
Defined.

(** C2.  For a capture of at least 24 bytes (and at least one worker) the
    body splits in one way into complete records and a truncated rest;
    every record belongs to exactly one shard, and shard [i] holds the
    global header followed by the bytes of its records, unchanged and in
    their order in the capture. *)
Theorem every_record_in_one_shard (data : list byte) (workers : Z) :
  24 <= length data -> (1 <= workers)%Z ->
  exists out rs tail,
    split_pcap_flowhash data workers = Ok out
    /\ framed (skipn 24 data) rs tail
    /\ (forall rs' tail', framed (skipn 24 data) rs' tail' -> rs' = rs /\ tail' = tail)
    /\ length (shards out) = Z.to_nat workers
    /\ (forall r, In r rs ->
          exists i, i < Z.to_nat workers
                    /\ forall j, on_shard workers j r = true <-> j = i)
    /\ (forall i, i < Z.to_nat workers ->
          shards out !! i
          = Some (firstn 24 data
                  ++ concat (map rec_bytes (List.filter (on_shard workers i) rs)))).
Proof.
  intros Hlen Hw. destruct (framing_exists (skipn 24 data)) as (rs & tail & Hf).
  eexists _, rs, tail.
  split; [apply (split_framed data workers rs tail Hw Hlen Hf)|].
  split; [exact Hf|]. cbn [shards]. repeat split.
  - destruct (framed_unique _ _ _ _ _ H Hf); assumption.
  - destruct (framed_unique _ _ _ _ _ H Hf); assumption.
  - rewrite length_deliver. apply length_replicate.
  - intros r _. exists (Z.to_nat (shard_index workers (flow_key (snd r)))). split.
    + unfold shard_index.
      pose proof (Z.mod_pos_bound (_hash_key (flow_key (snd r))) workers ltac:(lia)).
      lia.
    + intros j. unfold on_shard. rewrite Nat.eqb_eq. split; congruence.
  - intros i Hi. rewrite lookup_deliver, lookup_replicate_2 by exact Hi. reflexivity.
Qed.

Lemma every_record_in_one_shard_witness :
  exists out rs tail,
    split_pcap_flowhash ex_capture 2 = Ok out
    /\ framed (skipn 24 ex_capture) rs tail
    /\ (forall rs' tail', framed (skipn 24 ex_capture) rs' tail' ->
          rs' = rs /\ tail' = tail)
    /\ length (shards out) = Z.to_nat 2
    /\ (forall r, In r rs ->
          exists i, i < Z.to_nat 2 /\ forall j, on_shard 2 j r = true <-> j = i)
    /\ (forall i, i < Z.to_nat 2 ->
          shards out !! i
          = Some (firstn 24 ex_capture
                  ++ concat (map rec_bytes (List.filter (on_shard 2 i) rs)))).
Proof.
  apply (every_record_in_one_shard ex_capture 2); [simpl; lia | lia].
Defined.

End SharderClaims.

Section SharderErrors.

Import SplitPcap.

(** C3.  With at least one worker, [split_pcap_flowhash] raises exactly when
    the capture is shorter than the 24-byte global header (and then it
    raises [ValueError]).  A truncated last record is dropped without an
    error: the run on the capture equals the run on the capture without it.
    Classification of a packet never raises. *)
Theorem split_raises_only_on_short_capture (data : list byte) (workers : Z) :
  (1 <= workers)%Z ->
  (length data < 24 -> split_pcap_flowhash data workers = Raise ValueError)
  /\ (24 <= length data -> exists out, split_pcap_flowhash data workers = Ok out)
  /\ (forall hdr rs tail,
        data = hdr ++ concat (map rec_bytes rs) ++ tail ->
        length hdr = 24 -> Forall complete rs -> truncated tail ->
        split_pcap_flowhash data workers
        = split_pcap_flowhash (hdr ++ concat (map rec_bytes rs)) workers)
  /\ (forall pkt, exists key rep, tuple_for_packet pkt = Ok (key, rep)).
Proof.
  intros Hw. repeat split.
  - intros Hlen. unfold split_pcap_flowhash, PCAP_GLOBAL_HDR_LEN.
    replace (length data <? 24) with true by (symmetry; apply Nat.ltb_lt; lia).
    reflexivity.
  - intros Hlen. destruct (framing_exists (skipn 24 data)) as (rs & tail & Hf).
    eexists. apply (split_framed data workers rs tail Hw Hlen Hf).
  - intros hdr rs tail -> Hhdr Hrs Ht.
    rewrite (split_framed _ workers rs tail Hw).
    + rewrite (split_framed (hdr ++ concat (map rec_bytes rs)) workers rs [] Hw).
      * rewrite <- Hhdr, !take_app_length. reflexivity.
      * rewrite length_app. lia.
      * rewrite <- Hhdr, drop_app_length. repeat split; [|exact Hrs|left; cbn; lia].
        symmetry. apply app_nil_r.
    + rewrite length_app. lia.
    + rewrite <- Hhdr, drop_app_length. repeat split; assumption.
  - apply tuple_for_packet_ok.
Qed.

Lemma split_raises_only_on_short_capture_witness :
  (length ex_capture < 24 -> split_pcap_flowhash ex_capture 2 = Raise ValueError)
  /\ (24 <= length ex_capture -> exists out, split_pcap_flowhash ex_capture 2 = Ok out)
  /\ (forall hdr rs tail,
        ex_capture = hdr ++ concat (map rec_bytes rs) ++ tail ->
        length hdr = 24 -> Forall complete rs -> truncated tail ->
        split_pcap_flowhash ex_capture 2
        = split_pcap_flowhash (hdr ++ concat (map rec_bytes rs)) 2)
  /\ (forall pkt, exists key rep, tuple_for_packet pkt = Ok (key, rep)).
Proof.
  apply (split_raises_only_on_short_capture ex_capture 2). lia.
Defined.

(** The capture [ex_capture] ends in a truncated record: the run ignores it. *)
Example ex_capture_truncated_tail :
  split_pcap_flowhash ex_capture 2
  = split_pcap_flowhash
      (ex_global_hdr ++ ex_record ex_pkt_a ++ ex_record ex_pkt_b
       ++ ex_record ex_pkt_a) 2.
Proof. vm_compute. reflexivity. Qed.

(** A capture of 23 bytes is refused, one of 24 bytes is not. *)
Example ex_capture_too_small :
  split_pcap_flowhash (firstn 23 ex_capture) 2 = Raise ValueError
  /\ is_ok (split_pcap_flowhash (firstn 24 ex_capture) 2) = true.
Proof. split; vm_compute; reflexivity. Qed.

(** Outside the claim: with no worker the first record divides by zero. *)
Example ex_capture_no_worker :
  split_pcap_flowhash ex_capture 0 = Raise ZeroDivisionError.
Proof. vm_compute. reflexivity. Qed.

(** C4, as the claim states it, fails: [ex_pkt_short] is an IPv4 TCP packet
    (ether-type 0x0800, version 4, header length 20 within the 20 bytes
    present, protocol 6) with no byte after the IP header, and it is given
    the fallback key and tuple, not an IPv4 key with ports 0. *)
Lemma short_tcp_gets_fallback_key :
  int_from_bytes_big (slice ex_pkt_short 12 14) = 0x0800%Z
  /\ (exists b0 p,
        nth_error (skipn 14 ex_pkt_short) 0 = Some b0
        /\ Z.shiftr (byte_val b0) 4 = 4%Z
        /\ (Z.land (byte_val b0) 15 * 4 <= Z.of_nat (length (skipn 14 ex_pkt_short)))%Z
        /\ nth_error (skipn 14 ex_pkt_short) 9 = Some p
        /\ byte_val p = 6%Z
        /\ (Z.of_nat (length (skipn 14 ex_pkt_short))
            < Z.land (byte_val b0) 15 * 4 + 4)%Z)
  /\ tuple_for_packet ex_pkt_short
     = Ok ([x58] ++ ex_pkt_short, Rep.mk 0 (s2l "-") (s2l "-") 0 0 0)
  /\ tuple_for_packet ex_pkt_short
     <> Ok ([x34] ++ bytes_of [1; 2; 3; 4; 5; 6; 7; 8; 0; 0; 0; 0; 6]%Z,
            Rep.mk 4 (s2l "1.2.3.4") (s2l "5.6.7.8") 0 0 6).
Proof.
  split; [vm_compute; reflexivity|]. split.
  - exists x45, x06. vm_compute. repeat split; discriminate.
  - split; [vm_compute; reflexivity|]. vm_compute. discriminate.
Qed.

(** C4, amended.  An IPv4 packet (ether-type 0x0800, version 4, the declared
    header length present) whose protocol is TCP or UDP and which has fewer
    than 4 bytes after the IP header is classified by the fallback: key
    [X] followed by the first 64 bytes of the packet, and the placeholder
    tuple. *)
Theorem short_l4_falls_back (pkt : list byte) (b0 p : byte) :
  int_from_bytes_big (slice pkt 12 14) = 0x0800%Z ->
  nth_error (skipn 14 pkt) 0 = Some b0 ->
  Z.shiftr (byte_val b0) 4 = 4%Z ->
  (Z.land (byte_val b0) 15 * 4 <= Z.of_nat (length (skipn 14 pkt)))%Z ->
  nth_error (skipn 14 pkt) 9 = Some p ->
  is_tcp_udp (byte_val p) = true ->
  (Z.of_nat (length (skipn 14 pkt)) < Z.land (byte_val b0) 15 * 4 + 4)%Z ->
  tuple_for_packet pkt = Ok ([x58] ++ firstn 64 pkt, fallback_rep).
Proof.
  intros Heth Hb0 Hver Hihl Hp Hproto Hshort.
  assert (H4 : _ipv4_tuple pkt = Ok None).
  { unfold _ipv4_tuple. destruct (length pkt <? 14 + 20); [reflexivity|].
    rewrite Heth. cbn [Z.eqb Pos.eqb negb]. unfold index. rewrite Hb0. cbn [rbind].
    rewrite Hver. cbn [Z.eqb Pos.eqb negb].
    change 0x0F%Z with 15%Z.
    destruct (_ <? _)%Z; [reflexivity|]. rewrite Hp. cbn [rbind]. rewrite Hproto.
    replace (Z.of_nat (length (skipn 14 pkt)) <? Z.land (byte_val b0) 15 * 4 + 4)%Z
      with true by (symmetry; apply Z.ltb_lt; exact Hshort).
    reflexivity. }
  assert (H6 : _ipv6_tuple pkt = Ok None).
  { unfold _ipv6_tuple. destruct (length pkt <? 14 + 40); [reflexivity|].
    rewrite Heth. reflexivity. }
  unfold tuple_for_packet. rewrite H4. cbn [rbind]. rewrite H6. reflexivity.
Qed.

Lemma short_l4_falls_back_witness :
  tuple_for_packet ex_pkt_short = Ok ([x58] ++ firstn 64 ex_pkt_short, fallback_rep).
Proof.
  apply (short_l4_falls_back ex_pkt_short x45 x06);
    vm_compute; first [reflexivity | discriminate].
Defined.

End SharderErrors.

(** ** The sort on keys that [<] orders *)

Section SortFacts.

Context {A K : Type} (lt : K -> K -> bool) (key : A -> K).

(** The keys on which [<] is a strict weak order. *)
Variable ordered : K -> Prop.

Hypothesis lt_irrefl : forall a, ordered a -> lt a a = false.
Hypothesis lt_trans : forall a b c,
  ordered a -> ordered b -> ordered c ->
  lt a b = true -> lt b c = true -> lt a c = true.
Hypothesis ge_trans : forall a b c,
  ordered a -> ordered b -> ordered c ->
  lt a b = false -> lt b c = false -> lt a c = false.

(** [x] does not come after [y]. *)
Definition not_after (x y : A) : Prop := lt (key y) (key x) = false.

Lemma insert_rev_perm (x : A) (racc : list A) :
  Permutation (x :: racc) (insert_rev lt key x racc).
Proof.
  induction racc as [|y racc IH]; cbn; [reflexivity|].
  destruct (lt (key x) (key y)); [|reflexivity].
  rewrite perm_swap. apply perm_skip. exact IH.
Qed.

Lemma py_sort_perm (l : list A) : Permutation l (py_sort lt key l).
Proof.
  unfold py_sort. rewrite <- Permutation_rev.
  assert (H : forall racc, Permutation (rev l ++ racc)
                             (fold_left (fun r x => insert_rev lt key x r) l racc)).
  { induction l as [|x l IH]; intros racc; cbn [fold_left rev]; [reflexivity|].
    rewrite <- IH, <- app_assoc. cbn [app].
    apply Permutation_app_head. apply insert_rev_perm. }
  specialize (H []). rewrite app_nil_r in H.
  rewrite <- H. apply Permutation_rev.
Qed.

Lemma lt_asym (a b : K) :
  ordered a -> ordered b -> lt a b = true -> lt b a = false.
Proof.
  intros Ha Hb Hab. destruct (lt b a) eqn:Hba; [|reflexivity].
  rewrite <- (lt_irrefl a Ha). symmetry. apply (lt_trans a b a); assumption.
Qed.

Lemma insert_rev_In (x y : A) (racc : list A) :
  In y (insert_rev lt key x racc) <-> y = x \/ In y racc.
Proof.
  induction racc as [|z racc IH]; cbn; [intuition|].
  destruct (lt (key x) (key z)); cbn; [rewrite IH|]; intuition.
Qed.

(** The sorted prefix, reversed: nothing comes after what stands before
    it in the list. *)
Lemma insert_rev_sorted (x : A) (racc : list A) :
  ordered (key x) -> Forall (fun y => ordered (key y)) racc ->
  StronglySorted (fun a b => not_after b a) racc ->
  StronglySorted (fun a b => not_after b a) (insert_rev lt key x racc).
Proof.
  intros Hx Hord Hs. induction Hs as [|y racc Hs IH Hy]; cbn.
  - repeat constructor.
  - apply Forall_cons_1 in Hord. destruct Hord as [Hoy Hord].
    destruct (lt (key x) (key y)) eqn:Hxy.
    + constructor; [apply IH; exact Hord|].
      apply List.Forall_forall. intros z Hz. apply insert_rev_In in Hz.
      destruct Hz as [->|Hz].
      * unfold not_after. apply lt_asym; assumption.
      * rewrite List.Forall_forall in Hy. apply Hy. exact Hz.
    + constructor; [constructor; assumption|].
      constructor; [exact Hxy|].
      apply List.Forall_forall. intros z Hz. unfold not_after.
      rewrite List.Forall_forall in Hy, Hord. specialize (Hy z Hz). unfold not_after in Hy.
      apply (ge_trans _ (key y)); auto.
Qed.

Lemma fold_insert_sorted (l : list A) :
  forall racc,
    Forall (fun y => ordered (key y)) l ->
    Forall (fun y => ordered (key y)) racc ->
    StronglySorted (fun a b => not_after b a) racc ->
    StronglySorted (fun a b => not_after b a)
                   (fold_left (fun r x => insert_rev lt key x r) l racc).
Proof.
  induction l as [|x l IH]; intros racc Hl Hr Hs; cbn [fold_left]; [exact Hs|].
  apply Forall_cons_1 in Hl. destruct Hl as [Hx Hl].
  apply IH; [exact Hl | | apply insert_rev_sorted; assumption].
  apply List.Forall_forall. intros z Hz. apply insert_rev_In in Hz.
  destruct Hz as [->|Hz]; [exact Hx|]. rewrite List.Forall_forall in Hr. auto.
Qed.

Lemma StronglySorted_rev_flip (R : A -> A -> Prop) (l : list A) :
  StronglySorted (fun a b => R b a) l -> StronglySorted R (rev l).
Proof.
  induction 1 as [|x l Hs IH Hx]; cbn; [constructor|].
  apply StronglySorted_app. split; [|split; [exact IH | repeat constructor]].
  intros a b Ha Hb. apply list_elem_of_In in Ha. apply in_rev in Ha.
  apply list_elem_of_In in Hb. cbn in Hb. destruct Hb as [<-|[]].
  rewrite List.Forall_forall in Hx. auto.
Qed.

(** The result is in non-decreasing order of the keys. *)
Lemma py_sort_sorted (l : list A) :
  Forall (fun y => ordered (key y)) l ->
  StronglySorted not_after (py_sort lt key l).
Proof.
  intros Hl. unfold py_sort. apply StronglySorted_rev_flip.
  apply fold_insert_sorted; [exact Hl | constructor | constructor].
Qed.

(** Stability: the rows whose key is equivalent to [k] keep their order. *)
Definition same_key (k : K) (x : A) : bool :=
  negb (lt (key x) k) && negb (lt k (key x)).

Lemma insert_rev_filter (k : K) (x : A) (racc : list A) :
  ordered k -> ordered (key x) -> Forall (fun y => ordered (key y)) racc ->
  List.filter (same_key k) (insert_rev lt key x racc)
  = List.filter (same_key k) (x :: racc).
Proof.
  intros Hk Hx Hr. induction racc as [|y racc IH]; [reflexivity|].
  apply Forall_cons_1 in Hr. destruct Hr as [Hy Hr].
  cbn [insert_rev]. destruct (lt (key x) (key y)) eqn:Hxy; [|reflexivity].
  cbn [List.filter] in *. rewrite (IH Hr).
  destruct (same_key k x) eqn:Ex; [|reflexivity].
  destruct (same_key k y) eqn:Ey; [|reflexivity].
  exfalso. unfold same_key in Ex, Ey.
  apply andb_true_iff in Ex. destruct Ex as [Ex1 Ex2].
  apply andb_true_iff in Ey. destruct Ey as [Ey1 Ey2].
  apply negb_true_iff in Ex1, Ex2, Ey1, Ey2.
  pose proof (ge_trans (key x) k (key y) Hx Hk Hy Ex1 Ey2). congruence.
Qed.

Lemma py_sort_stable (k : K) (l : list A) :
  ordered k -> Forall (fun y => ordered (key y)) l ->
  List.filter (same_key k) (py_sort lt key l) = List.filter (same_key k) l.
Proof.
  intros Hk Hl. unfold py_sort. rewrite List.filter_rev.
  assert (H : forall racc, Forall (fun y => ordered (key y)) racc ->
            List.filter (same_key k) (fold_left (fun r x => insert_rev lt key x r) l racc)
            = rev (List.filter (same_key k) l) ++ List.filter (same_key k) racc).
  { induction l as [|x l IH]; intros racc Hr; cbn [fold_left]; [reflexivity|].
    apply Forall_cons_1 in Hl. destruct Hl as [Hx Hl].
    rewrite (IH Hl).
    - rewrite insert_rev_filter by assumption. cbn [List.filter].
      destruct (same_key k x); [|reflexivity].
      cbn [rev]. rewrite <- app_assoc. reflexivity.
    - apply List.Forall_forall. intros z Hz. apply insert_rev_In in Hz.
      destruct Hz as [->|Hz]; [exact Hx|]. rewrite List.Forall_forall in Hr. auto. }
  rewrite (H [] ltac:(constructor)). cbn [List.filter]. rewrite app_nil_r.
  apply rev_involutive.
Qed.

End SortFacts.

(** ** The order of floating-point numbers *)

Section FloatOrder.

Definition not_nan (f : spec_float) : Prop := f <> S754_nan.

(** A number as a triple that orders lexicographically as [<] does. *)
Definition rank (f : spec_float) : Z * Z * Z :=
  match f with
  | S754_zero _ => (0, 0, 0)
  | S754_infinity s => (if s then -2 else 2, 0, 0)
  | S754_nan => (0, 0, 0)
  | S754_finite s m e => if s then (-1, - e, - Z.pos m) else (1, e, Z.pos m)
  end%Z.

Definition lex3_lt (a b : Z * Z * Z) : bool :=
  let '(a1, a2, a3) := a in
  let '(b1, b2, b3) := b in
  ((a1 <? b1) || ((a1 =? b1) && ((a2 <? b2) || ((a2 =? b2) && (a3 <? b3)))))%Z.

Lemma lex3_lt_spec (a1 a2 a3 b1 b2 b3 : Z) :
  lex3_lt (a1, a2, a3) (b1, b2, b3) = true
  <-> (a1 < b1 \/ (a1 = b1 /\ (a2 < b2 \/ (a2 = b2 /\ a3 < b3))))%Z.
Proof.
  unfold lex3_lt.
  rewrite !orb_true_iff, !andb_true_iff, !orb_true_iff, !andb_true_iff,
    !Z.ltb_lt, !Z.eqb_eq.
  reflexivity.
Qed.

Lemma lex3_lt_false (a1 a2 a3 b1 b2 b3 : Z) :
  lex3_lt (a1, a2, a3) (b1, b2, b3) = false
  <-> ~ (a1 < b1 \/ (a1 = b1 /\ (a2 < b2 \/ (a2 = b2 /\ a3 < b3))))%Z.
Proof. rewrite <- lex3_lt_spec. symmetry. apply not_true_iff_false. Qed.

Lemma SFltb_rank (a b : spec_float) :
  not_nan a -> not_nan b -> SFltb a b = lex3_lt (rank a) (rank b).
Proof.
  unfold not_nan, SFltb.
  destruct a as [sa|sa| |sa ma ea], b as [sb|sb| |sb mb eb]; intros Ha Hb;
    try congruence; cbn [SFcompare rank lex3_lt];
    try (destruct sa; reflexivity); try (destruct sb; reflexivity);
    try (destruct sa, sb; reflexivity).
  change (PosDef.Pos.compare_cont Eq ma mb) with (Pos.compare ma mb).
  destruct sa, sb; try reflexivity;
    destruct (Z.compare_spec ea eb); destruct (Pos.compare_spec ma mb);
    cbn [CompOpp]; symmetry;
    first [ apply lex3_lt_spec; lia | apply lex3_lt_false; lia ].
Qed.

Lemma lex3_irrefl (a : Z * Z * Z) : lex3_lt a a = false.
Proof. destruct a as [[a1 a2] a3]. apply lex3_lt_false. lia. Qed.

Lemma lex3_trans (a b c : Z * Z * Z) :
  lex3_lt a b = true -> lex3_lt b c = true -> lex3_lt a c = true.
Proof.
  destruct a as [[a1 a2] a3], b as [[b1 b2] b3], c as [[c1 c2] c3].
  rewrite !lex3_lt_spec. lia.
Qed.

Lemma lex3_ge_trans (a b c : Z * Z * Z) :
  lex3_lt a b = false -> lex3_lt b c = false -> lex3_lt a c = false.
Proof.
  destruct a as [[a1 a2] a3], b as [[b1 b2] b3], c as [[c1 c2] c3].
  rewrite !lex3_lt_false. lia.
Qed.

Lemma SFltb_irrefl (a : spec_float) : not_nan a -> SFltb a a = false.
Proof. intros Ha. rewrite SFltb_rank by assumption. apply lex3_irrefl. Qed.

Lemma SFltb_trans (a b c : spec_float) :
  not_nan a -> not_nan b -> not_nan c ->
  SFltb a b = true -> SFltb b c = true -> SFltb a c = true.
Proof.
  intros Ha Hb Hc. rewrite !SFltb_rank by assumption. apply lex3_trans.
Qed.

Lemma SFltb_ge_trans (a b c : spec_float) :
  not_nan a -> not_nan b -> not_nan c ->
  SFltb a b = false -> SFltb b c = false -> SFltb a c = false.
Proof.
  intros Ha Hb Hc. rewrite !SFltb_rank by assumption. apply lex3_ge_trans.
Qed.

(** Away from NaN, [a <= b] says that [b < a] fails. *)
Lemma SFleb_not_lt (a b : spec_float) :
  not_nan a -> not_nan b -> SFleb a b = negb (SFltb b a).
Proof.
  unfold not_nan, SFleb, SFltb.
  destruct a as [sa|sa| |sa ma ea], b as [sb|sb| |sb mb eb]; intros Ha Hb;
    try congruence; cbn [SFcompare];
    try (destruct sa; reflexivity); try (destruct sb; reflexivity);
    try (destruct sa, sb; reflexivity).
  change (PosDef.Pos.compare_cont Eq ma mb) with (Pos.compare ma mb).
  change (PosDef.Pos.compare_cont Eq mb ma) with (Pos.compare mb ma).
  rewrite (Z.compare_antisym ea eb), (Pos.compare_antisym ma mb).
  destruct sa, sb; try reflexivity;
    destruct (Z.compare ea eb); destruct (Pos.compare ma mb); reflexivity.
Qed.

(** Away from NaN, [a == b] says that neither is less than the other. *)
Lemma SFeqb_same_key (a b : spec_float) :
  not_nan a -> not_nan b ->
  SFeqb a b = negb (SFltb a b) && negb (SFltb b a).
Proof.
  unfold not_nan, SFeqb, SFltb.
  destruct a as [sa|sa| |sa ma ea], b as [sb|sb| |sb mb eb]; intros Ha Hb;
    try congruence; cbn [SFcompare];
    try (destruct sa; reflexivity); try (destruct sb; reflexivity);
    try (destruct sa, sb; reflexivity).
  change (PosDef.Pos.compare_cont Eq ma mb) with (Pos.compare ma mb).
  change (PosDef.Pos.compare_cont Eq mb ma) with (Pos.compare mb ma).
  rewrite (Z.compare_antisym ea eb), (Pos.compare_antisym ma mb).
  destruct sa, sb; try reflexivity;
    destruct (Z.compare ea eb); destruct (Pos.compare ma mb); reflexivity.
Qed.

End FloatOrder.

(** ** The merger: claims *)

Lemma ascii_eqb_eq (a b : ascii) : ascii_eqb a b = true <-> a = b.
Proof. apply Ascii.eqb_eq. Qed.

Lemma str_eqb_eq (a b : str) : str_eqb a b = true <-> a = b.
Proof.
  revert b. induction a as [|x a IH]; intros [|y b]; cbn; try (split; congruence).
  rewrite andb_true_iff, IH, ascii_eqb_eq. split; [intros [-> ->] | intros [= -> ->]]; auto.
Qed.

Lemma str_eqb_refl (a : str) : str_eqb a a = true.
Proof. apply str_eqb_eq. reflexivity. Qed.

Lemma StronglySorted_weaken {A : Type} (P : A -> Prop) (R R' : A -> A -> Prop)
    (l : list A) :
  (forall a b, P a -> P b -> R a b -> R' a b) ->
  Forall P l -> StronglySorted R l -> StronglySorted R' l.
Proof.
  intros HR Hl Hs. induction Hs as [|x l Hs IH Hx]; [constructor|].
  apply Forall_cons_1 in Hl. destruct Hl as [Px Pl].
  constructor; [apply IH; exact Pl|].
  rewrite List.Forall_forall in *. intros y Hy. apply HR; auto.
Qed.

(** The built-in [float], cut down to two kinds of literal, for examples:
    the word nan and an unsigned run of decimal digits (rounded to the
    nearest binary64 number).  Any other text is refused here, which the
    built-in does not do. *)
Definition digit_val (c : ascii) : option Z :=
  let n := Z.of_N (N_of_ascii c) in
  if ((48 <=? n) && (n <=? 57))%Z then Some (n - 48)%Z else None.

Fixpoint digits_val (acc : Z) (s : str) : option Z :=
  match s with
  | [] => Some acc
  | c :: s' =>
      match digit_val c with
      | Some d => digits_val (acc * 10 + d) s'
      | None => None
      end
  end.

Definition float_lit (s : str) : option spec_float :=
  if str_eqb s (s2l "nan") then Some S754_nan
  else match s with
       | [] => None
       | _ => option_map (fun n => binary_normalize 53 1024 n 0 false)
                         (digits_val 0 s)
       end.

Section MergeClaims.

Import MergeLogs.

Variable float : str -> option spec_float.

Definition header_of (p : str) : list str := fst (fst (_read_zeek_log p)).
Definition fields_of (p : str) : list str := snd (fst (_read_zeek_log p)).
Definition rows_of (p : str) : list (list str) := snd (_read_zeek_log p).

Lemma concat_rows_concat (paths : list str) :
  concat_rows paths = concat (map rows_of paths).
Proof.
  unfold concat_rows.
  assert (H : forall acc,
            fold_left (fun all_rows p =>
                         let '(_, _, rows) := _read_zeek_log p in all_rows ++ rows)
                      paths acc
            = acc ++ concat (map rows_of paths)).
  { induction paths as [|p paths IH]; intros acc; cbn [fold_left map concat].
    - symmetry. apply app_nil_r.
    - rewrite IH. unfold rows_of at 2. destruct (_read_zeek_log p) as [[h f] r].
      cbn [snd]. rewrite <- app_assoc. reflexivity. }
  apply (H []).
Qed.

Lemma index_of_Some (x : str) (l : list str) (i : nat) :
  index_of x l = Some i ->
  nth_error l i = Some x /\ forall j, j < i -> nth_error l j <> Some x.
Proof.
  revert i. induction l as [|y l IH]; intros i; cbn; [discriminate|].
  destruct (str_eqb y x) eqn:E.
  - intros [= <-]. apply str_eqb_eq in E. subst y. split; [reflexivity | lia].
  - destruct (index_of x l) as [i'|]; [|discriminate]. cbn. intros [= <-].
    destruct (IH i' eq_refl) as [Hn Hj]. split; [exact Hn|].
    intros [|j] Hlt; cbn.
    + intros [= ->]. rewrite str_eqb_refl in E. discriminate.
    + apply Hj. lia.
Qed.

Lemma index_of_None (x : str) (l : list str) :
  index_of x l = None <-> ~ In x l.
Proof.
  induction l as [|y l IH]; cbn; [tauto|].
  destruct (str_eqb y x) eqn:E.
  - apply str_eqb_eq in E. split; [discriminate | tauto].
  - assert (Hyx : y <> x) by (intros ->; rewrite str_eqb_refl in E; discriminate).
    split; intros H.
    + assert (Hl : index_of x l = None)
        by (destruct (index_of x l); [discriminate | reflexivity]).
      apply IH in Hl. tauto.
    + assert (Hl : ~ In x l) by tauto.
      apply IH in Hl. rewrite Hl. reflexivity.
Qed.

(** The merge of the files [p0 :: ps] of one log name. *)
Lemma merged_rows_of_files (p0 : str) (ps : list str) :
  let all := concat (map rows_of (p0 :: ps)) in
  (forall ts_i r, _ts_index (fields_of p0) = Some ts_i -> In r all ->
                  _ts_val float ts_i r <> S754_nan) ->
  exists rows,
    merged_rows float (p0 :: ps) = Ok rows
    /\ merge_one float (p0 :: ps)
       = Ok (concat (map (fun h => h ++ [LF]) (header_of p0))
             ++ concat (map (fun r => join [TAB] r ++ [LF]) rows))
    /\ Permutation all rows
    /\ (~ In (s2l "ts") (fields_of p0) -> rows = all)
    /\ (In (s2l "ts") (fields_of p0) ->
        exists ts_i,
          nth_error (fields_of p0) ts_i = Some (s2l "ts")
          /\ (forall j, j < ts_i -> nth_error (fields_of p0) j <> Some (s2l "ts"))
          /\ (forall r, nth_error r ts_i = None
                        \/ (exists v, nth_error r ts_i = Some v /\ float v = None) ->
                        _ts_val float ts_i r = S754_zero false)
          /\ StronglySorted
               (fun r1 r2 => SFleb (_ts_val float ts_i r1) (_ts_val float ts_i r2) = true)
               rows
          /\ forall t, t <> S754_nan ->
               List.filter (fun r => SFeqb (_ts_val float ts_i r) t) rows
               = List.filter (fun r => SFeqb (_ts_val float ts_i r) t) all).
Proof.
  intros all Hnan.
  assert (Hm : merged_rows float (p0 :: ps)
               = Ok (match _ts_index (fields_of p0) with
                     | Some ts_i => py_sort SFltb (_ts_val float ts_i) all
                     | None => all
                     end)).
  { unfold merged_rows, fields_of, all. cbn [index nth_error rbind].
    rewrite concat_rows_concat. destruct (_read_zeek_log p0) as [[h f] r].
    cbn [fst snd]. destruct (_ts_index f); reflexivity. }
  eexists. split; [exact Hm|]. split.
  { unfold merge_one, header_of. cbn [index nth_error rbind]. rewrite Hm.
    destruct (_read_zeek_log p0) as [[h f] r]. reflexivity. }
  unfold _ts_index in *.
  destruct (index_of (s2l "ts") (fields_of p0)) as [ts_i|] eqn:Hts.
  - assert (Hord : Forall (fun r => not_nan (_ts_val float ts_i r)) all).
    { apply List.Forall_forall. intros r Hr. apply (Hnan ts_i r eq_refl Hr). }
    pose proof (py_sort_perm SFltb (_ts_val float ts_i) all) as Hperm.
    split; [exact Hperm|]. split.
    { intros Hno. apply index_of_None in Hno. congruence. }
    intros _. exists ts_i. destruct (index_of_Some _ _ _ Hts) as [Hn Hfirst].
    split; [exact Hn|]. split; [exact Hfirst|]. split; [|split].
    + intros r [Hr|(v & Hr & Hv)]; unfold _ts_val.
      * destruct (length r <=? ts_i); [reflexivity|]. rewrite Hr. reflexivity.
      * destruct (length r <=? ts_i); [reflexivity|]. rewrite Hr, Hv. reflexivity.
    + apply (StronglySorted_weaken (fun r => not_nan (_ts_val float ts_i r))
               (not_after SFltb (_ts_val float ts_i))).
      * intros a b Ha Hb Hab. unfold not_after in Hab.
        rewrite SFleb_not_lt by assumption. rewrite Hab. reflexivity.
      * apply List.Forall_forall. intros r Hr. rewrite List.Forall_forall in Hord.
        apply Hord. apply (Permutation_in _ (Permutation_sym Hperm) Hr).
      * exact (py_sort_sorted SFltb (_ts_val float ts_i) not_nan SFltb_irrefl
                 SFltb_trans SFltb_ge_trans all Hord).
    + intros t Ht.
      rewrite (List.filter_ext_in _ (same_key SFltb (_ts_val float ts_i) t)).
      * rewrite (List.filter_ext_in (fun r => SFeqb (_ts_val float ts_i r) t)
                   (same_key SFltb (_ts_val float ts_i) t) all).
        -- exact (py_sort_stable SFltb (_ts_val float ts_i) not_nan
                    SFltb_ge_trans t all Ht Hord).
        -- intros r Hr. rewrite List.Forall_forall in Hord.
           apply SFeqb_same_key; [apply Hord; exact Hr | exact Ht].
      * intros r Hr. rewrite List.Forall_forall in Hord.
        apply SFeqb_same_key; [|exact Ht].
        apply Hord. apply (Permutation_in _ (Permutation_sym Hperm) Hr).
  - split; [reflexivity|]. split; [reflexivity|].
    intros Hin. apply index_of_None in Hts. contradiction.
Qed.

(** *** Which files are merged, and in which order *)

Lemma str_compare_refl (a : str) : str_compare a a = Eq.
Proof.
  induction a as [|x a IH]; cbn; [reflexivity|]. rewrite N.compare_refl. exact IH.
Qed.

Lemma str_compare_lt_trans (a : str) :
  forall b c, str_compare a b = Lt -> str_compare b c = Lt -> str_compare a c = Lt.
Proof.
  induction a as [|x a IH]; intros [|y b] [|z c]; cbn; try congruence.
  destruct (N.compare_spec (N_of_ascii x) (N_of_ascii y)) as [Hxy|Hxy|Hxy];
    destruct (N.compare_spec (N_of_ascii y) (N_of_ascii z)) as [Hyz|Hyz|Hyz];
    try congruence; intros H1 H2.
  - rewrite Hxy, Hyz, N.compare_refl. eauto.
  - rewrite (proj2 (N.compare_lt_iff _ _)) by lia. reflexivity.
  - rewrite (proj2 (N.compare_lt_iff _ _)) by lia. reflexivity.
  - rewrite (proj2 (N.compare_lt_iff _ _)) by lia. reflexivity.
Qed.

Lemma str_compare_ge_trans (a : str) :
  forall b c, str_compare a b <> Lt -> str_compare b c <> Lt -> str_compare a c <> Lt.
Proof.
  induction a as [|x a IH]; intros [|y b] [|z c]; cbn; try congruence.
  destruct (N.compare_spec (N_of_ascii x) (N_of_ascii y)) as [Hxy|Hxy|Hxy];
    destruct (N.compare_spec (N_of_ascii y) (N_of_ascii z)) as [Hyz|Hyz|Hyz];
    try congruence; intros H1 H2.
  - rewrite Hxy, Hyz, N.compare_refl. eauto.
  - rewrite (proj2 (N.compare_gt_iff _ _)) by lia. discriminate.
  - rewrite (proj2 (N.compare_gt_iff _ _)) by lia. discriminate.
  - rewrite (proj2 (N.compare_gt_iff _ _)) by lia. discriminate.
Qed.

Lemma name_lt_Lt (a b : str) : name_lt a b = true <-> str_compare a b = Lt.
Proof. unfold name_lt. destruct (str_compare a b); split; congruence. Qed.

Lemma name_lt_not_Lt (a b : str) : name_lt a b = false <-> str_compare a b <> Lt.
Proof. unfold name_lt. destruct (str_compare a b); split; congruence. Qed.

(** Entries come out of the sort in non-decreasing order of their names. *)
Lemma sorted_by_name {B : Type} (l : list (str * B)) :
  StronglySorted (fun a b => name_lt (fst b) (fst a) = false)
                 (py_sort name_lt fst l).
Proof.
  apply (py_sort_sorted name_lt fst (fun _ => True)).
  - intros a _. apply name_lt_not_Lt. rewrite str_compare_refl. discriminate.
  - intros a b c _ _ _. rewrite !name_lt_Lt. apply str_compare_lt_trans.
  - intros a b c _ _ _. rewrite !name_lt_not_Lt. apply str_compare_ge_trans.
  - apply List.Forall_forall. intros; exact I.
Qed.

(** The log files in the order the two loops visit them. *)
Definition files_seq (ws : listing) : list (str * str) :=
  flat_map (fun w => match snd w with
                     | Some logs => py_sort name_lt fst logs
                     | None => []
                     end) ws.

(** The texts of the files called [name], in that order. *)
Definition texts_named (name : str) (seq : list (str * str)) : list str :=
  map snd (List.filter (fun lp => str_eqb (fst lp) name) seq).

Lemma collect_fold (dir : listing) :
  collect dir
  = fold_left (fun per_log lp => per_log_add (fst lp) (snd lp) per_log)
              (files_seq (py_sort name_lt fst dir)) [].
Proof.
  unfold collect, files_seq. generalize (py_sort name_lt fst dir) as ws.
  generalize (@nil (str * list str)) as acc.
  intros acc ws. revert acc. induction ws as [|w ws IH]; intros acc; [reflexivity|].
  cbn [fold_left flat_map]. rewrite fold_left_app, IH.
  destruct (snd w); reflexivity.
Qed.

Lemma per_log_add_keys (name lp : str) (per_log : list (str * list str)) :
  map fst (per_log_add name lp per_log)
  = if existsb (fun n => str_eqb n name) (map fst per_log)
    then map fst per_log else map fst per_log ++ [name].
Proof.
  induction per_log as [|[n ps] per_log IH]; cbn; [reflexivity|].
  destruct (str_eqb n name); cbn; [reflexivity|]. rewrite IH.
  destruct (existsb _ _); reflexivity.
Qed.

Lemma existsb_name (name : str) (l : list str) :
  existsb (fun n => str_eqb n name) l = true <-> In name l.
Proof.
  rewrite existsb_exists. split.
  - intros (n & Hin & E). apply str_eqb_eq in E. congruence.
  - intros H. exists name. split; [exact H | apply str_eqb_refl].
Qed.

Lemma per_log_add_In (name lp : str) (per_log : list (str * list str))
    (n : str) (paths : list str) :
  NoDup (map fst per_log) ->
  In (n, paths) (per_log_add name lp per_log) ->
  (n <> name /\ In (n, paths) per_log)
  \/ (n = name /\ exists ps, In (name, ps) per_log /\ paths = ps ++ [lp])
  \/ (n = name /\ ~ In name (map fst per_log) /\ paths = [lp]).
Proof.
  induction per_log as [|[n' ps'] per_log IH]; cbn [per_log_add map fst].
  - intros _ [[= <- <-]|[]]. right. right. cbn. tauto.
  - intros Hnd Hin. apply NoDup_cons_1_1 in Hnd as Hn'. apply NoDup_cons_1_2 in Hnd as Hnd'.
    destruct (str_eqb n' name) eqn:E.
    + apply str_eqb_eq in E. subst n'. destruct Hin as [[= <- <-]|Hin].
      * right. left. split; [reflexivity|]. exists ps'. split; [left|]; reflexivity.
      * left. split; [|right; exact Hin]. intros ->. apply Hn'.
        apply list_elem_of_In. apply (in_map fst) in Hin. exact Hin.
    + assert (Hne : n' <> name) by (intros ->; rewrite str_eqb_refl in E; discriminate).
      destruct Hin as [[= <- <-]|Hin].
      * left. split; [exact Hne | left; reflexivity].
      * destruct (IH Hnd' Hin) as [[? ?]|[(-> & ps & ? & ->)|(-> & ? & ->)]].
        -- left. split; [assumption | right; assumption].
        -- right. left. split; [reflexivity|]. exists ps. split; [right; assumption | reflexivity].
        -- right. right. split; [reflexivity|]. split; [|reflexivity].
           cbn. intros [?|?]; [congruence | contradiction].
Qed.

(** Each entry of [per_log] holds the texts of the files of its name, in
    the order the loops visit them; no name comes twice. *)
Lemma per_log_spec (seq : list (str * str)) :
  let per_log := fold_left (fun per_log lp => per_log_add (fst lp) (snd lp) per_log)
                           seq [] in
  NoDup (map fst per_log)
  /\ (forall n, In n (map fst per_log) <-> In n (map fst seq))
  /\ (forall n paths, In (n, paths) per_log ->
                      paths <> [] /\ paths = texts_named n seq).
Proof.
  induction seq as [|[name lp] seq IH] using rev_ind; cbn zeta.
  - cbn. repeat split; try tauto; try constructor; cbn in *; tauto.
  - rewrite fold_left_app. cbn [fold_left fst snd].
    cbn zeta in IH. destruct IH as (Hnd & Hkeys & Hvals).
    set (per_log := fold_left _ seq []) in *.
    assert (Hk : map fst (per_log_add name lp per_log)
                 = if existsb (fun n => str_eqb n name) (map fst per_log)
                   then map fst per_log else map fst per_log ++ [name])
      by apply per_log_add_keys.
    assert (Htn : forall n, texts_named n (seq ++ [(name, lp)])
                            = texts_named n seq
                              ++ (if str_eqb name n then [lp] else [])).
    { intros n. unfold texts_named. rewrite List.filter_app, map_app. cbn.
      destruct (str_eqb name n); reflexivity. }
    split; [|split].
    + rewrite Hk. destruct (existsb _ _) eqn:E; [exact Hnd|].
      apply NoDup_app. repeat split; [exact Hnd | | apply NoDup_singleton].
      intros x Hx Hx'. apply list_elem_of_In in Hx. apply list_elem_of_In in Hx'.
      cbn in Hx'. destruct Hx' as [<-|[]].
      apply existsb_name in Hx. congruence.
    + intros n. rewrite Hk, map_app, in_app_iff. cbn [map fst In].
      destruct (existsb _ _) eqn:E.
      * apply existsb_name in E. rewrite Hkeys. split; [tauto|].
        intros [H|[<-|[]]]; [exact H|]. apply Hkeys. exact E.
      * rewrite in_app_iff, Hkeys. cbn. tauto.
    + intros n paths Hin. rewrite Htn.
      apply per_log_add_In in Hin; [|exact Hnd].
      destruct Hin as [[Hne Hin]|[(-> & ps & Hin & ->)|(-> & Hnot & ->)]].
      * destruct (Hvals n paths Hin) as [H1 H2].
        replace (str_eqb name n) with false.
        -- rewrite app_nil_r. split; assumption.
        -- symmetry. destruct (str_eqb name n) eqn:E; [|reflexivity].
           apply str_eqb_eq in E. congruence.
      * destruct (Hvals name ps Hin) as [H1 H2]. rewrite str_eqb_refl.
        split; [destruct ps; discriminate | congruence].
      * rewrite str_eqb_refl. split; [discriminate|].
        replace (texts_named name seq) with (@nil str); [reflexivity|].
        symmetry. unfold texts_named.
        destruct (List.filter _ seq) as [|[n' t'] l] eqn:Ef; [reflexivity|].
        exfalso. apply Hnot. apply Hkeys.
        assert (Hin' : In (n', t') (List.filter (fun lp0 => str_eqb (fst lp0) name) seq))
          by (rewrite Ef; left; reflexivity).
        apply filter_In in Hin'. destruct Hin' as [Hin' E]. cbn in E.
        apply str_eqb_eq in E. subst n'. apply (in_map fst) in Hin'. exact Hin'.
Qed.

(** C5, amended.  Each log name is merged from the files of that name, the
    workers taken in the order of their names; the merged rows are a
    permutation of the concatenation of the rows of those files; without a
    field named ts in the first file they are that concatenation; with one,
    and when no row has NaN for its ts value (the column read as a float,
    0.0 when it is missing or does not parse), they are in non-decreasing
    order of ts, and the rows of equal ts keep their order in the
    concatenation. *)
Theorem merged_rows_stable_sorted (dir : listing) (log_name : str)
    (paths : list str) :
  In (log_name, paths) (collect dir) ->
  (forall ts_i r p0, nth_error paths 0 = Some p0 ->
                     _ts_index (fields_of p0) = Some ts_i ->
                     In r (concat (map rows_of paths)) ->
                     _ts_val float ts_i r <> S754_nan) ->
  StronglySorted (fun w1 w2 => name_lt (fst w2) (fst w1) = false)
                 (py_sort name_lt fst dir)
  /\ Permutation dir (py_sort name_lt fst dir)
  /\ paths = texts_named log_name (files_seq (py_sort name_lt fst dir))
  /\ exists p0 ps rows,
       paths = p0 :: ps
       /\ merged_rows float paths = Ok rows
       /\ merge_one float paths
          = Ok (concat (map (fun h => h ++ [LF]) (header_of p0))
                ++ concat (map (fun r => join [TAB] r ++ [LF]) rows))
       /\ Permutation (concat (map rows_of paths)) rows
       /\ (~ In (s2l "ts") (fields_of p0) -> rows = concat (map rows_of paths))
       /\ (In (s2l "ts") (fields_of p0) ->
           exists ts_i,
             nth_error (fields_of p0) ts_i = Some (s2l "ts")
             /\ (forall j, j < ts_i -> nth_error (fields_of p0) j <> Some (s2l "ts"))
             /\ (forall r, nth_error r ts_i = None
                           \/ (exists v, nth_error r ts_i = Some v /\ float v = None) ->
                           _ts_val float ts_i r = S754_zero false)
             /\ StronglySorted
                  (fun r1 r2 => SFleb (_ts_val float ts_i r1) (_ts_val float ts_i r2) = true)
                  rows
             /\ forall t, t <> S754_nan ->
                  List.filter (fun r => SFeqb (_ts_val float ts_i r) t) rows
                  = List.filter (fun r => SFeqb (_ts_val float ts_i r) t)
                                (concat (map rows_of paths))).
Proof.
  intros Hin Hnan. split; [apply sorted_by_name|]. split; [apply py_sort_perm|].
  rewrite collect_fold in Hin.
  destruct (per_log_spec (files_seq (py_sort name_lt fst dir))) as (_ & _ & Hvals).
  destruct (Hvals log_name paths Hin) as [Hne Hpaths]. split; [exact Hpaths|].
  destruct paths as [|p0 ps]; [congruence|]. exists p0, ps.
  destruct (merged_rows_of_files p0 ps) as (rows & H).
  { intros ts_i r. apply (Hnan ts_i r p0). reflexivity. }
  exists rows. split; [reflexivity | exact H].
Qed.

End MergeClaims.

(** A text file from its lines, each given by its tab-separated columns. *)
Definition text_of (lines : list (list string)) : str :=
  concat (map (fun cols => join [TAB] (map s2l cols) ++ [LF]) lines).

Definition ex_log_1 : str :=
  text_of [["#path"; "conn"]; ["#fields"; "ts"; "uid"];
           ["2"; "a"]; ["1"; "b"]; ["2"; "c"]]%string.

Definition ex_log_2 : str :=
  text_of [["#path"; "conn"]; ["#fields"; "ts"; "uid"]; ["1"; "d"]]%string.

Definition ex_log_nan : str :=
  text_of [["#fields"; "ts"]; ["2"]; ["nan"]; ["1"]]%string.

Example ex_merge :
  MergeLogs.merge_one float_lit [ex_log_1; ex_log_2]
  = Ok (text_of [["#path"; "conn"]; ["#fields"; "ts"; "uid"];
                 ["1"; "b"]; ["1"; "d"]; ["2"; "a"]; ["2"; "c"]]%string).
Proof. vm_compute. reflexivity. Qed.

(** Two workers, listed out of order, each with the log conn.log. *)
Definition ex_dir : MergeLogs.listing :=
  [(s2l "worker2", Some [(s2l "conn.log", ex_log_2)]);
   (s2l "worker1", Some [(s2l "conn.log", ex_log_1)]);
   (s2l "worker3", None)].

Example ex_collect :
  MergeLogs.collect ex_dir = [(s2l "conn.log", [ex_log_1; ex_log_2])].
Proof. vm_compute. reflexivity. Qed.

Lemma merged_rows_stable_sorted_witness :
  let paths := [ex_log_1; ex_log_2] in
  StronglySorted (fun w1 w2 => MergeLogs.name_lt (fst w2) (fst w1) = false)
                 (py_sort MergeLogs.name_lt fst ex_dir)
  /\ Permutation ex_dir (py_sort MergeLogs.name_lt fst ex_dir)
  /\ paths = texts_named (s2l "conn.log")
                         (files_seq (py_sort MergeLogs.name_lt fst ex_dir))
  /\ exists p0 ps rows,
       paths = p0 :: ps
       /\ MergeLogs.merged_rows float_lit paths = Ok rows
       /\ MergeLogs.merge_one float_lit paths
          = Ok (concat (map (fun h => h ++ [LF]) (header_of p0))
                ++ concat (map (fun r => join [TAB] r ++ [LF]) rows))
       /\ Permutation (concat (map rows_of paths)) rows
       /\ (~ In (s2l "ts") (fields_of p0) -> rows = concat (map rows_of paths))
       /\ (In (s2l "ts") (fields_of p0) ->
           exists ts_i,
             nth_error (fields_of p0) ts_i = Some (s2l "ts")
             /\ (forall j, j < ts_i -> nth_error (fields_of p0) j <> Some (s2l "ts"))
             /\ (forall r, nth_error r ts_i = None
                           \/ (exists v, nth_error r ts_i = Some v /\ float_lit v = None) ->
                           MergeLogs._ts_val float_lit ts_i r = S754_zero false)
             /\ StronglySorted
                  (fun r1 r2 => SFleb (MergeLogs._ts_val float_lit ts_i r1)
                                      (MergeLogs._ts_val float_lit ts_i r2) = true)
                  rows
             /\ forall t, t <> S754_nan ->
                  List.filter (fun r => SFeqb (MergeLogs._ts_val float_lit ts_i r) t) rows
                  = List.filter (fun r => SFeqb (MergeLogs._ts_val float_lit ts_i r) t)
                                (concat (map rows_of paths))).
Proof.
  apply (merged_rows_stable_sorted float_lit ex_dir (s2l "conn.log")
           [ex_log_1; ex_log_2]).
  - vm_compute. left. reflexivity.
  - intros ts_i r p0 Hp0 Hts Hin. injection Hp0 as <-.
    vm_compute in Hts. injection Hts as <-.
    vm_compute in Hin.
    destruct Hin as [<-|[<-|[<-|[<-|[]]]]]; vm_compute; discriminate.
Defined.

(** C5, as the claim states it, fails: a ts value that reads as NaN is
    neither below nor above any other, so the sort leaves the row 1 after
    the row 2.  The first file has the field ts, and the merged rows are not
    in non-decreasing order. *)
Lemma nan_ts_breaks_order :
  In (s2l "ts") (fields_of ex_log_nan)
  /\ MergeLogs.merged_rows float_lit [ex_log_nan]
     = Ok [[s2l "2"]; [s2l "nan"]; [s2l "1"]]
  /\ SFltb (MergeLogs._ts_val float_lit 0 [s2l "1"])
           (MergeLogs._ts_val float_lit 0 [s2l "2"]) = true
  /\ SFleb (MergeLogs._ts_val float_lit 0 [s2l "2"])
           (MergeLogs._ts_val float_lit 0 [s2l "nan"]) = false
  /\ SFleb (MergeLogs._ts_val float_lit 0 [s2l "nan"])
           (MergeLogs._ts_val float_lit 0 [s2l "1"]) = false.
Proof.
  split; [vm_compute; auto|]. repeat split; vm_compute; reflexivity.
Qed.

(** ** The query engine: claims *)

Section QueryFacts.

Import Re Query.

(** The steps of [_compile_query] on a query that has tokens. *)
Lemma compile_query_steps (q : str) (toks rpn : list str)
    (preds : list (row -> bool)) :
  _tokenize (strip q) = Ok toks -> toks <> [] ->
  _to_rpn toks = Ok rpn -> compile_loop rpn [] = Ok preds ->
  strip q <> [] ->
  _compile_query q = Ok (head preds).
Proof.
  intros Ht Hne Hr Hp Hq. unfold _compile_query.
  destruct (strip q) as [|c q'] eqn:E; [congruence|].
  rewrite Ht. cbn [rbind]. destruct toks as [|t toks]; [congruence|].
  rewrite Hr. cbn [rbind]. rewrite Hp. cbn [rbind].
  destruct preds; reflexivity.
Qed.

Lemma compile_step_atom (preds : list (row -> bool)) (tok : str) :
  is_operator (upper tok) = false ->
  compile_step preds tok = Ok (_term_predicate tok :: preds).
Proof.
  unfold is_operator, compile_step. intros H.
  apply orb_false_iff in H. destruct H as [H Hn].
  apply orb_false_iff in H. destruct H as [Ha Ho].
  rewrite Hn, Ha, Ho. reflexivity.
Qed.

Lemma compile_step_not (a : row -> bool) (preds : list (row -> bool)) (tok : str) :
  upper tok = s2l "NOT" ->
  compile_step (a :: preds) tok = Ok ((fun r => negb (a r)) :: preds).
Proof. unfold compile_step. intros ->. reflexivity. Qed.

Lemma compile_step_and (b a : row -> bool) (preds : list (row -> bool)) (tok : str) :
  upper tok = s2l "AND" ->
  compile_step (b :: a :: preds) tok = Ok ((fun r => a r && b r) :: preds).
Proof. unfold compile_step. intros ->. reflexivity. Qed.

Lemma compile_step_or (b a : row -> bool) (preds : list (row -> bool)) (tok : str) :
  upper tok = s2l "OR" ->
  compile_step (b :: a :: preds) tok = Ok ((fun r => a r || b r) :: preds).
Proof. unfold compile_step. intros ->. reflexivity. Qed.



End QueryFacts.

Section MatcherFacts.

Import Re Query.

(** The matcher only moves forward. *)
Lemma iter_star_forward
    (body : mstate -> (mstate -> option mstate) -> option mstate) :
  (forall st k m, body st k = Some m ->
                  exists st', k st' = Some m /\ pos st <= pos st') ->
  forall n st k m, iter_star body n st k = Some m ->
                   exists st', k st' = Some m /\ pos st <= pos st'.
Proof.
  intros Hbody. induction n as [|n IH]; intros st k m; cbn [iter_star].
  - intros H. exists st. auto.
  - destruct (body st _) as [m'|] eqn:E.
    + intros [= <-]. apply Hbody in E. destruct E as (st1 & H1 & Hp1).
      destruct (length (rest st1) <? length (rest st)); [|discriminate].
      apply IH in H1. destruct H1 as (st2 & H2 & Hp2).
      exists st2. split; [exact H2 | lia].
    + intros H. exists st. auto.
Qed.

Lemma exec_forward (r : regex) :
  forall ic st k m, exec ic r st k = Some m ->
                    exists st', k st' = Some m /\ pos st <= pos st'.
Proof.
  assert (Hstep : forall test st k m, step test st k = Some m ->
                    exists st', k st' = Some m /\ pos st <= pos st').
  { intros test st k m. unfold step. destruct (rest st) as [|x xs]; [discriminate|].
    destruct (test x); [|discriminate]. intros H. exists (advance st).
    split; [exact H | cbn; lia]. }
  induction r as [ | c | | | items | items | | | r1 IH1 r2 IH2 | r1 IH1 r2 IH2
                 | r IH | r IH | n r IH | r IH ];
    intros ic st k m; cbn [exec]; try (apply Hstep).
  - intros H. exists st. auto.
  - destruct (pos st =? 0); [|discriminate]. intros H. exists st. auto.
  - destruct (rest st) as [|c [|c' l]]; try discriminate.
    + intros H. exists st. auto.
    + destruct (ascii_eqb c LF); [|discriminate]. intros H. exists st. auto.
  - intros H. apply IH1 in H. destruct H as (st1 & H1 & Hp1).
    apply IH2 in H1. destruct H1 as (st2 & H2 & Hp2). exists st2. split; [exact H2 | lia].
  - destruct (exec ic r1 st k) as [m'|] eqn:E.
    + intros [= <-]. apply IH1 in E. exact E.
    + apply IH2.
  - apply iter_star_forward. apply IH.
  - intros H. apply IH in H. destruct H as (st1 & H1 & Hp1).
    apply (iter_star_forward _ (IH ic)) in H1. destruct H1 as (st2 & H2 & Hp2).
    exists st2. split; [exact H2 | lia].
  - intros H. apply IH in H. destruct H as (st1 & H1 & Hp1).
    eexists. split; [exact H1 | cbn; lia].
  - apply IH.
Qed.

Lemma match_at_span (ic : bool) (r : regex) (s : str) (start : nat) (m : matched) :
  match_at ic r s start = Some m -> m_start m = start /\ start <= m_end m.
Proof.
  unfold match_at. destruct (exec ic r _ Some) as [st|] eqn:E; [|discriminate].
  intros [= <-]. cbn. split; [reflexivity|].
  apply exec_forward in E. destruct E as (st' & [= ->] & Hp). exact Hp.
Qed.

Lemma search_from_span (ic : bool) (r : regex) (s : str) (n start : nat)
    (m : matched) :
  search_from ic r s n start = Some m -> start <= m_start m <= m_end m.
Proof.
  revert start. induction n as [|n IH]; intros start; cbn [search_from];
    destruct (match_at ic r s start) as [m'|] eqn:E; try discriminate.
  - intros [= <-]. apply match_at_span in E. lia.
  - intros [= <-]. apply match_at_span in E. lia.
  - intros H. apply IH in H. lia.
Qed.

(** [finditer] ends within its fuel. *)
Lemma finditer_from_ok (ic : bool) (r : regex) (s : str) :
  forall fuel start, length s + 1 - start < fuel ->
                     exists ms, finditer_from fuel ic r s start = Ok ms.
Proof.
  induction fuel as [|fuel IH]; intros start Hf; [lia|]. cbn [finditer_from].
  destruct (length s <? start) eqn:El; [eauto|]. apply Nat.ltb_ge in El.
  destruct (search_from ic r s (length s - start) start) as [m|] eqn:E; [|eauto].
  apply search_from_span in E.
  destruct (IH (if m_end m =? m_start m then S (m_end m) else m_end m)) as (ms & ->).
  - destruct (Nat.eqb_spec (m_end m) (m_start m)); lia.
  - cbn [rbind]. eauto.
Qed.

Lemma _tokenize_ok (q : str) : exists toks, _tokenize q = Ok toks.
Proof.
  unfold _tokenize, finditer.
  destruct (finditer_from_ok false _TOKEN_RE q (S (S (length q))) 0) as (ms & ->); [lia|].
  cbn [rbind]. eauto.
Qed.

(** The empty value against a wildcard pattern: only runs of [*] match. *)
Definition only_stars (pat : str) : bool :=
  forallb (fun ch => ascii_eqb ch "*") pat.

Lemma wildcard_on_empty (pat : str) :
  forall st k, rest st = [] ->
    exec true (fold_right (fun ch r => Seq (wildcard_item ch) r) Eol pat) st k
    = if only_stars pat then k st else None.
Proof.
  induction pat as [|ch pat IH]; intros st k Hrest; cbn [fold_right only_stars forallb exec].
  - rewrite Hrest. reflexivity.
  - unfold wildcard_item. destruct (ascii_eqb ch "*") eqn:Estar; cbn [andb exec].
    + rewrite Hrest. cbn [length iter_star]. apply IH. exact Hrest.
    + destruct (ascii_eqb ch "?"); cbn [exec]; unfold step; rewrite Hrest; reflexivity.
Qed.

Lemma _match_value_empty (pat : str) : _match_value [] pat = only_stars pat.
Proof.
  unfold _match_value, re_search, _wildcard_to_regex. cbn [length search_from].
  unfold match_at. cbn [skipn exec pos Nat.eqb].
  rewrite wildcard_on_empty by reflexivity.
  destruct (only_stars pat); reflexivity.
Qed.

End MatcherFacts.

Section CompileFacts.

Import Re Query.

Lemma is_operator_cases (t : str) :
  is_operator t = true <-> t = s2l "AND" \/ t = s2l "OR" \/ t = s2l "NOT".
Proof.
  unfold is_operator. rewrite !orb_true_iff, !str_eqb_eq. tauto.
Qed.

Lemma prec_operator (t : str) : is_operator t = true -> exists z, prec t = Ok z.
Proof.
  intros H. apply is_operator_cases in H.
  destruct H as [-> | [-> | ->]]; eexists; vm_compute; reflexivity.
Qed.

Lemma in_prec_operator (t : str) : in_prec t = true -> is_operator t = true.
Proof.
  unfold in_prec, is_operator. rewrite !orb_true_iff. tauto.
Qed.

Lemma pop_higher_ok (t : str) (opstack : list str) :
  is_operator t = true ->
  forall out, exists st, pop_higher t opstack out = Ok st.
Proof.
  intros Ht. induction opstack as [|top opstack IH]; intros out; cbn [pop_higher].
  - eauto.
  - destruct (in_prec top) eqn:E; [|eauto].
    destruct (prec_operator top (in_prec_operator top E)) as (ztop & ->).
    destruct (prec_operator t Ht) as (zt & ->). cbn [rbind].
    destruct (zt <=? ztop)%Z; [apply IH | eauto].
Qed.

Lemma rpn_step_ok (st : list str * list str) (raw : str) :
  exists st', rpn_step st raw = Ok st'.
Proof.
  destruct st as [opstack out]. unfold rpn_step.
  destruct (str_eqb (norm raw) (s2l "(")); [eauto|].
  destruct (str_eqb (norm raw) (s2l ")")).
  - destruct (pop_to_paren opstack out) as [[|top ops] o]; [eauto|].
    destruct (str_eqb top (s2l "(")); eauto.
  - destruct (is_operator (norm raw)) eqn:E; [|eauto].
    destruct (pop_higher_ok (norm raw) opstack E out) as (st' & ->).
    cbn [rbind]. eauto.
Qed.

Lemma _to_rpn_ok (tokens : list str) : exists rpn, _to_rpn tokens = Ok rpn.
Proof.
  unfold _to_rpn.
  assert (H : forall st, exists st', rpn_loop tokens st = Ok st').
  { induction tokens as [|raw tokens IH]; intros st; cbn [rpn_loop]; [eauto|].
    destruct (rpn_step_ok st raw) as (st1 & ->). cbn [rbind]. apply IH. }
  destruct (H ([], [])) as (st' & ->). cbn [rbind]. eauto.
Qed.

Lemma compile_step_ok (preds : list (row -> bool)) (tok : str) :
  exists preds', compile_step preds tok = Ok preds'.
Proof.
  unfold compile_step.
  destruct (str_eqb (upper tok) (s2l "NOT")); [destruct preds; eauto|].
  destruct (_ || _); [|eauto].
  destruct preds as [|b [|a preds]]; cbn [length Nat.ltb Nat.leb]; eauto.
  destruct (str_eqb (upper tok) (s2l "AND")); eauto.
Qed.

Lemma compile_loop_ok (rpn : list str) :
  forall preds, exists preds', compile_loop rpn preds = Ok preds'.
Proof.
  induction rpn as [|tok rpn IH]; intros preds; cbn [compile_loop]; [eauto|].
  destruct (compile_step_ok preds tok) as (p1 & ->). cbn [rbind]. apply IH.
Qed.

(** A token whose upper case is an operator is that operator in some
    mixture of cases. *)
Lemma upper_chr_letter (c : ascii) :
  (65 <= N_of_ascii (upper_chr c) <= 90)%N ->
  c = upper_chr c \/ c = ascii_of_N (N_of_ascii (upper_chr c) + 32).
Proof.
  destruct c as [[] [] [] [] [] [] [] []]; vm_compute; intros [H1 H2];
    first [ left; reflexivity | right; reflexivity
          | exfalso; apply H1; reflexivity | exfalso; apply H2; reflexivity ].
Qed.

Definition mixed_case (w : str) : list str :=
  fold_right (fun c acc =>
                flat_map (fun t => [c :: t; ascii_of_N (N_of_ascii c + 32) :: t]) acc)
             [[]] w.

Lemma upper_mixed_case (w t : str) :
  forallb (fun c => (65 <=? N_of_ascii c) && (N_of_ascii c <=? 90))%N w = true ->
  upper t = w -> In t (mixed_case w).
Proof.
  revert t. induction w as [|c w IH]; intros [|x t]; cbn [upper map forallb];
    try discriminate.
  - intros _ _. left. reflexivity.
  - intros Hw [= Hx Ht]. apply andb_true_iff in Hw. destruct Hw as [Hc Hw].
    cbn [mixed_case fold_right]. apply in_flat_map. exists t.
    split; [apply (IH t Hw Ht)|].
    apply andb_true_iff in Hc. destruct Hc as [H1 H2].
    apply N.leb_le in H1. apply N.leb_le in H2. rewrite <- Hx in H1, H2.
    destruct (upper_chr_letter x (conj H1 H2)) as [E|E]; rewrite Hx in E; subst x.
    + left. reflexivity.
    + right. left. reflexivity.
Qed.

Lemma operator_not_field_term (term : str) :
  is_operator (upper term) = true -> term_fields term = None.
Proof.
  intros H. apply is_operator_cases in H.
  assert (Hin : In term (mixed_case (s2l "AND") ++ mixed_case (s2l "OR")
                         ++ mixed_case (s2l "NOT"))).
  { rewrite !in_app_iff. destruct H as [H|[H|H]];
      apply upper_mixed_case in H; auto. }
  vm_compute in Hin.
  repeat (destruct Hin as [<-|Hin]; [vm_compute; reflexivity|]).
  destruct Hin.
Qed.

Lemma is_operator_upper (t : str) : is_operator t = true -> upper t = t.
Proof.
  intros H. apply is_operator_cases in H.
  destruct H as [-> | [-> | ->]]; vm_compute; reflexivity.
Qed.

(** A query of one token that is a [field:value] term compiles to the
    predicate of that term. *)
Lemma compile_single_term (q term : str) (f p : str) :
  _tokenize (strip q) = Ok [term] -> term_fields term = Some (f, p) ->
  _compile_query q = Ok (Some (_term_predicate term)).
Proof.
  intros Ht Hf.
  assert (Hop : is_operator (upper term) = false).
  { destruct (is_operator (upper term)) eqn:E; [|reflexivity].
    apply operator_not_field_term in E. congruence. }
  assert (Hop' : is_operator term = false).
  { destruct (is_operator term) eqn:E; [|reflexivity].
    rewrite <- (is_operator_upper term E) in E. congruence. }
  assert (Hl : str_eqb term (s2l "(") = false).
  { destruct (str_eqb term (s2l "(")) eqn:E; [|reflexivity].
    apply str_eqb_eq in E. subst term. vm_compute in Hf. discriminate. }
  assert (Hr : str_eqb term (s2l ")") = false).
  { destruct (str_eqb term (s2l ")")) eqn:E; [|reflexivity].
    apply str_eqb_eq in E. subst term. vm_compute in Hf. discriminate. }
  apply (compile_query_steps q [term] [term] [_term_predicate term] Ht).
  - discriminate.
  - unfold _to_rpn. cbn [rpn_loop]. unfold rpn_step, norm.
    rewrite Hop, Hl, Hr, Hop'. reflexivity.
  - cbn [compile_loop]. rewrite compile_step_atom by exact Hop. reflexivity.
  - intros E. rewrite E in Ht. vm_compute in Ht. discriminate.
Qed.

Definition atom (t : str) : Prop :=
  is_operator (upper t) = false /\ t <> s2l "(" /\ t <> s2l ")".

Lemma str_eqb_neq (a b : str) : a <> b -> str_eqb a b = false.
Proof.
  intros H. destruct (str_eqb a b) eqn:E; [|reflexivity].
  apply str_eqb_eq in E. contradiction.
Qed.

Lemma rpn_step_atom (opstack out : list str) (t : str) :
  atom t -> rpn_step (opstack, out) t = Ok (opstack, out ++ [t]).
Proof.
  intros (Hop & Hl & Hr). unfold rpn_step, norm. rewrite Hop.
  rewrite (str_eqb_neq _ _ Hl), (str_eqb_neq _ _ Hr).
  replace (is_operator t) with false; [reflexivity|].
  symmetry. destruct (is_operator t) eqn:E; [|reflexivity].
  rewrite <- (is_operator_upper t E) in E. congruence.
Qed.

Lemma rpn_step_operator (opstack out : list str) (t : str) :
  is_operator (upper t) = true ->
  rpn_step (opstack, out) t
  = (st' <~ pop_higher (upper t) opstack out ;; Ok (upper t :: fst st', snd st')).
Proof.
  intros Hop. unfold rpn_step, norm. rewrite Hop.
  apply is_operator_cases in Hop as Hc.
  destruct Hc as [-> | [-> | ->]]; reflexivity.
Qed.

(** The tokens [a or b and not c], the operators in any mixture of cases,
    compile to the predicate of [a OR (b AND (NOT c))]. *)
Lemma or_and_not_tokens (q a b c o1 o2 o3 : str) :
  _tokenize (strip q) = Ok [a; o1; b; o2; o3; c] ->
  atom a -> atom b -> atom c ->
  upper o1 = s2l "OR" -> upper o2 = s2l "AND" -> upper o3 = s2l "NOT" ->
  _compile_query q
  = Ok (Some (fun r => _term_predicate a r
                       || (_term_predicate b r && negb (_term_predicate c r)))).
Proof.
  intros Ht Ha Hb Hc H1 H2 H3.
  apply (compile_query_steps q [a; o1; b; o2; o3; c]
           [a; b; c; s2l "NOT"; s2l "AND"; s2l "OR"] [_] Ht).
  - discriminate.
  - unfold _to_rpn. cbn [rpn_loop].
    rewrite (rpn_step_atom _ _ a Ha). cbn [rbind].
    rewrite rpn_step_operator by (rewrite H1; reflexivity). rewrite H1.
    cbn [pop_higher rbind fst snd].
    rewrite (rpn_step_atom _ _ b Hb). cbn [rbind].
    rewrite rpn_step_operator by (rewrite H2; reflexivity). rewrite H2.
    change (pop_higher (s2l "AND") [s2l "OR"] (([] ++ [a]) ++ [b]))
      with (@Ok (list str * list str) ([s2l "OR"], ([] ++ [a]) ++ [b])).
    cbn [rbind fst snd].
    rewrite rpn_step_operator by (rewrite H3; reflexivity). rewrite H3.
    change (pop_higher (s2l "NOT") [s2l "AND"; s2l "OR"] (([] ++ [a]) ++ [b]))
      with (@Ok (list str * list str) ([s2l "AND"; s2l "OR"], ([] ++ [a]) ++ [b])).
    cbn [rbind fst snd].
    rewrite (rpn_step_atom _ _ c Hc). cbn [rbind fst snd app]. reflexivity.
  - destruct Ha as [Ha _], Hb as [Hb _], Hc as [Hc _]. cbn [compile_loop].
    rewrite (compile_step_atom _ a Ha). cbn [rbind].
    rewrite (compile_step_atom _ b Hb). cbn [rbind].
    rewrite (compile_step_atom _ c Hc). cbn [rbind].
    rewrite compile_step_not by reflexivity. cbn [rbind].
    rewrite compile_step_and by reflexivity. cbn [rbind].
    rewrite compile_step_or by reflexivity. cbn [rbind].
    reflexivity.
  - intros E. rewrite E in Ht. vm_compute in Ht. discriminate.
Qed.

End CompileFacts.

Section QueryClaims.

Import Re Query.

(** C7 fails on the code.  In [_TOKEN_RE] the alternative for a run of
    characters other than white space and parentheses stands before the
    alternative for a quoted string, so a token that starts with a double
    quote ends at the first blank: the query [f:QfooSbarQ] (Q the double
    quote, S a blank) gives two tokens, and the compiled predicate is the
    bare term [barQ] matched against every field.  Tried alone, the quoted
    alternative does match the whole span [QfooSbarQ]. *)
Theorem quoted_value_with_blank_splits :
  let q := s2l "f:" ++ [DQUOTE] ++ s2l "foo bar" ++ [DQUOTE] in
  _tokenize q = Ok [s2l "f:" ++ [DQUOTE] ++ s2l "foo"; s2l "bar" ++ [DQUOTE]]
  /\ (exists p, _compile_query q = Ok (Some p)
                /\ forall r : row, p r = _pred_any (s2l "bar" ++ [DQUOTE]) r)
  /\ option_map m_end (re_match false QUOTED ([DQUOTE] ++ s2l "foo bar" ++ [DQUOTE]))
     = Some 9
  /\ term_fields (s2l "f:" ++ [DQUOTE] ++ s2l "foo" ++ [DQUOTE])
     = Some (s2l "f", s2l "foo").
Proof.
  cbv zeta. split; [vm_compute; reflexivity|]. split.
  - exists (_term_predicate (s2l "bar" ++ [DQUOTE])). split.
    + apply (compile_query_steps _
               [s2l "f:" ++ [DQUOTE] ++ s2l "foo"; s2l "bar" ++ [DQUOTE]]
               [s2l "f:" ++ [DQUOTE] ++ s2l "foo"; s2l "bar" ++ [DQUOTE]]
               [_term_predicate (s2l "bar" ++ [DQUOTE]);
                _term_predicate (s2l "f:" ++ [DQUOTE] ++ s2l "foo")]).
      * vm_compute. reflexivity.
      * discriminate.
      * vm_compute. reflexivity.
      * cbn [compile_loop].
        rewrite compile_step_atom by (vm_compute; reflexivity). cbn [rbind].
        rewrite compile_step_atom by (vm_compute; reflexivity). cbn [rbind].
        reflexivity.
      * vm_compute. discriminate.
    + intros r. unfold _term_predicate.
      replace (term_fields (s2l "bar" ++ [DQUOTE])) with (@None (str * str))
        by (vm_compute; reflexivity).
      replace (_strip_quotes (s2l "bar" ++ [DQUOTE])) with (s2l "bar" ++ [DQUOTE])
        by (vm_compute; reflexivity).
      reflexivity.
  - split; vm_compute; reflexivity.
Qed.

(** The two escapes [_strip_quotes] undoes, and no other. *)
Example ex_strip_quotes :
  _strip_quotes ([DQUOTE] ++ s2l "a" ++ [BACKSLASH; DQUOTE] ++ s2l "b"
                 ++ [BACKSLASH; BACKSLASH] ++ s2l "c" ++ [BACKSLASH] ++ s2l "n"
                 ++ [DQUOTE])
  = s2l "a" ++ [DQUOTE] ++ s2l "b" ++ [BACKSLASH] ++ s2l "c" ++ [BACKSLASH]
    ++ s2l "n".
Proof. vm_compute. reflexivity. Qed.

(** C8, as the claim states it, fails: the field f is absent from the empty
    row, the pattern [*] is not empty, and the query [f:*] returns true on
    that row. *)
Lemma star_matches_missing_field :
  exists pr,
    _compile_query (s2l "f:*") = Ok (Some pr)
    /\ (∅ : row) !! s2l "f" = None
    /\ s2l "*" <> []
    /\ pr ∅ = true.
Proof.
  exists (_term_predicate (s2l "f:*")). split; [|split; [|split]].
  - apply (compile_single_term _ _ (s2l "f") (s2l "*")); vm_compute; reflexivity.
  - apply lookup_empty.
  - discriminate.
  - unfold _term_predicate.
    replace (term_fields (s2l "f:*")) with (Some (s2l "f", s2l "*"))
      by (vm_compute; reflexivity).
    unfold _pred. rewrite lookup_empty. cbn [default].
    rewrite _match_value_empty. reflexivity.
Qed.

(** C8, amended.  When the query is one token that is the term [f:p], the
    field [f] is absent from the row and the pattern [p] has a character
    other than [*], the compiled predicate returns false on the row: the
    missing field reads as the empty string, which only a run of [*]
    matches. *)
Theorem missing_field_never_matches (q term f p : str) (r : row) :
  _tokenize (strip q) = Ok [term] ->
  term_fields term = Some (f, p) ->
  r !! f = None ->
  only_stars p = false ->
  exists pr, _compile_query q = Ok (Some pr) /\ pr r = false.
Proof.
  intros Ht Hf Hr Hp. exists (_term_predicate term).
  split; [apply (compile_single_term q term f p Ht Hf)|].
  unfold _term_predicate. rewrite Hf. unfold _pred. rewrite Hr. cbn [default].
  rewrite _match_value_empty. exact Hp.
Qed.

Lemma missing_field_never_matches_witness :
  exists pr, _compile_query (s2l "uid:C*") = Ok (Some pr)
             /\ pr ({[ s2l "ts" := s2l "1" ]} : row) = false.
Proof.
  apply (missing_field_never_matches (s2l "uid:C*") (s2l "uid:C*") (s2l "uid")
           (s2l "C*"));
    vm_compute; reflexivity.
Defined.

(** C9.  [_compile_query] returns for every query string, never raising;
    a NOT that finds the stack empty, and an AND or OR that finds fewer
    than two predicates on it, push the always-true predicate; the query
    [AND] compiles to the always-true predicate. *)
Theorem compile_query_never_raises :
  (forall q, exists c, _compile_query q = Ok c)
  /\ (forall tok, upper tok = s2l "NOT" ->
                  compile_step [] tok = Ok [always_true])
  /\ (forall preds tok,
        upper tok = s2l "AND" \/ upper tok = s2l "OR" -> length preds < 2 ->
        compile_step preds tok = Ok (always_true :: preds))
  /\ _compile_query (s2l "AND") = Ok (Some always_true).
Proof.
  split; [|split; [|split]].
  - intros q. unfold _compile_query. destruct (strip q) as [|c q'] eqn:E; [eauto|].
    destruct (_tokenize_ok (c :: q')) as (toks & ->). cbn [rbind].
    destruct toks as [|t toks]; [eauto|].
    destruct (_to_rpn_ok (t :: toks)) as (rpn & ->). cbn [rbind].
    destruct (compile_loop_ok rpn []) as (preds & ->). cbn [rbind].
    destruct preds; eauto.
  - intros tok H. unfold compile_step. rewrite H. reflexivity.
  - intros preds tok H Hlen. unfold compile_step.
    replace (length preds <? 2) with true by (symmetry; apply Nat.ltb_lt; exact Hlen).
    destruct H as [-> | ->]; reflexivity.
  - apply (compile_query_steps _ [s2l "AND"] [s2l "AND"] [always_true]);
      try (vm_compute; reflexivity); discriminate.
Qed.

End QueryClaims.

(** ** Text written and read back *)

Section TextFacts.

(** A line as the files hold them: no line feed, no carriage return. *)
Definition clean (l : str) : Prop := Forall (fun c => c <> LF /\ c <> CR) l.

Lemma ascii_eqb_false (a b : ascii) : a <> b -> ascii_eqb a b = false.
Proof.
  intros H. destruct (ascii_eqb a b) eqn:E; [|reflexivity].
  apply ascii_eqb_eq in E. contradiction.
Qed.

Lemma universal_newlines_id (s : str) :
  Forall (fun c => c <> CR) s -> universal_newlines s = s.
Proof.
  induction 1 as [|c s Hc _ IH]; cbn [universal_newlines]; [reflexivity|].
  rewrite (ascii_eqb_false c CR Hc), IH. reflexivity.
Qed.

Lemma universal_newlines_no_cr (s : str) :
  Forall (fun c => c <> CR) (universal_newlines s).
Proof.
  assert (H : forall n s, length s <= n ->
                          Forall (fun c => c <> CR) (universal_newlines s)).
  { induction n as [|n IH]; intros [|c t] Hn; cbn [universal_newlines];
      try constructor; try (cbn in Hn; lia).
    - destruct (ascii_eqb c CR) eqn:E.
      + constructor; [discriminate|].
        destruct t as [|c' t]; [constructor|].
        destruct (ascii_eqb c' LF); apply IH; cbn in *; lia.
      + constructor.
        * intros ->. rewrite (proj2 (ascii_eqb_eq CR CR) eq_refl) in E. discriminate.
        * apply IH. cbn in Hn. lia. }
  apply (H (length s)). lia.
Qed.

Lemma lines_from_line (l : str) :
  Forall (fun c => c <> LF) l ->
  forall cur s, lines_from cur (l ++ LF :: s) = (rev cur ++ l ++ [LF]) :: lines_from [] s.
Proof.
  induction 1 as [|c l Hc _ IH]; intros cur s; cbn [app lines_from].
  - rewrite (proj2 (ascii_eqb_eq LF LF) eq_refl). cbn [rev]. reflexivity.
  - rewrite (ascii_eqb_false c LF Hc), IH. cbn [rev]. rewrite <- app_assoc. reflexivity.
Qed.

Lemma lines_from_concat (ls : list str) :
  Forall (Forall (fun c => c <> LF)) ls ->
  lines_from [] (concat (map (fun l => l ++ [LF]) ls)) = map (fun l => l ++ [LF]) ls.
Proof.
  induction 1 as [|l ls Hl _ IH]; cbn [map concat]; [reflexivity|].
  rewrite <- app_assoc. cbn [app]. rewrite lines_from_line by exact Hl.
  rewrite IH. reflexivity.
Qed.

Lemma clean_no_lf (l : str) : clean l -> Forall (fun c => c <> LF) l.
Proof. unfold clean. apply List.Forall_impl. tauto. Qed.

Lemma clean_no_cr (l : str) : clean l -> Forall (fun c => c <> CR) l.
Proof. unfold clean. apply List.Forall_impl. tauto. Qed.

(** Clean lines written one after the other are read back as they were. *)
Lemma file_lines_written (ls : list str) :
  Forall clean ls ->
  file_lines (concat (map (fun l => l ++ [LF]) ls)) = map (fun l => l ++ [LF]) ls.
Proof.
  intros H. unfold file_lines. rewrite universal_newlines_id.
  - apply lines_from_concat. revert H. apply List.Forall_impl. apply clean_no_lf.
  - induction H as [|l ls Hl _ IH]; cbn [map concat]; [constructor|].
    rewrite <- app_assoc. apply Forall_app. split; [apply clean_no_cr; exact Hl|].
    cbn [app]. constructor; [discriminate | exact IH].
Qed.

Lemma rstrip_lf_id (l : str) : Forall (fun c => c <> LF) l -> rstrip_lf l = l.
Proof.
  induction 1 as [|c l Hc _ IH]; cbn [rstrip_lf]; [reflexivity|].
  rewrite IH. destruct l; [|reflexivity]. rewrite (ascii_eqb_false c LF Hc). reflexivity.
Qed.

Lemma rstrip_lf_line (l : str) :
  Forall (fun c => c <> LF) l -> rstrip_lf (l ++ [LF]) = l.
Proof.
  induction 1 as [|c l Hc Hl IH]; cbn [app rstrip_lf].
  - rewrite (proj2 (ascii_eqb_eq LF LF) eq_refl). reflexivity.
  - rewrite IH. destruct l; [|reflexivity]. rewrite (ascii_eqb_false c LF Hc). reflexivity.
Qed.

(** What [for line in f] yields: lines that are clean once stripped. *)
Lemma lines_from_clean (s : str) :
  Forall (fun c => c <> CR) s ->
  forall cur, clean cur ->
    Forall (fun raw => clean (rstrip_lf raw)) (lines_from cur s).
Proof.
  induction 1 as [|c s Hc Hs IH]; intros cur Hcur; cbn [lines_from].
  - destruct cur as [|x cur]; constructor; [|constructor].
    rewrite rstrip_lf_id.
    + apply Forall_rev. exact Hcur.
    + apply clean_no_lf. apply Forall_rev. exact Hcur.
  - destruct (ascii_eqb c LF) eqn:E.
    + apply ascii_eqb_eq in E. subst c. constructor; [|apply IH; constructor].
      cbn [rev]. rewrite rstrip_lf_line.
      * apply Forall_rev. exact Hcur.
      * apply clean_no_lf. apply Forall_rev. exact Hcur.
    + apply IH. constructor; [|exact Hcur]. split; [|exact Hc].
      intros ->. rewrite (proj2 (ascii_eqb_eq LF LF) eq_refl) in E. discriminate.
Qed.

Lemma file_lines_clean (content : str) :
  Forall (fun raw => clean (rstrip_lf raw)) (file_lines content).
Proof.
  unfold file_lines. apply lines_from_clean;
    [apply universal_newlines_no_cr | constructor].
Qed.

Lemma split_on_cons (sep : ascii) (line : str) :
  exists p ps, split_on sep line = p :: ps.
Proof.
  destruct line as [|c line]; cbn [split_on]; [eauto|].
  destruct (ascii_eqb c sep); [eauto|]. destruct (split_on sep line); eauto.
Qed.

Lemma join_split_on (sep : ascii) (line : str) :
  join [sep] (split_on sep line) = line.
Proof.
  induction line as [|c line IH]; [reflexivity|]. cbn [split_on].
  destruct (split_on_cons sep line) as (p & ps & Es). rewrite Es in *.
  destruct (ascii_eqb c sep) eqn:E.
  - apply ascii_eqb_eq in E. subst c.
    change (join [sep] ([] :: p :: ps)) with ([] ++ [sep] ++ join [sep] (p :: ps)).
    rewrite IH. reflexivity.
  - destruct ps as [|p' ps].
    + cbn [join] in *. rewrite IH. reflexivity.
    + change (join [sep] ((c :: p) :: p' :: ps))
        with (c :: (p ++ [sep] ++ join [sep] (p' :: ps))).
      change (join [sep] (p :: p' :: ps))
        with (p ++ [sep] ++ join [sep] (p' :: ps)) in IH.
      rewrite IH. reflexivity.
Qed.

End TextFacts.

(** ** The text of the shard map *)

Section WorkerMapText.

Import SplitPcap.

Lemma clean_app (a b : str) : clean a -> clean b -> clean (a ++ b).
Proof. intros Ha Hb. apply Forall_app. split; assumption. Qed.

Lemma clean_join (sep : str) (parts : list str) :
  clean sep -> Forall clean parts -> clean (join sep parts).
Proof.
  intros Hs. induction 1 as [|p ps Hp Hps IH]; [constructor|].
  destruct ps as [|p' ps]; [exact Hp|].
  change (join sep (p :: p' :: ps)) with (p ++ sep ++ join sep (p' :: ps)).
  apply clean_app; [exact Hp|]. apply clean_app; [exact Hs | exact IH].
Qed.

Lemma clean_decimal (d : Decimal.uint) :
  clean (s2l (DecimalString.NilEmpty.string_of_uint d)).
Proof.
  induction d; cbn; try constructor; try exact IHd; split; discriminate.
Qed.

Lemma clean_str_of_int (v : Z) : clean (str_of_int v).
Proof.
  unfold str_of_int, DecimalString.NilZero.string_of_int.
  assert (H : forall d, clean (s2l (DecimalString.NilZero.string_of_uint d))).
  { intros d. unfold DecimalString.NilZero.string_of_uint.
    destruct d; try apply clean_decimal.
    cbn. constructor; [split; discriminate | constructor]. }
  destruct (Z.to_int v); [apply H|].
  cbn. constructor; [split; discriminate | apply H].
Qed.

Lemma clean_hexadecimal (d : Hexadecimal.uint) :
  clean (s2l (HexadecimalString.NilEmpty.string_of_uint d)).
Proof.
  induction d; cbn; try constructor; try exact IHd; split; discriminate.
Qed.

Lemma clean_format_04x (v : Z) : clean (format_04x v).
Proof.
  unfold format_04x. apply clean_app.
  - generalize (4 - length (s2l (HexadecimalString.NilZero.string_of_uint
                                   (N.to_hex_uint (Z.to_N v))))) as n.
    induction n as [|n IH]; cbn [repeat]; constructor;
      [split; discriminate | exact IH].
  - unfold HexadecimalString.NilZero.string_of_uint.
    destruct (N.to_hex_uint (Z.to_N v)); try apply clean_hexadecimal.
    cbn. constructor; [split; discriminate | constructor].
Qed.

Lemma clean_fmt_ipv4 (ip4 : list byte) : clean (_fmt_ipv4 ip4).
Proof.
  unfold _fmt_ipv4. apply clean_join.
  - constructor; [split; discriminate | constructor].
  - apply List.Forall_forall. intros x Hx. apply in_map_iff in Hx.
    destruct Hx as (b & <- & _). apply clean_str_of_int.
Qed.

Lemma clean_fmt_ipv6 (ip6 : list byte) : clean (_fmt_ipv6 ip6).
Proof.
  unfold _fmt_ipv6. apply clean_join.
  - constructor; [split; discriminate | constructor].
  - apply List.Forall_forall. intros x Hx. apply in_map_iff in Hx.
    destruct Hx as (b & <- & _). apply clean_format_04x.
Qed.

Definition clean_rep (rep : Rep.t) : Prop :=
  clean (Rep.src_ip rep) /\ clean (Rep.dst_ip rep).

Definition clean_flow (v : Flow.t) : Prop :=
  clean (Flow.src_ip v) /\ clean (Flow.dst_ip v).

Lemma tuple_for_packet_clean (pkt key : list byte) (rep : Rep.t) :
  tuple_for_packet pkt = Ok (key, rep) -> clean_rep rep.
Proof.
  unfold tuple_for_packet.
  destruct (_ipv4_tuple pkt) as [[[[[[s d] sp] dp] pr]|]|e]; cbn [rbind];
    [| |discriminate].
  - destruct (l3_key _ _); cbn [rbind]; [|discriminate]. intros [= _ <-].
    split; apply clean_fmt_ipv4.
  - destruct (_ipv6_tuple pkt) as [[[[[[s d] sp] dp] pr]|]|e]; cbn [rbind];
      [| |discriminate].
    + destruct (l3_key _ _); cbn [rbind]; [|discriminate]. intros [= _ <-].
      split; apply clean_fmt_ipv6.
    + intros [= _ <-]. split; cbn; (constructor; [split; discriminate | constructor]).
Qed.

Lemma fm_update_clean (key : list byte) (w : Z) (rep : Rep.t) (m : flow_map) :
  clean_rep rep -> Forall (fun kv => clean_flow (snd kv)) m ->
  Forall (fun kv => clean_flow (snd kv)) (fm_update key w rep m).
Proof.
  intros Hrep Hm. unfold fm_update. destruct (negb (fm_mem key m)).
  - apply Forall_app. split; [exact Hm|]. constructor; [exact Hrep | constructor].
  - induction Hm as [|[k v] m Hv Hm IH]; cbn [fm_incr]; [constructor|].
    destruct (bytes_eqb key k); constructor; assumption.
Qed.

Lemma route_clean (workers : Z) (h p : list byte) (st st' : pass) :
  route workers h p st = Ok st' ->
  Forall (fun kv => clean_flow (snd kv)) (flows st) ->
  Forall (fun kv => clean_flow (snd kv)) (flows st').
Proof.
  unfold route. destruct (tuple_for_packet p) as [[key rep]|e] eqn:Et; cbn [rbind];
    [|discriminate].
  destruct (py_mod _ _); cbn [rbind]; [|discriminate].
  destruct (resolve_index _ _); cbn [rbind]; [|discriminate].
  intros [= <-] Hm. cbn [flows]. apply fm_update_clean; [|exact Hm].
  apply (tuple_for_packet_clean p key rep Et).
Qed.

Lemma split_loop_clean (workers : Z) (data : list byte) (fuel : nat) :
  forall off st st',
    split_loop fuel data workers off st = Ok st' ->
    Forall (fun kv => clean_flow (snd kv)) (flows st) ->
    Forall (fun kv => clean_flow (snd kv)) (flows st').
Proof.
  induction fuel as [|fuel IH]; intros off st st'; cbn [split_loop]; [discriminate|].
  destruct (_ <=? _); [|intros [= <-]; auto].
  destruct (_ <? _); [intros [= <-]; auto|].
  destruct (route workers _ _ st) as [st1|e] eqn:Er; cbn [rbind]; [|discriminate].
  intros Hl Hm. apply (IH _ _ _ Hl). apply (route_clean _ _ _ _ _ Er Hm).
Qed.

(** The lines of the shard map. *)
Definition worker_map_lines (rows : list Flow.t) : list str :=
  [s2l "#separator " ++ [TAB]; s2l "#set_separator ,";
   s2l "#empty_field (empty)"; s2l "#unset_field -"; s2l "#path worker_map";
   s2l "#open 0"; s2l "#fields" ++ [TAB] ++ join [TAB] worker_map_fields;
   s2l "#types" ++ [TAB] ++ join [TAB] worker_map_types]
  ++ map (fun r => join [TAB]
             [str_of_int (Flow.worker r); str_of_int (Flow.ip_ver r);
              Flow.src_ip r; str_of_int (Flow.src_port r); Flow.dst_ip r;
              str_of_int (Flow.dst_port r); str_of_int (Flow.proto r);
              str_of_int (Flow.pkt_count r)]) rows
  ++ [s2l "#close 0"].

Lemma write_worker_map_log_lines (rows : list Flow.t) :
  write_worker_map_log rows
  = concat (map (fun l => l ++ [LF]) (worker_map_lines rows)).
Proof.
  unfold write_worker_map_log, worker_map_lines.
  rewrite !map_app, !concat_app, map_map.
  change (s2l "#separator " ++ [TAB; LF]) with ((s2l "#separator " ++ [TAB]) ++ [LF]).
  cbn [map concat]. rewrite !app_nil_r, <- !app_assoc. reflexivity.
Qed.

Lemma worker_map_lines_clean (rows : list Flow.t) :
  Forall clean_flow rows ->
  Forall (fun l => clean l /\ l <> []) (worker_map_lines rows).
Proof.
  intros Hrows. unfold worker_map_lines.
  assert (Htab : clean [TAB]) by (constructor; [split; discriminate | constructor]).
  apply Forall_app. split; [|apply Forall_app; split].
  - repeat constructor; discriminate.
  - apply List.Forall_forall. intros l Hl. apply in_map_iff in Hl.
    destruct Hl as (r & <- & Hr). rewrite List.Forall_forall in Hrows.
    destruct (Hrows r Hr) as [Hs Hd]. split.
    + apply clean_join; [exact Htab|].
      repeat constructor; try apply clean_str_of_int; assumption.
    + change (join [TAB] ?l) with (str_of_int (Flow.worker r) ++ [TAB]
        ++ join [TAB] [str_of_int (Flow.ip_ver r); Flow.src_ip r;
                       str_of_int (Flow.src_port r); Flow.dst_ip r;
                       str_of_int (Flow.dst_port r); str_of_int (Flow.proto r);
                       str_of_int (Flow.pkt_count r)]).
      destruct (str_of_int (Flow.worker r)); discriminate.
  - repeat constructor; discriminate.
Qed.

(** The shard map a run writes is made of clean lines, none empty. *)
Lemma worker_map_written (data : list byte) (workers : Z) (out : output) :
  split_pcap_flowhash data workers = Ok out ->
  exists lines,
    worker_map out = concat (map (fun l => l ++ [LF]) lines)
    /\ Forall (fun l => clean l /\ l <> []) lines.
Proof.
  unfold split_pcap_flowhash. destruct (_ <? _); [discriminate|].
  destruct (split_loop _ _ _ _ _) as [st|e] eqn:El; cbn [rbind]; [|discriminate].
  intros [= <-]. cbn [worker_map]. eexists. split; [apply write_worker_map_log_lines|].
  apply worker_map_lines_clean.
  apply (Permutation_Forall (py_sort_perm key_lt row_key (map snd (flows st)))).
  apply split_loop_clean in El; [|constructor].
  apply List.Forall_forall. intros v Hv. apply in_map_iff in Hv.
  destruct Hv as ([k v'] & <- & Hin). rewrite List.Forall_forall in El.
  apply (El _ Hin).
Qed.

End WorkerMapText.

(** ** The merged file read by the log endpoint *)

Section LogFacts.

Import MergeLogs Query.

Definition is_comment (l : str) : bool := startswith l (s2l "#").

Definition is_empty (l : str) : bool :=
  match l with [] => true | _ => false end.

(** A line of the file that is neither a comment nor empty. *)
Definition data_line (raw : str) : bool :=
  negb (is_comment (rstrip_lf raw)) && negb (is_empty (rstrip_lf raw)).

Definition hdr_line (h : str) : Prop := clean h /\ is_comment h = true.

Definition data_cols (r : list str) : Prop :=
  clean (join [TAB] r) /\ join [TAB] r <> [] /\ is_comment (join [TAB] r) = false.

(** The decoded row of every line that is not a comment, under the field
    list in force at that line. *)
Fixpoint decoded_rows (flds : option (list str)) (lines : list str) : list row :=
  match lines with
  | [] => []
  | raw :: lines' =>
      let line := rstrip_lf raw in
      if startswith line (s2l "#") then
        decoded_rows (if startswith line (s2l "#fields")
                      then Some (tail (split_on TAB line)) else flds) lines'
      else
        snd (decode flds line) :: decoded_rows (Some (fst (decode flds line))) lines'
  end.

Lemma read_line_inv (st : read_state) (raw : str) :
  clean (rstrip_lf raw) ->
  Forall hdr_line (fst (fst st)) -> Forall data_cols (snd st) ->
  Forall hdr_line (fst (fst (read_line st raw)))
  /\ Forall data_cols (snd (read_line st raw)).
Proof.
  destruct st as [[h f] r]. cbn [fst snd]. intros Hc Hh Hr. unfold read_line.
  destruct (startswith (rstrip_lf raw) (s2l "#")) eqn:E.
  - assert (Hh' : Forall hdr_line (h ++ [rstrip_lf raw])).
    { apply Forall_app. split; [exact Hh|]. constructor; [|constructor].
      split; assumption. }
    destruct (startswith (rstrip_lf raw) (s2l "#fields")); cbn [fst snd]; auto.
  - destruct (rstrip_lf raw) as [|c l] eqn:El; cbn [fst snd]; [auto|].
    split; [exact Hh|]. apply Forall_app. split; [exact Hr|].
    constructor; [|constructor]. unfold data_cols. rewrite join_split_on.
    repeat split; [exact Hc | discriminate | exact E].
Qed.

Lemma _read_zeek_log_inv (content : str) :
  Forall hdr_line (header_of content) /\ Forall data_cols (rows_of content).
Proof.
  unfold header_of, rows_of, _read_zeek_log.
  assert (H : forall lines st,
            Forall (fun raw => clean (rstrip_lf raw)) lines ->
            Forall hdr_line (fst (fst st)) -> Forall data_cols (snd st) ->
            Forall hdr_line (fst (fst (fold_left read_line lines st)))
            /\ Forall data_cols (snd (fold_left read_line lines st))).
  { induction lines as [|raw lines IH]; intros st Hl Hh Hr; cbn [fold_left]; [auto|].
    apply Forall_cons_1 in Hl. destruct Hl as [Hraw Hl].
    destruct (read_line_inv st raw Hraw Hh Hr). apply IH; assumption. }
  apply H; [apply file_lines_clean | constructor | constructor].
Qed.

(** The text of a merged log: header lines, then lines of data. *)
Lemma merge_one_text (float : str -> option spec_float) (paths : list str)
    (text : str) :
  merge_one float paths = Ok text ->
  exists hdrs rows,
    text = concat (map (fun l => l ++ [LF]) (hdrs ++ map (join [TAB]) rows))
    /\ Forall hdr_line hdrs /\ Forall data_cols rows.
Proof.
  destruct paths as [|p0 ps]; [discriminate|].
  unfold merge_one, merged_rows. cbn [index nth_error rbind].
  rewrite concat_rows_concat.
  destruct (_read_zeek_log_inv p0) as [Hh _]. unfold header_of in Hh.
  assert (Hall : Forall data_cols (concat (map rows_of (p0 :: ps)))).
  { apply Forall_concat. apply List.Forall_forall. intros rs Hrs.
    apply in_map_iff in Hrs. destruct Hrs as (p & <- & _).
    apply _read_zeek_log_inv. }
  destruct (_read_zeek_log p0) as [[h f] r]. cbn [fst] in Hh.
  set (all := concat (map rows_of (p0 :: ps))) in *.
  assert (Hrows : forall rows, Permutation all rows ->
            Ok (concat (map (fun h0 => h0 ++ [LF]) h)
                ++ concat (map (fun r0 => join [TAB] r0 ++ [LF]) rows)) = Ok text ->
            exists hdrs rows0,
              text = concat (map (fun l => l ++ [LF]) (hdrs ++ map (join [TAB]) rows0))
              /\ Forall hdr_line hdrs /\ Forall data_cols rows0).
  { intros rows Hperm [= <-]. exists h, rows. split; [|split; [exact Hh|]].
    - rewrite map_app, concat_app, map_map. reflexivity.
    - apply (Permutation_Forall Hperm). exact Hall. }
  destruct (_ts_index f) as [ts_i|]; cbn [rbind].
  - apply Hrows. apply py_sort_perm.
  - apply Hrows. reflexivity.
Qed.

(** The scan keeps, in the order of the file, the decoded rows that the
    predicate accepts. *)
Lemma scan_rows (pred : option (row -> bool)) (lines : list str) :
  forall st,
    all_rows (fold_left (scan_line pred) lines st)
    = all_rows st ++ List.filter (keep pred) (decoded_rows (fields st) lines).
Proof.
  induction lines as [|raw lines IH]; intros st; cbn [fold_left decoded_rows List.filter].
  - symmetry. apply app_nil_r.
  - rewrite IH. unfold scan_line.
    destruct (startswith (rstrip_lf raw) (s2l "#")).
    + destruct (startswith (rstrip_lf raw) (s2l "#fields")); reflexivity.
    + destruct (decode (fields st) (rstrip_lf raw)) as [fs r]. cbn [fst snd List.filter].
      destruct (keep pred r); cbn [all_rows fields]; [|reflexivity].
      rewrite <- app_assoc. reflexivity.
Qed.

Lemma length_decoded_rows (lines : list str) :
  forall flds,
    length (decoded_rows flds lines)
    = length (List.filter (fun raw => negb (is_comment (rstrip_lf raw))) lines).
Proof.
  induction lines as [|raw lines IH]; intros flds; cbn [decoded_rows List.filter];
    [reflexivity|].
  unfold is_comment at 1. destruct (startswith (rstrip_lf raw) (s2l "#"));
    cbn [negb length]; rewrite IH; reflexivity.
Qed.

(** Among clean lines, none empty, the lines that are not comments are the
    lines of data. *)
Lemma written_lines_data (ls : list str) :
  Forall (fun l => clean l /\ l <> []) ls ->
  let lines := map (fun l => l ++ [LF]) ls in
  List.filter (fun raw => negb (is_comment (rstrip_lf raw))) lines
  = List.filter data_line lines.
Proof.
  intros Hls lines. apply List.filter_ext_in. intros raw Hin.
  unfold lines in Hin. apply in_map_iff in Hin. destruct Hin as (l & <- & Hl).
  rewrite List.Forall_forall in Hls. destruct (Hls l Hl) as [Hc Hne].
  unfold data_line. rewrite rstrip_lf_line by (apply clean_no_lf; exact Hc).
  destruct l; [congruence|]. cbn [is_empty negb]. rewrite andb_true_r. reflexivity.
Qed.

(** A file of the merged directory: a log merged from the workers' files
    of one name, or the shard map of a run. *)
Definition merged_file (text : str) : Prop :=
  (exists float paths, merge_one float paths = Ok text)
  \/ (exists data workers out,
        SplitPcap.split_pcap_flowhash data workers = Ok out
        /\ text = SplitPcap.worker_map out).

Lemma merged_file_written (text : str) :
  merged_file text ->
  exists lines,
    text = concat (map (fun l => l ++ [LF]) lines)
    /\ Forall (fun l => clean l /\ l <> []) lines.
Proof.
  intros [(float & paths & Hm)|(data & workers & out & Hs & ->)].
  - destruct (merge_one_text float paths text Hm) as (hdrs & rows & -> & Hh & Hr).
    eexists. split; [reflexivity|]. apply Forall_app. split.
    + revert Hh. apply List.Forall_impl. intros h [Hc Hcom]. split; [exact Hc|].
      intros ->. discriminate.
    + apply List.Forall_forall. intros l Hl. apply in_map_iff in Hl.
      destruct Hl as (r & <- & Hin). rewrite List.Forall_forall in Hr.
      destruct (Hr r Hin) as (Hc & Hne & _). split; assumption.
  - apply (worker_map_written data workers out Hs).
Qed.

Lemma strip_empty_compiles_to_none (q : str) :
  strip q = [] -> _compile_query q = Ok None.
Proof. intros H. unfold _compile_query. rewrite H. reflexivity. Qed.

(** C10.  On a file of the merged directory, a query that is empty or only
    white space compiles to no predicate and selects every decoded row: the
    total is the number of lines that are neither comments nor empty, and
    the page is the slice of all decoded rows from the offset (at least 0)
    over the limit (between 1 and 5000). *)
Theorem empty_query_selects_every_row (text : str) (offset limit : Z) (q : str) :
  merged_file text -> strip q = [] ->
  _compile_query q = Ok None
  /\ exists pg,
       get_log text offset limit q = Ok pg
       /\ p_total pg = length (List.filter data_line (file_lines text))
       /\ p_total pg = length (decoded_rows None (file_lines text))
       /\ p_offset pg = Z.max 0 offset
       /\ p_limit pg = Z.min 5000 (Z.max 1 limit)
       /\ p_rows pg
          = slice (decoded_rows None (file_lines text))
                  (Z.to_nat (p_offset pg)) (Z.to_nat (p_offset pg + p_limit pg)).
Proof.
  intros Hm Hq. pose proof (strip_empty_compiles_to_none q Hq) as Hc.
  split; [exact Hc|]. unfold get_log. rewrite Hc. cbn [rbind].
  eexists. split; [reflexivity|]. cbn [p_total p_offset p_limit p_rows].
  rewrite scan_rows. cbn [all_rows fields app].
  assert (Hall : List.filter (keep None) (decoded_rows None (file_lines text))
                 = decoded_rows None (file_lines text)).
  { apply forallb_filter_id. apply forallb_forall. reflexivity. }
  rewrite Hall. split; [|split; [reflexivity|]].
  - rewrite length_decoded_rows.
    destruct (merged_file_written text Hm) as (lines & -> & Hl).
    rewrite file_lines_written.
    + f_equal. apply written_lines_data. exact Hl.
    + revert Hl. apply List.Forall_impl. tauto.
  - assert (Ho : (if (offset <? 0)%Z then 0%Z else offset) = Z.max 0 offset).
    { destruct (Z.ltb_spec offset 0); lia. }
    assert (Hl : (if (5000 <? (if (limit <? 1)%Z then 1%Z else limit))%Z
                  then 5000%Z else if (limit <? 1)%Z then 1%Z else limit)
                 = Z.min 5000 (Z.max 1 limit)).
    { destruct (Z.ltb_spec limit 1); [destruct (Z.ltb_spec 5000 1); lia|].
      destruct (Z.ltb_spec 5000 limit); lia. }
    rewrite Ho, Hl. repeat split; reflexivity.
Qed.

End LogFacts.

(** ** Examples: queries on a merged log *)

Definition ex_merged : str :=
  text_of [["#path"; "conn"]; ["#fields"; "ts"; "uid"];
           ["1"; "b"]; ["1"; "d"]; ["2"; "a"]; ["2"; "c"]]%string.

Definition ex_row (ts uid : string) : Query.row :=
  <[s2l "uid" := s2l uid]> ({[ s2l "ts" := s2l ts ]}).

Lemma empty_query_selects_every_row_witness :
  Query._compile_query (s2l "  ") = Ok None
  /\ exists pg,
       Query.get_log ex_merged 1 2 (s2l "  ") = Ok pg
       /\ Query.p_total pg = length (List.filter data_line (file_lines ex_merged))
       /\ Query.p_total pg = length (decoded_rows None (file_lines ex_merged))
       /\ Query.p_offset pg = Z.max 0 1
       /\ Query.p_limit pg = Z.min 5000 (Z.max 1 2)
       /\ Query.p_rows pg
          = slice (decoded_rows None (file_lines ex_merged))
                  (Z.to_nat (Query.p_offset pg))
                  (Z.to_nat (Query.p_offset pg + Query.p_limit pg)).
Proof.
  apply (empty_query_selects_every_row ex_merged 1 2 (s2l "  ")).
  - left. exists float_lit, [ex_log_1; ex_log_2]. vm_compute. reflexivity.
  - vm_compute. reflexivity.
Defined.

(** The shard map of [ex_capture], queried with no query. *)
Example ex_get_log_worker_map :
  match SplitPcap.split_pcap_flowhash ex_capture 2 with
  | Ok out =>
      match Query.get_log (SplitPcap.worker_map out) 0 200 [] with
      | Ok pg => Some (Query.p_total pg)
      | Raise _ => None
      end
  | Raise _ => None
  end
  = Some 2.
Proof. vm_compute. reflexivity. Qed.

Example ex_get_log_all :
  match Query.get_log ex_merged 1 2 [] with
  | Ok pg => Some (Query.p_fields pg, Query.p_total pg, Query.p_rows pg)
  | Raise _ => None
  end
  = Some ([s2l "ts"; s2l "uid"], 4, [ex_row "1" "d"; ex_row "2" "a"]).
Proof. vm_compute. reflexivity. Qed.

Example ex_get_log_query :
  match Query.get_log ex_merged 0 200 (s2l "ts:2 AND NOT uid:a") with
  | Ok pg => Some (Query.p_total pg, Query.p_rows pg, Query.p_limit pg)
  | Raise _ => None
  end
  = Some (1, [ex_row "2" "c"], 200%Z).
Proof. vm_compute. reflexivity. Qed.

(** The limit 0 becomes 1, the limit 10000 becomes 5000, a negative offset
    becomes 0. *)
Example ex_get_log_clamp :
  match Query.get_log ex_merged (-3) 0 [], Query.get_log ex_merged 0 10000 [] with
  | Ok pg1, Ok pg2 =>
      Some (Query.p_offset pg1, Query.p_limit pg1, length (Query.p_rows pg1),
            Query.p_limit pg2)
  | _, _ => None
  end
  = Some (0%Z, 1%Z, 1, 5000%Z).
Proof. vm_compute. reflexivity. Qed.

(** The always-true predicate stands for the malformed fragment only: under
    a NOT the query as a whole matches nothing. *)
Example ex_not_of_malformed :
  match Query._compile_query (s2l "NOT (AND)"), Query._compile_query (s2l "x AND") with
  | Ok (Some p1), Ok (Some p2) => Some (p1 (ex_row "1" "b"), p2 (ex_row "1" "b"))
  | _, _ => None
  end
  = Some (false, true).
Proof. vm_compute. reflexivity. Qed.

(** [a OR b AND NOT c] on rows in which fields hold exactly b and c, only
    b, and only a and c. *)
Example ex_precedence_rows :
  match Query._compile_query (s2l "a OR b AND NOT c") with
  | Ok (Some p) =>
      Some (p (<[s2l "x" := s2l "b"]> ({[ s2l "y" := s2l "c" ]})),
            p ({[ s2l "x" := s2l "b" ]}),
            p (<[s2l "x" := s2l "a"]> ({[ s2l "y" := s2l "c" ]})))
  | _ => None
  end
  = Some (false, true, true).
Proof. vm_compute. reflexivity. Qed.

(** A field name that begins with an operator word is cut by the
    tokenizer: the word comes first in [_TOKEN_RE]. *)
Example ex_tokenize_orig :
  Query._tokenize (s2l "orig_bytes:0") = Ok [s2l "or"; s2l "ig_bytes:0"].
Proof. vm_compute. reflexivity. Qed.

(** The wildcard [a*c] matches abc and ac, and not abcd. *)
Example ex_wildcard :
  map (fun v => Query._match_value (s2l v) (s2l "a*c")) ["abc"; "ac"; "abcd"]%string
  = [true; true; false].
Proof. vm_compute. reflexivity. Qed.

(** * Further properties *)

(** ** Keys of the sharder *)

Lemma byte_val_of_Z (z : Z) : byte_val (byte_of_Z z) = (z mod 256)%Z.
Proof.
  unfold byte_val, byte_of_Z.
  pose proof (Z.mod_pos_bound z 256 ltac:(lia)) as Hm.
  destruct (Byte.of_N (Z.to_N (z mod 256))) as [b|] eqn:E.
  - apply Byte.to_of_N in E. rewrite E. apply Z2N.id. lia.
  - apply Byte.of_N_None_iff in E. lia.
Qed.

Lemma byte_of_Z_val (b : byte) : byte_of_Z (byte_val b) = b.
Proof.
  unfold byte_of_Z. rewrite Z.mod_small by apply byte_val_range.
  unfold byte_val. rewrite N2Z.id, Byte.of_to_N. reflexivity.
Qed.

Lemma length_be_bytes (n : nat) : forall v, length (be_bytes n v) = n.
Proof.
  induction n as [|n IH]; intros v; cbn [be_bytes]; [reflexivity|].
  rewrite length_app, IH. cbn. lia.
Qed.

Lemma int_from_bytes_big_snoc (l : list byte) (b : byte) :
  int_from_bytes_big (l ++ [b]) = (int_from_bytes_big l * 256 + byte_val b)%Z.
Proof. unfold int_from_bytes_big. rewrite fold_left_app. reflexivity. Qed.

(** [int.from_bytes(v.to_bytes(n, "big"), "big") == v] *)
Lemma be_bytes_value (n : nat) :
  forall v, (0 <= v < 256 ^ Z.of_nat n)%Z -> int_from_bytes_big (be_bytes n v) = v.
Proof.
  induction n as [|n IH]; intros v Hv.
  - cbn in *. lia.
  - cbn [be_bytes]. rewrite int_from_bytes_big_snoc, byte_val_of_Z.
    rewrite Nat2Z.inj_succ, Z.pow_succ_r in Hv by lia.
    rewrite IH.
    + pose proof (Z.div_mod v 256 ltac:(lia)). lia.
    + split; [apply Z.div_pos; lia | apply Z.div_lt_upper_bound; lia].
Qed.

Section Keys.

Import SplitPcap.

Lemma _ipv4_tuple_Some (pkt s d : list byte) (sp dp pr : Z) :
  _ipv4_tuple pkt = Ok (Some (s, d, sp, dp, pr)) ->
  length s = 4 /\ length d = 4 /\ tuple_in_range (s, d, sp, dp, pr).
Proof.
  unfold _ipv4_tuple.
  destruct (length pkt <? 14 + 20) eqn:Hlen; [discriminate|].
  apply Nat.ltb_ge in Hlen.
  destruct (negb _); [discriminate|].
  assert (Hip : 20 <= length (skipn 14 pkt)) by (rewrite length_drop; lia).
  destruct (index_ok (skipn 14 pkt) 0) as (b0 & -> & _); [lia|]. cbn [rbind].
  destruct (negb _); [discriminate|].
  destruct (_ <? _)%Z; [discriminate|].
  destruct (index_ok (skipn 14 pkt) 9) as (p & -> & _); [lia|]. cbn [rbind].
  pose proof (byte_val_range p) as Hp.
  assert (Hs : length (slice (skipn 14 pkt) 12 16) = 4)
    by (unfold slice; rewrite length_take, length_drop; lia).
  assert (Hd : length (slice (skipn 14 pkt) 16 20) = 4)
    by (unfold slice; rewrite length_take, length_drop; lia).
  destruct (is_tcp_udp (byte_val p)).
  - destruct (_ <? _)%Z; [discriminate|].
    intros [= <- <- <- <- <-]. split; [exact Hs|]. split; [exact Hd|]. cbn.
    pose proof (port_range (skipn (Z.to_nat (Z.land (byte_val b0) 15 * 4)) (skipn 14 pkt)) 0).
    pose proof (port_range (skipn (Z.to_nat (Z.land (byte_val b0) 15 * 4)) (skipn 14 pkt)) 2).
    auto.
  - intros [= <- <- <- <- <-]. split; [exact Hs|]. split; [exact Hd|]. cbn. lia.
Qed.

Lemma _ipv6_tuple_Some (pkt s d : list byte) (sp dp pr : Z) :
  _ipv6_tuple pkt = Ok (Some (s, d, sp, dp, pr)) ->
  length s = 16 /\ length d = 16 /\ tuple_in_range (s, d, sp, dp, pr).
Proof.
  unfold _ipv6_tuple.
  destruct (length pkt <? 14 + 40) eqn:Hlen; [discriminate|].
  apply Nat.ltb_ge in Hlen.
  destruct (negb _); [discriminate|].
  assert (Hip : 40 <= length (skipn 14 pkt)) by (rewrite length_drop; lia).
  destruct (index_ok (skipn 14 pkt) 0) as (b0 & -> & _); [lia|]. cbn [rbind].
  destruct (negb _); [discriminate|].
  destruct (index_ok (skipn 14 pkt) 6) as (p & -> & _); [lia|]. cbn [rbind].
  pose proof (byte_val_range p) as Hp.
  assert (Hs : length (slice (skipn 14 pkt) 8 24) = 16)
    by (unfold slice; rewrite length_take, length_drop; lia).
  assert (Hd : length (slice (skipn 14 pkt) 24 40) = 16)
    by (unfold slice; rewrite length_take, length_drop; lia).
  destruct (is_tcp_udp (byte_val p)).
  - destruct (_ <? _); [discriminate|].
    intros [= <- <- <- <- <-]. split; [exact Hs|]. split; [exact Hd|]. cbn.
    pose proof (port_range (skipn 40 (skipn 14 pkt)) 0).
    pose proof (port_range (skipn 40 (skipn 14 pkt)) 2).
    auto.
  - intros [= <- <- <- <- <-]. split; [exact Hs|]. split; [exact Hd|]. cbn. lia.
Qed.

(** The key of an address tuple: the tag, the two addresses, the ports on
    two bytes each, the protocol. *)
Definition tuple_key (tag : byte) (s d : list byte) (sp dp pr : Z) : list byte :=
  [tag] ++ s ++ d ++ be_bytes 2 sp ++ be_bytes 2 dp ++ [byte_of_Z pr].

(** The three outcomes of [tuple_for_packet]. *)
Inductive classified (pkt : list byte) : list byte -> Rep.t -> Prop :=
| is_v4 s d sp dp pr :
    length s = 4 -> length d = 4 -> tuple_in_range (s, d, sp, dp, pr) ->
    classified pkt (tuple_key x34 s d sp dp pr)
               (Rep.mk 4 (_fmt_ipv4 s) (_fmt_ipv4 d) sp dp pr)
| is_v6 s d sp dp pr :
    length s = 16 -> length d = 16 -> tuple_in_range (s, d, sp, dp, pr) ->
    classified pkt (tuple_key x36 s d sp dp pr)
               (Rep.mk 6 (_fmt_ipv6 s) (_fmt_ipv6 d) sp dp pr)
| is_other :
    classified pkt ([x58] ++ firstn 64 pkt) fallback_rep.

Lemma tuple_for_packet_classified (pkt : list byte) :
  exists key rep, tuple_for_packet pkt = Ok (key, rep) /\ classified pkt key rep.
Proof.
  unfold tuple_for_packet.
  destruct (_ipv4_tuple_ok pkt) as (o4 & E4 & _). rewrite E4. cbn [rbind].
  destruct o4 as [[[[[s d] sp] dp] pr]|].
  - destruct (_ipv4_tuple_Some _ _ _ _ _ _ E4) as (Hs & Hd & Hr).
    pose proof Hr as (? & ? & ?). rewrite l3_key_ok by assumption. cbn [rbind].
    eexists _, _. split; [reflexivity|]. apply is_v4; assumption.
  - destruct (_ipv6_tuple_ok pkt) as (o6 & E6 & _). rewrite E6. cbn [rbind].
    destruct o6 as [[[[[s d] sp] dp] pr]|].
    + destruct (_ipv6_tuple_Some _ _ _ _ _ _ E6) as (Hs & Hd & Hr).
      pose proof Hr as (? & ? & ?). rewrite l3_key_ok by assumption. cbn [rbind].
      eexists _, _. split; [reflexivity|]. apply is_v6; assumption.
    + eexists _, _. split; [reflexivity|]. apply is_other.
Qed.

Lemma length_tuple_key (tag : byte) (s d : list byte) (sp dp pr : Z) :
  length (tuple_key tag s d sp dp pr) = length s + length d + 6.
Proof.
  unfold tuple_key. rewrite !length_app, !length_be_bytes. cbn. lia.
Qed.

Lemma tuple_key_inj (tag : byte) (s d s' d' : list byte) (sp dp pr sp' dp' pr' : Z) :
  length s = length s' -> length d = length d' ->
  tuple_in_range (s, d, sp, dp, pr) -> tuple_in_range (s', d', sp', dp', pr') ->
  tuple_key tag s d sp dp pr = tuple_key tag s' d' sp' dp' pr' ->
  s = s' /\ d = d' /\ sp = sp' /\ dp = dp' /\ pr = pr'.
Proof.
  intros Hs Hd (Hsp & Hdp & Hpr) (Hsp' & Hdp' & Hpr') H.
  unfold tuple_key in H.
  pose proof (length_be_bytes 2 sp) as La. pose proof (length_be_bytes 2 sp') as La'.
  pose proof (length_be_bytes 2 dp) as Lb. pose proof (length_be_bytes 2 dp') as Lb'.
  remember (be_bytes 2 sp) as a eqn:Ea. remember (be_bytes 2 sp') as a' eqn:Ea'.
  remember (be_bytes 2 dp) as b eqn:Eb. remember (be_bytes 2 dp') as b' eqn:Eb'.
  apply app_inj_1 in H; [|reflexivity]. destruct H as [_ H].
  apply app_inj_1 in H; [|exact Hs]. destruct H as [-> H].
  apply app_inj_1 in H; [|exact Hd]. destruct H as [-> H].
  apply app_inj_1 in H; [|congruence]. destruct H as [H1 H].
  apply app_inj_1 in H; [|congruence]. destruct H as [H2 H].
  injection H as H3. subst a a' b b'.
  apply (f_equal int_from_bytes_big) in H1, H2.
  rewrite !be_bytes_value in H1, H2 by assumption.
  apply (f_equal byte_val) in H3. rewrite !byte_val_of_Z, !Z.mod_small in H3 by assumption.
  auto.
Qed.

(** X1.  Classification always succeeds with a key of one of three shapes:
    the byte 0x34 and 13 more for an IPv4 packet, the byte 0x36 and 37 more
    for an IPv6 packet, and otherwise the byte 0x58 followed by the first 64
    bytes of the packet (all of it when it is shorter), with the placeholder
    tuple. *)
Theorem flow_key_shape (pkt : list byte) :
  exists key rep,
    tuple_for_packet pkt = Ok (key, rep)
    /\ ((Rep.ip_ver rep = 4%Z /\ length key = 14 /\ head key = Some x34)
        \/ (Rep.ip_ver rep = 6%Z /\ length key = 38 /\ head key = Some x36)
        \/ (rep = fallback_rep /\ key = x58 :: firstn 64 pkt
            /\ length key = 1 + Nat.min 64 (length pkt))).
Proof.
  destruct (tuple_for_packet_classified pkt) as (key & rep & E & Hc).
  exists key, rep. split; [exact E|].
  destruct Hc as [s d sp dp pr Hs Hd _|s d sp dp pr Hs Hd _|].
  - left. rewrite length_tuple_key, Hs, Hd. auto.
  - right; left. rewrite length_tuple_key, Hs, Hd. auto.
  - right; right. split; [reflexivity|]. split; [reflexivity|].
    cbn [app length]. rewrite length_take. reflexivity.
Qed.

(** X2.  The key decides the tuple shown in the shard map: two packets with
    the same key have the same display tuple, whichever of them is seen
    first. *)
Theorem same_key_same_display (p1 p2 : list byte) :
  flow_key p1 = flow_key p2 -> flow_rep p1 = flow_rep p2.
Proof.
  unfold flow_key, flow_rep.
  destruct (tuple_for_packet_classified p1) as (k1 & r1 & -> & H1).
  destruct (tuple_for_packet_classified p2) as (k2 & r2 & -> & H2).
  destruct H1 as [s d sp dp pr Hs Hd Hr|s d sp dp pr Hs Hd Hr|];
    destruct H2 as [s' d' sp' dp' pr' Hs' Hd' Hr'|s' d' sp' dp' pr' Hs' Hd' Hr'|];
    intros Hk; try discriminate Hk; try reflexivity.
  - apply tuple_key_inj in Hk; try assumption; try congruence.
    destruct Hk as (-> & -> & -> & -> & ->). reflexivity.
  - apply tuple_key_inj in Hk; try assumption; try congruence.
    destruct Hk as (-> & -> & -> & -> & ->). reflexivity.
Qed.


(** 10.0.0.1:1234 -> 10.0.0.2:80 once more, with two bytes of payload. *)
Definition ex_pkt_a_payload : list byte :=
  ex_ipv4 6 [10; 0; 0; 1]%Z [10; 0; 0; 2]%Z [4; 210; 0; 80; 9; 9]%Z.

Lemma same_key_same_display_witness :
  flow_rep ex_pkt_a = flow_rep ex_pkt_a_payload.
Proof.
  apply (same_key_same_display ex_pkt_a ex_pkt_a_payload).
  vm_compute. reflexivity.
Defined.

(** X3.  An Ethernet frame of at least 34 bytes with ether-type 0x0800 and
    IP version 4 whose declared header length [ihl] lies within the packet
    gets the key 0x34, source, destination, ports, protocol.  For TCP and
    UDP (with 4 bytes present at offset [ihl]) the ports are the two
    big-endian 16-bit numbers at offset [ihl] of the IP header, whatever
    [ihl] is, also below 20; for any other protocol they are 0. *)
Theorem ipv4_key_and_ports (pkt : list byte) (b0 p : byte) :
  34 <= length pkt ->
  int_from_bytes_big (slice pkt 12 14) = 0x0800%Z ->
  nth_error (skipn 14 pkt) 0 = Some b0 ->
  Z.shiftr (byte_val b0) 4 = 4%Z ->
  nth_error (skipn 14 pkt) 9 = Some p ->
  (Z.land (byte_val b0) 15 * 4 + (if is_tcp_udp (byte_val p) then 4 else 0)
   <= Z.of_nat (length (skipn 14 pkt)))%Z ->
  tuple_for_packet pkt
  = let ip := skipn 14 pkt in
    let l4 := skipn (Z.to_nat (Z.land (byte_val b0) 15 * 4)) ip in
    let sp := if is_tcp_udp (byte_val p)
              then int_from_bytes_big (slice l4 0 2) else 0%Z in
    let dp := if is_tcp_udp (byte_val p)
              then int_from_bytes_big (slice l4 2 4) else 0%Z in
    Ok ([x34] ++ slice ip 12 16 ++ slice ip 16 20 ++ be_bytes 2 sp
          ++ be_bytes 2 dp ++ [p],
        Rep.mk 4 (_fmt_ipv4 (slice ip 12 16)) (_fmt_ipv4 (slice ip 16 20))
               sp dp (byte_val p)).
Proof.
  intros Hlen Heth Hb0 Hver Hp Hihl.
  assert (H4 : _ipv4_tuple pkt
               = Ok (Some (slice (skipn 14 pkt) 12 16, slice (skipn 14 pkt) 16 20,
                           (if is_tcp_udp (byte_val p)
                            then int_from_bytes_big
                                   (slice (skipn (Z.to_nat (Z.land (byte_val b0) 15 * 4))
                                                 (skipn 14 pkt)) 0 2)
                            else 0%Z),
                           (if is_tcp_udp (byte_val p)
                            then int_from_bytes_big
                                   (slice (skipn (Z.to_nat (Z.land (byte_val b0) 15 * 4))
                                                 (skipn 14 pkt)) 2 4)
                            else 0%Z),
                           byte_val p))).
  { unfold _ipv4_tuple.
    replace (length pkt <? 14 + 20) with false by (symmetry; apply Nat.ltb_ge; lia).
    rewrite Heth. cbn [Z.eqb Pos.eqb negb]. unfold index. rewrite Hb0. cbn [rbind].
    rewrite Hver. cbn [Z.eqb Pos.eqb negb]. change 0x0F%Z with 15%Z.
    rewrite Hp. cbn [rbind].
    destruct (is_tcp_udp (byte_val p)).
    - replace (_ <? Z.land (byte_val b0) 15 * 4)%Z with false
        by (symmetry; apply Z.ltb_ge; lia).
      replace (_ <? Z.land (byte_val b0) 15 * 4 + 4)%Z with false
        by (symmetry; apply Z.ltb_ge; lia).
      reflexivity.
    - replace (_ <? Z.land (byte_val b0) 15 * 4)%Z with false
        by (symmetry; apply Z.ltb_ge; lia).
      reflexivity. }
  unfold tuple_for_packet. rewrite H4. cbn [rbind].
  destruct (_ipv4_tuple_Some _ _ _ _ _ _ H4) as (_ & _ & Hsp & Hdp & Hpr).
  rewrite l3_key_ok by assumption. cbn [rbind]. cbv zeta.
  rewrite byte_of_Z_val. reflexivity.
Qed.

Lemma ipv4_key_and_ports_witness :
  tuple_for_packet ex_pkt_a
  = let ip := skipn 14 ex_pkt_a in
    let l4 := skipn (Z.to_nat (Z.land (byte_val x45) 15 * 4)) ip in
    let sp := if is_tcp_udp (byte_val x06)
              then int_from_bytes_big (slice l4 0 2) else 0%Z in
    let dp := if is_tcp_udp (byte_val x06)
              then int_from_bytes_big (slice l4 2 4) else 0%Z in
    Ok ([x34] ++ slice ip 12 16 ++ slice ip 16 20 ++ be_bytes 2 sp
          ++ be_bytes 2 dp ++ [x06],
        Rep.mk 4 (_fmt_ipv4 (slice ip 12 16)) (_fmt_ipv4 (slice ip 16 20))
               sp dp (byte_val x06)).
Proof.
  apply (ipv4_key_and_ports ex_pkt_a x45 x06);
    vm_compute; first [reflexivity | discriminate | lia].
Defined.

(** X4.  An Ethernet frame of at least 54 bytes with ether-type 0x86DD and
    IP version 6 gets the key 0x36, source, destination, ports, next
    header.  The ports are read at offset 40 of the IP header when the
    next-header byte itself is TCP or UDP (and 4 bytes are present there);
    for any other next header, an extension header included, they are 0. *)
Theorem ipv6_key_and_ports (pkt : list byte) (b0 p : byte) :
  54 <= length pkt ->
  int_from_bytes_big (slice pkt 12 14) = 0x86DD%Z ->
  nth_error (skipn 14 pkt) 0 = Some b0 ->
  Z.shiftr (byte_val b0) 4 = 6%Z ->
  nth_error (skipn 14 pkt) 6 = Some p ->
  (if is_tcp_udp (byte_val p) then 58 <= length pkt else True) ->
  tuple_for_packet pkt
  = let ip := skipn 14 pkt in
    let l4 := skipn 40 ip in
    let sp := if is_tcp_udp (byte_val p)
              then int_from_bytes_big (slice l4 0 2) else 0%Z in
    let dp := if is_tcp_udp (byte_val p)
              then int_from_bytes_big (slice l4 2 4) else 0%Z in
    Ok ([x36] ++ slice ip 8 24 ++ slice ip 24 40 ++ be_bytes 2 sp
          ++ be_bytes 2 dp ++ [p],
        Rep.mk 6 (_fmt_ipv6 (slice ip 8 24)) (_fmt_ipv6 (slice ip 24 40))
               sp dp (byte_val p)).
Proof.
  intros Hlen Heth Hb0 Hver Hp Hl4.
  assert (H4 : _ipv4_tuple pkt = Ok None).
  { unfold _ipv4_tuple. destruct (length pkt <? 14 + 20); [reflexivity|].
    rewrite Heth. reflexivity. }
  assert (H6 : _ipv6_tuple pkt
               = Ok (Some (slice (skipn 14 pkt) 8 24, slice (skipn 14 pkt) 24 40,
                           (if is_tcp_udp (byte_val p)
                            then int_from_bytes_big
                                   (slice (skipn 40 (skipn 14 pkt)) 0 2)
                            else 0%Z),
                           (if is_tcp_udp (byte_val p)
                            then int_from_bytes_big
                                   (slice (skipn 40 (skipn 14 pkt)) 2 4)
                            else 0%Z),
                           byte_val p))).
  { unfold _ipv6_tuple.
    replace (length pkt <? 14 + 40) with false by (symmetry; apply Nat.ltb_ge; lia).
    rewrite Heth. cbn [Z.eqb Pos.eqb negb]. unfold index. rewrite Hb0. cbn [rbind].
    rewrite Hver. cbn [Z.eqb Pos.eqb negb].
    rewrite Hp. cbn [rbind].
    destruct (is_tcp_udp (byte_val p)); [|reflexivity].
    replace (length (skipn 14 pkt) <? 40 + 4) with false
      by (symmetry; apply Nat.ltb_ge; rewrite length_drop; lia).
    reflexivity. }
  unfold tuple_for_packet. rewrite H4. cbn [rbind]. rewrite H6. cbn [rbind].
  destruct (_ipv6_tuple_Some _ _ _ _ _ _ H6) as (_ & _ & Hsp & Hdp & Hpr).
  rewrite l3_key_ok by assumption. cbn [rbind]. cbv zeta.
  rewrite byte_of_Z_val. reflexivity.
Qed.

(** An IPv6 frame: ::1 -> ::2 with next header [nxt] and [l4] after the
    fixed header. *)
Definition ex_ipv6 (nxt : Z) (l4 : list Z) : list byte :=
  bytes_of ([0; 0; 0; 0; 0; 1; 0; 0; 0; 0; 0; 2; 0x86; 0xdd]
            ++ [0x60; 0; 0; 0; 0; 8; nxt; 64]
            ++ [0; 0; 0; 0; 0; 0; 0; 0; 0; 0; 0; 0; 0; 0; 0; 1]
            ++ [0; 0; 0; 0; 0; 0; 0; 0; 0; 0; 0; 0; 0; 0; 0; 2]
            ++ l4)%Z.

(** A hop-by-hop extension header (next header 0) before a TCP segment. *)
Definition ex_pkt_v6_ext : list byte :=
  ex_ipv6 0 [6; 0; 0; 0; 0; 0; 0; 0; 4; 210; 0; 80]%Z.

Lemma ipv6_key_and_ports_witness :
  tuple_for_packet ex_pkt_v6_ext
  = let ip := skipn 14 ex_pkt_v6_ext in
    let l4 := skipn 40 ip in
    let sp := if is_tcp_udp (byte_val x00)
              then int_from_bytes_big (slice l4 0 2) else 0%Z in
    let dp := if is_tcp_udp (byte_val x00)
              then int_from_bytes_big (slice l4 2 4) else 0%Z in
    Ok ([x36] ++ slice ip 8 24 ++ slice ip 24 40 ++ be_bytes 2 sp
          ++ be_bytes 2 dp ++ [x00],
        Rep.mk 6 (_fmt_ipv6 (slice ip 8 24)) (_fmt_ipv6 (slice ip 24 40))
               sp dp (byte_val x00)).
Proof.
  apply (ipv6_key_and_ports ex_pkt_v6_ext x60 x00);
    vm_compute; first [reflexivity | discriminate | lia | exact I].
Defined.

(** The extension header hides the ports: the tuple shows 0 for both. *)
Example ex_v6_ext_ports :
  flow_rep ex_pkt_v6_ext
  = Rep.mk 6 (s2l "0000:0000:0000:0000:0000:0000:0000:0001")
           (s2l "0000:0000:0000:0000:0000:0000:0000:0002") 0 0 0.
Proof. vm_compute. reflexivity. Qed.

End Keys.

(** ** What the pass keeps *)

Section Conservation.

Import SplitPcap.

(** The packets a list of shard-map rows accounts for. *)
Definition total_packets (rows : list Flow.t) : Z :=
  fold_right (fun v acc => (Flow.pkt_count v + acc)%Z) 0%Z rows.

(** The bytes a list of files holds. *)
Definition total_bytes (fs : list (list byte)) : nat :=
  fold_right (fun f acc => length f + acc) 0 fs.

Lemma total_packets_app (a b : list Flow.t) :
  total_packets (a ++ b) = (total_packets a + total_packets b)%Z.
Proof.
  unfold total_packets. induction a as [|v a IH]; cbn; [reflexivity|].
  rewrite IH. lia.
Qed.

Lemma total_packets_perm (a b : list Flow.t) :
  Permutation a b -> total_packets a = total_packets b.
Proof. unfold total_packets. induction 1; cbn; lia. Qed.

Lemma fm_incr_total (k : list byte) (m : flow_map) :
  fm_mem k m = true ->
  total_packets (map snd (fm_incr k m)) = (total_packets (map snd m) + 1)%Z.
Proof.
  unfold total_packets. induction m as [|[k' v] m IH]; cbn; [discriminate|].
  destruct (bytes_eqb k k'); cbn; [lia|]. intros H. rewrite (IH H). lia.
Qed.

Lemma fm_update_total (k : list byte) (w : Z) (rep : Rep.t) (m : flow_map) :
  total_packets (map snd (fm_update k w rep m))
  = (total_packets (map snd m) + 1)%Z.
Proof.
  unfold fm_update. destruct (fm_mem k m) eqn:E; cbn [negb].
  - apply fm_incr_total. exact E.
  - rewrite List.map_app, total_packets_app. reflexivity.
Qed.

Lemma account_total (workers : Z) (rs : list record) :
  forall m, total_packets (map snd (account workers rs m))
            = (total_packets (map snd m) + Z.of_nat (length rs))%Z.
Proof.
  unfold account. induction rs as [|r rs IH]; intros m; cbn [fold_left length].
  - lia.
  - rewrite IH, fm_update_total. lia.
Qed.

Lemma fm_incr_positive (k : list byte) (m : flow_map) :
  Forall (fun v => (1 <= Flow.pkt_count v)%Z) (map snd m) ->
  Forall (fun v => (1 <= Flow.pkt_count v)%Z) (map snd (fm_incr k m)).
Proof.
  induction m as [|[k' v] m IH]; cbn; [constructor|]. intros H.
  apply Forall_cons_1 in H. destruct H as [Hv Hm].
  destruct (bytes_eqb k k'); cbn; constructor; cbn; auto; lia.
Qed.

Lemma account_positive (workers : Z) (rs : list record) :
  forall m, Forall (fun v => (1 <= Flow.pkt_count v)%Z) (map snd m) ->
            Forall (fun v => (1 <= Flow.pkt_count v)%Z)
                   (map snd (account workers rs m)).
Proof.
  unfold account. induction rs as [|r rs IH]; intros m Hm; cbn [fold_left]; [exact Hm|].
  apply IH. unfold fm_update. destruct (fm_mem _ m); cbn [negb].
  - apply fm_incr_positive. exact Hm.
  - rewrite map_app. apply Forall_app. split; [exact Hm|].
    repeat constructor. cbn. lia.
Qed.

(** X5.  The packet counts of the shard map add up to the number of
    complete records of the capture, and every row counts at least one
    packet. *)
Theorem flow_counts_add_up (data : list byte) (workers : Z) :
  (1 <= workers)%Z -> 24 <= length data ->
  exists out rows rs tail,
    split_pcap_flowhash data workers = Ok out
    /\ framed (skipn 24 data) rs tail
    /\ worker_map out = write_worker_map_log rows
    /\ total_packets rows = Z.of_nat (length rs)
    /\ Forall (fun v => (1 <= Flow.pkt_count v)%Z) rows.
Proof.
  intros Hw Hlen. destruct (framing_exists (skipn 24 data)) as (rs & tail & Hf).
  eexists _, _, rs, tail.
  split; [apply (split_framed data workers rs tail Hw Hlen Hf)|].
  split; [exact Hf|]. split; [reflexivity|]. split.
  - rewrite <- (total_packets_perm _ _ (py_sort_perm key_lt row_key _)).
    rewrite account_total. reflexivity.
  - pose proof (account_positive workers rs [] ltac:(constructor)) as Hp.
    rewrite List.Forall_forall in *. intros v Hv. apply Hp.
    apply (Permutation_in _ (Permutation_sym (py_sort_perm key_lt row_key _))).
    exact Hv.
Qed.

Lemma flow_counts_add_up_witness :
  exists out rows rs tail,
    split_pcap_flowhash ex_capture 2 = Ok out
    /\ framed (skipn 24 ex_capture) rs tail
    /\ worker_map out = write_worker_map_log rows
    /\ total_packets rows = Z.of_nat (length rs)
    /\ Forall (fun v => (1 <= Flow.pkt_count v)%Z) rows.
Proof.
  apply (flow_counts_add_up ex_capture 2); [lia | simpl; lia].
Defined.

Lemma total_bytes_alter (x : list byte) (o : list (list byte)) :
  forall i, i < length o ->
    total_bytes (alter (fun f => f ++ x) i o) = total_bytes o + length x.
Proof.
  unfold total_bytes. induction o as [|f o IH]; intros i Hi; [cbn in Hi; lia|].
  destruct i as [|i]; cbn.
  - rewrite length_app. lia.
  - cbn in Hi. rewrite IH by lia. lia.
Qed.

Lemma total_bytes_replicate (n : nat) (h : list byte) :
  total_bytes (replicate n h) = n * length h.
Proof.
  unfold total_bytes. induction n as [|n IH]; cbn; [reflexivity|]. rewrite IH. lia.
Qed.

Lemma total_bytes_deliver (workers : Z) (rs : list record) :
  (1 <= workers)%Z ->
  forall o, length o = Z.to_nat workers ->
    total_bytes (deliver workers rs o)
    = total_bytes o + length (concat (map rec_bytes rs)).
Proof.
  intros Hw. unfold deliver.
  induction rs as [|r rs IH]; intros o Ho; cbn [fold_left map concat].
  - cbn. lia.
  - rewrite IH by (rewrite length_alter; exact Ho).
    rewrite total_bytes_alter.
    + rewrite length_app. lia.
    + rewrite Ho. unfold shard_index.
      pose proof (Z.mod_pos_bound (_hash_key (flow_key (snd r))) workers ltac:(lia)).
      lia.
Qed.

(** X6.  No byte of a complete record is lost or written twice: the shard
    files together hold one global header each and the capture's body
    without its truncated rest. *)
Theorem shards_hold_every_byte_once (data : list byte) (workers : Z) :
  (1 <= workers)%Z -> 24 <= length data ->
  exists out rs tail,
    split_pcap_flowhash data workers = Ok out
    /\ framed (skipn 24 data) rs tail
    /\ total_bytes (shards out) + length tail
       = 24 * Z.to_nat workers + (length data - 24).
Proof.
  intros Hw Hlen. destruct (framing_exists (skipn 24 data)) as (rs & tail & Hf).
  eexists _, rs, tail.
  split; [apply (split_framed data workers rs tail Hw Hlen Hf)|].
  split; [exact Hf|]. cbn [shards].
  rewrite total_bytes_deliver by (try apply length_replicate; exact Hw).
  rewrite total_bytes_replicate, length_take, Nat.min_l by lia.
  destruct Hf as (Hb & _ & _).
  apply (f_equal (@length byte)) in Hb. rewrite length_drop, length_app in Hb. lia.
Qed.

Lemma shards_hold_every_byte_once_witness :
  exists out rs tail,
    split_pcap_flowhash ex_capture 2 = Ok out
    /\ framed (skipn 24 ex_capture) rs tail
    /\ total_bytes (shards out) + length tail
       = 24 * Z.to_nat 2 + (length ex_capture - 24).
Proof.
  apply (shards_hold_every_byte_once ex_capture 2); [lia | simpl; lia].
Defined.

Lemma filter_all {A : Type} (f : A -> bool) (l : list A) :
  (forall x, f x = true) -> List.filter f l = l.
Proof.
  intros H. induction l as [|x l IH]; cbn; [reflexivity|]. rewrite H, IH. reflexivity.
Qed.

(** X7.  With one worker the only shard is the capture itself, cut before
    its truncated rest. *)
Theorem one_worker_copies_capture (data : list byte) :
  24 <= length data ->
  exists out kept tail,
    split_pcap_flowhash data 1 = Ok out
    /\ shards out = [kept]
    /\ data = kept ++ tail
    /\ truncated tail.
Proof.
  intros Hlen. destruct (framing_exists (skipn 24 data)) as (rs & tail & Hf).
  eexists _, (firstn 24 data ++ concat (map rec_bytes rs)), tail.
  split; [apply (split_framed data 1 rs tail ltac:(lia) Hlen Hf)|].
  destruct Hf as (Hb & Hrs & Ht). cbn [shards].
  split; [|split; [|exact Ht]].
  2:{ rewrite <- app_assoc, <- Hb. symmetry. apply take_drop. }
  pose proof (lookup_deliver 1 rs (replicate (Z.to_nat 1) (firstn 24 data)) 0) as H0.
  pose proof (length_deliver 1 rs (replicate (Z.to_nat 1) (firstn 24 data))) as Hl.
  rewrite filter_all in H0.
  2:{ intros r. unfold on_shard, shard_index. rewrite Z.mod_1_r. reflexivity. }
  cbn in H0, Hl.
  destruct (deliver 1 rs _) as [|f [|g o]]; cbn in Hl; try discriminate Hl.
  cbn in H0. injection H0 as ->. reflexivity.
Qed.

Lemma one_worker_copies_capture_witness :
  exists out kept tail,
    split_pcap_flowhash ex_capture 1 = Ok out
    /\ shards out = [kept]
    /\ ex_capture = kept ++ tail
    /\ truncated tail.
Proof.
  apply (one_worker_copies_capture ex_capture). simpl; lia.
Defined.

Lemma filter_complete (f : record -> bool) (rs : list record) :
  Forall complete rs -> Forall complete (List.filter f rs).
Proof.
  intros H. rewrite List.Forall_forall in *. intros r Hr.
  apply List.filter_In in Hr. apply H, Hr.
Qed.

Lemma filter_on_shard_twice (workers : Z) (i j : nat) (rs : list record) :
  List.filter (on_shard workers j) (List.filter (on_shard workers i) rs)
  = if j =? i then List.filter (on_shard workers i) rs else [].
Proof.
  induction rs as [|r rs IH]; cbn [List.filter]; [destruct (j =? i); reflexivity|].
  destruct (on_shard workers i r) eqn:Ei; cbn [List.filter]; [|exact IH].
  rewrite IH. unfold on_shard in *. apply Nat.eqb_eq in Ei. rewrite Ei.
  rewrite (Nat.eqb_sym i j). destruct (j =? i); reflexivity.
Qed.

(** X8.  Splitting a shard again with the same worker count sends every
    record of it to the same shard: that output is the shard itself, and
    every other output holds the global header and nothing else. *)
Theorem shard_is_stable_under_resplit (data : list byte) (workers : Z) (i : nat) :
  (1 <= workers)%Z -> 24 <= length data -> i < Z.to_nat workers ->
  exists out s out',
    split_pcap_flowhash data workers = Ok out
    /\ shards out !! i = Some s
    /\ split_pcap_flowhash s workers = Ok out'
    /\ forall j, j < Z.to_nat workers ->
         shards out' !! j = Some (if j =? i then s else firstn 24 data).
Proof.
  intros Hw Hlen Hi. destruct (framing_exists (skipn 24 data)) as (rs & tail & Hf).
  set (hdr := firstn 24 data).
  set (rs_i := List.filter (on_shard workers i) rs).
  assert (Hh : length hdr = 24) by (unfold hdr; rewrite length_take; lia).
  assert (Hf' : framed (skipn 24 (hdr ++ concat (map rec_bytes rs_i))) rs_i []).
  { rewrite <- Hh, drop_app_length. repeat split.
    - symmetry. apply app_nil_r.
    - apply filter_complete. apply Hf.
    - left. cbn. lia. }
  eexists _, (hdr ++ concat (map rec_bytes rs_i)), _.
  split; [apply (split_framed data workers rs tail Hw Hlen Hf)|]. cbn [shards].
  split.
  { rewrite lookup_deliver, lookup_replicate_2 by exact Hi. reflexivity. }
  split.
  { apply (split_framed _ workers rs_i [] Hw); [rewrite length_app; lia | exact Hf']. }
  intros j Hj. cbn [shards].
  rewrite lookup_deliver, lookup_replicate_2 by exact Hj. cbn.
  rewrite <- Hh at 1. rewrite take_app_length.
  unfold rs_i at 1. rewrite filter_on_shard_twice.
  destruct (j =? i); [reflexivity|]. cbn. rewrite app_nil_r. reflexivity.
Qed.

Lemma shard_is_stable_under_resplit_witness :
  exists out s out',
    split_pcap_flowhash ex_capture 2 = Ok out
    /\ shards out !! 0 = Some s
    /\ split_pcap_flowhash s 2 = Ok out'
    /\ forall j, j < Z.to_nat 2 ->
         shards out' !! j = Some (if j =? 0 then s else firstn 24 ex_capture).
Proof.
  apply (shard_is_stable_under_resplit ex_capture 2 0); [lia | simpl; lia | simpl; lia].
Defined.

Lemma route_no_worker (workers : Z) (h p : list byte) (fl : flow_map) :
  (workers <= 0)%Z ->
  route workers h p (mkpass [] fl)
  = Raise (if (workers =? 0)%Z then ZeroDivisionError else IndexError).
Proof.
  intros Hw. unfold route.
  destruct (tuple_for_packet_ok p) as (key & rep & ->). cbn [rbind].
  unfold py_mod. destruct (Z.eqb_spec workers 0) as [E|E]; [reflexivity|].
  cbn [rbind outs length]. unfold resolve_index.
  pose proof (Z.mod_neg_bound (_hash_key key) workers ltac:(lia)) as Hm.
  set (idx := (_hash_key key mod workers)%Z) in *. clearbody idx.
  change (- Z.of_nat 0)%Z with 0%Z. change (Z.of_nat 0) with 0%Z.
  destruct (Z.leb_spec 0 idx), (Z.ltb_spec idx 0); cbn; try reflexivity; lia.
Qed.

(** X9.  A worker count of 0 or less opens no output file.  A capture with
    no complete record then yields no shard and an empty shard map; any
    other capture stops at its first record, with [ZeroDivisionError] for
    0 workers and [IndexError] for a negative count. *)
Theorem no_worker_no_shard (data : list byte) (workers : Z) :
  (workers <= 0)%Z -> 24 <= length data ->
  exists rs tail,
    framed (skipn 24 data) rs tail
    /\ split_pcap_flowhash data workers
       = match rs with
         | [] => Ok (mkoutput [] (write_worker_map_log []))
         | _ :: _ =>
             Raise (if (workers =? 0)%Z then ZeroDivisionError else IndexError)
         end.
Proof.
  intros Hw Hlen. destruct (framing_exists (skipn 24 data)) as (rs & tail & Hf).
  exists rs, tail. split; [exact Hf|]. destruct Hf as (Hbody & Hrs & Ht).
  unfold split_pcap_flowhash, PCAP_GLOBAL_HDR_LEN.
  replace (length data <? 24) with false by (symmetry; apply Nat.ltb_ge; lia).
  replace (Z.to_nat workers) with 0 by lia. cbn [replicate map].
  assert (Hdata : data = firstn 24 data ++ concat (map rec_bytes rs) ++ tail).
  { rewrite <- Hbody. symmetry. apply take_drop. }
  assert (Hpre : length (firstn 24 data) = 24) by (rewrite length_take; lia).
  remember (firstn 24 data) as hdr eqn:Hh. clear Hh Hbody Hlen. subst data.
  match goal with
  | |- context [split_loop ?f ?d ?w 24 ?s] =>
      replace (split_loop f d w 24 s) with (split_loop f d w (length hdr) s)
        by (rewrite Hpre; reflexivity)
  end.
  rewrite split_loop_framed; try assumption.
  2:{ pose proof (complete_length rs Hrs) as Hc. rewrite !length_app. lia. }
  destruct rs as [|[h p] rs]; [reflexivity|].
  cbn [route_all fst snd]. rewrite route_no_worker by exact Hw. reflexivity.
Qed.

Lemma no_worker_no_shard_witness :
  exists rs tail,
    framed (skipn 24 ex_capture) rs tail
    /\ split_pcap_flowhash ex_capture (-1)
       = match rs with
         | [] => Ok (mkoutput [] (write_worker_map_log []))
         | _ :: _ =>
             Raise (if (-1 =? 0)%Z then ZeroDivisionError else IndexError)
         end.
Proof.
  apply (no_worker_no_shard ex_capture (-1)); [lia | simpl; lia].
Defined.

End Conservation.

(** ** The order of the shard map *)

Section MapOrder.

Import SplitPcap.
















End MapOrder.

(** ** The merger: reading, writing and merging again *)

Section SortedInput.

Context {A K : Type} (lt : K -> K -> bool) (key : A -> K).

(** The sort leaves a list alone in which no element comes after a later
    one. *)
Lemma py_sort_of_sorted (l : list A) :
  StronglySorted (not_after lt key) l -> py_sort lt key l = l.
Proof.
  intros Hs. unfold py_sort.
  assert (H : forall racc,
            (forall y x, head racc = Some y -> In x l -> lt (key x) (key y) = false) ->
            fold_left (fun r x => insert_rev lt key x r) l racc = rev l ++ racc).
  { induction Hs as [|x l Hs IH Hx]; intros racc Hr; cbn [fold_left rev]; [reflexivity|].
    assert (Hi : insert_rev lt key x racc = x :: racc).
    { destruct racc as [|y racc]; [reflexivity|]. cbn [insert_rev].
      rewrite (Hr y x eq_refl (or_introl eq_refl)). reflexivity. }
    rewrite Hi, IH.
    - rewrite <- app_assoc. reflexivity.
    - intros y z [= <-] Hz. rewrite List.Forall_forall in Hx. apply (Hx z Hz). }
  rewrite H by (intros y x [=]). rewrite app_nil_r. apply rev_involutive.
Qed.

End SortedInput.

Section MergeAgain.

Import MergeLogs.

Variable float : str -> option spec_float.

(** The field list in force after the header lines [hs]. *)
Definition fields_after (f : list str) (hs : list str) : list str :=
  fold_left (fun f h => if startswith h (s2l "#fields")
                        then tail (split_on TAB h) else f) hs f.

(** A row that splitting its line gives back. *)
Definition split_row (r : list str) : Prop := split_on TAB (join [TAB] r) = r.

Lemma read_line_fields (st : read_state) (raw : str) :
  snd (fst st) = fields_after [] (fst (fst st)) ->
  Forall split_row (snd st) ->
  snd (fst (read_line st raw)) = fields_after [] (fst (fst (read_line st raw)))
  /\ Forall split_row (snd (read_line st raw)).
Proof.
  destruct st as [[h f] r]. cbn [fst snd]. intros Hf Hr. unfold read_line.
  destruct (startswith (rstrip_lf raw) (s2l "#")) eqn:E.
  - destruct (startswith (rstrip_lf raw) (s2l "#fields")) eqn:E'; cbn [fst snd];
      (split; [|exact Hr]); unfold fields_after; rewrite fold_left_app;
      cbn [fold_left]; rewrite E'; [reflexivity | exact Hf].
  - destruct (rstrip_lf raw) as [|c l] eqn:El; cbn [fst snd]; [auto|].
    split; [exact Hf|]. apply Forall_app. split; [exact Hr|].
    constructor; [|constructor]. unfold split_row. rewrite join_split_on. reflexivity.
Qed.

Lemma _read_zeek_log_fields (content : str) :
  fields_of content = fields_after [] (header_of content)
  /\ Forall split_row (rows_of content).
Proof.
  unfold header_of, fields_of, rows_of, _read_zeek_log.
  assert (H : forall lines st,
            snd (fst st) = fields_after [] (fst (fst st)) ->
            Forall split_row (snd st) ->
            snd (fst (fold_left read_line lines st))
            = fields_after [] (fst (fst (fold_left read_line lines st)))
            /\ Forall split_row (snd (fold_left read_line lines st))).
  { induction lines as [|raw lines IH]; intros st Hf Hr; cbn [fold_left]; [auto|].
    destruct (read_line_fields st raw Hf Hr). apply IH; assumption. }
  apply H; [reflexivity | constructor].
Qed.

Lemma read_header_lines (hs : list str) :
  Forall hdr_line hs ->
  forall h0 f0 r0,
    fold_left read_line (map (fun l => l ++ [LF]) hs) (h0, f0, r0)
    = (h0 ++ hs, fields_after f0 hs, r0).
Proof.
  induction 1 as [|h hs [Hc Hcom] _ IH]; intros h0 f0 r0; cbn [map fold_left].
  - rewrite app_nil_r. reflexivity.
  - unfold read_line at 2. rewrite rstrip_lf_line by (apply clean_no_lf; exact Hc).
    unfold is_comment in Hcom. rewrite Hcom.
    destruct (startswith h (s2l "#fields")) eqn:E; rewrite IH, <- app_assoc;
      unfold fields_after; cbn [fold_left app]; rewrite E; reflexivity.
Qed.

Lemma read_data_lines (rows : list (list str)) :
  Forall data_cols rows -> Forall split_row rows ->
  forall h0 f0 r0,
    fold_left read_line (map (fun l => l ++ [LF]) (map (join [TAB]) rows)) (h0, f0, r0)
    = (h0, f0, r0 ++ rows).
Proof.
  induction 1 as [|r rows (Hc & Hne & Hcom) _ IH]; intros Hs h0 f0 r0; cbn [map fold_left].
  - rewrite app_nil_r. reflexivity.
  - apply Forall_cons_1 in Hs. destruct Hs as [Hr Hs].
    unfold read_line at 2. rewrite rstrip_lf_line by (apply clean_no_lf; exact Hc).
    unfold is_comment in Hcom. rewrite Hcom.
    destruct (join [TAB] r) as [|c l] eqn:Ej; [congruence|].
    rewrite <- Ej, Hr, (IH Hs), <- app_assoc. reflexivity.
Qed.

(** A file of header lines followed by data lines, read back. *)
Lemma _read_zeek_log_written (hs : list str) (rows : list (list str)) :
  Forall hdr_line hs -> Forall data_cols rows -> Forall split_row rows ->
  _read_zeek_log (concat (map (fun l => l ++ [LF]) (hs ++ map (join [TAB]) rows)))
  = (hs, fields_after [] hs, rows).
Proof.
  intros Hh Hd Hs. unfold _read_zeek_log. rewrite file_lines_written.
  - rewrite map_app, fold_left_app, (read_header_lines hs Hh).
    rewrite (read_data_lines rows Hd Hs). reflexivity.
  - apply Forall_app. split.
    + revert Hh. apply List.Forall_impl. intros h [Hc _]. exact Hc.
    + apply List.Forall_forall. intros l Hl. apply in_map_iff in Hl.
      destruct Hl as (r & <- & Hin). rewrite List.Forall_forall in Hd.
      apply (Hd r Hin).
Qed.

Lemma merged_rows_ok (p0 : str) (ps : list str) :
  merged_rows float (p0 :: ps)
  = Ok (match _ts_index (fields_of p0) with
        | Some ts_i => py_sort SFltb (_ts_val float ts_i)
                               (concat (map rows_of (p0 :: ps)))
        | None => concat (map rows_of (p0 :: ps))
        end).
Proof.
  unfold merged_rows, fields_of. cbn [index nth_error rbind].
  rewrite concat_rows_concat. destruct (_read_zeek_log p0) as [[h f] r].
  cbn [fst snd]. destruct (_ts_index f); reflexivity.
Qed.

Lemma merge_one_ok (p0 : str) (ps : list str) :
  exists rows,
    merged_rows float (p0 :: ps) = Ok rows
    /\ Permutation (concat (map rows_of (p0 :: ps))) rows
    /\ merge_one float (p0 :: ps)
       = Ok (concat (map (fun l => l ++ [LF])
                         (header_of p0 ++ map (join [TAB]) rows))).
Proof.
  eexists. split; [apply merged_rows_ok|]. split.
  - destruct (_ts_index (fields_of p0)); [apply py_sort_perm | reflexivity].
  - unfold merge_one, header_of. cbn [index nth_error rbind]. rewrite merged_rows_ok.
    destruct (_read_zeek_log p0) as [[h f] r]. cbn [rbind fst].
    rewrite map_app, concat_app, map_map. reflexivity.
Qed.

Lemma merge_one_read (p0 : str) (ps : list str) :
  exists rows text,
    merged_rows float (p0 :: ps) = Ok rows
    /\ merge_one float (p0 :: ps) = Ok text
    /\ text = concat (map (fun l => l ++ [LF])
                          (header_of p0 ++ map (join [TAB]) rows))
    /\ _read_zeek_log text = (header_of p0, fields_of p0, rows).
Proof.
  destruct (merge_one_ok p0 ps) as (rows & Hr & Hperm & Ht).
  eexists rows, _. split; [exact Hr|]. split; [exact Ht|]. split; [reflexivity|].
  destruct (_read_zeek_log_fields p0) as [Hf _]. rewrite Hf.
  apply _read_zeek_log_written.
  - apply _read_zeek_log_inv.
  - apply (Permutation_Forall Hperm). apply Forall_concat.
    apply List.Forall_forall. intros rs Hrs. apply in_map_iff in Hrs.
    destruct Hrs as (p & <- & _). apply _read_zeek_log_inv.
  - apply (Permutation_Forall Hperm). apply Forall_concat.
    apply List.Forall_forall. intros rs Hrs. apply in_map_iff in Hrs.
    destruct Hrs as (p & <- & _). apply _read_zeek_log_fields.
Qed.

(** X11.  What the merger writes it reads back: provided no ts value of
    the rows reads as NaN, the merged text of a log parses, with
    [_read_zeek_log], to the header lines and the field list of the first
    file and to the merged rows. *)
Theorem merged_log_reads_back (paths : list str) (text : str) :
  merge_one float paths = Ok text ->
  (forall ts_i r p0, nth_error paths 0 = Some p0 ->
                     _ts_index (fields_of p0) = Some ts_i ->
                     In r (concat (map rows_of paths)) ->
                     _ts_val float ts_i r <> S754_nan) ->
  exists p0 rows,
    nth_error paths 0 = Some p0
    /\ merged_rows float paths = Ok rows
    /\ _read_zeek_log text = (header_of p0, fields_of p0, rows).
Proof.
  destruct paths as [|p0 ps]; [discriminate|]. intros Hm _.
  destruct (merge_one_read p0 ps) as (rows & text' & Hr & Ht & _ & Hread).
  rewrite Ht in Hm. injection Hm as <-.
  exists p0, rows. split; [reflexivity|]. split; [exact Hr | exact Hread].
Qed.

(** X12.  Merging is idempotent: a merged log, merged alone, comes out
    unchanged, provided no ts value of the rows reads as NaN. *)
Theorem merge_is_idempotent (paths : list str) (text : str) :
  merge_one float paths = Ok text ->
  (forall ts_i r p0, nth_error paths 0 = Some p0 ->
                     _ts_index (fields_of p0) = Some ts_i ->
                     In r (concat (map rows_of paths)) ->
                     _ts_val float ts_i r <> S754_nan) ->
  merge_one float [text] = Ok text.
Proof.
  destruct paths as [|p0 ps]; [discriminate|]. intros Hm Hnan.
  destruct (merge_one_read p0 ps) as (rows & text' & Hr & Ht & Htext & Hread).
  rewrite Ht in Hm. injection Hm as ->.
  destruct (merge_one_ok text []) as (rows' & Hr' & _ & Ht').
  rewrite Ht'. rewrite merged_rows_ok in Hr'. injection Hr' as <-.
  unfold header_of, fields_of, rows_of. cbn [map concat]. rewrite Hread.
  cbn [fst snd]. rewrite app_nil_r. rewrite Htext. do 4 f_equal.
  clear Htext Hread Ht Ht'.
  rewrite merged_rows_ok in Hr. injection Hr as <-.
  destruct (_ts_index (fields_of p0)) as [ts_i|] eqn:Hts; [|reflexivity].
  f_equal. apply py_sort_of_sorted.
  apply (py_sort_sorted SFltb (_ts_val float ts_i) not_nan SFltb_irrefl
           SFltb_trans SFltb_ge_trans).
  apply List.Forall_forall. intros r Hin. apply (Hnan ts_i r p0 eq_refl Hts Hin).
Qed.

(** X13.  The reader keeps the lines of a file in their order: the header
    is every line that starts with the comment mark, wherever it stands;
    the rows are the other lines that are not empty, each cut at the
    tabs; the field list is that of the last fields line. *)
Theorem reader_keeps_lines_in_order (content : str) :
  header_of content
  = List.filter is_comment (map rstrip_lf (file_lines content))
  /\ rows_of content
     = map (fun raw => split_on TAB (rstrip_lf raw))
           (List.filter data_line (file_lines content))
  /\ fields_of content = fields_after [] (header_of content).
Proof.
  split; [|split; [|apply _read_zeek_log_fields]];
    unfold header_of, rows_of, _read_zeek_log; generalize (file_lines content) as lines.
  - assert (H : forall lines st,
              fst (fst (fold_left read_line lines st))
              = fst (fst st) ++ List.filter is_comment (map rstrip_lf lines)).
    { induction lines as [|raw lines IH]; intros [[h f] r]; cbn [fold_left map List.filter].
      - cbn. symmetry. apply app_nil_r.
      - rewrite IH. unfold read_line, is_comment.
        destruct (startswith (rstrip_lf raw) (s2l "#")).
        + destruct (startswith (rstrip_lf raw) (s2l "#fields")); cbn [fst];
            rewrite <- app_assoc; reflexivity.
        + destruct (rstrip_lf raw); reflexivity. }
    intros lines. apply (H lines ([], [], [])).
  - assert (H : forall lines st,
              snd (fold_left read_line lines st)
              = snd st ++ map (fun raw => split_on TAB (rstrip_lf raw))
                              (List.filter data_line lines)).
    { induction lines as [|raw lines IH]; intros [[h f] r]; cbn [fold_left map List.filter].
      - cbn. symmetry. apply app_nil_r.
      - rewrite IH. unfold read_line, data_line, is_comment.
        destruct (startswith (rstrip_lf raw) (s2l "#")); cbn [negb andb].
        + destruct (startswith (rstrip_lf raw) (s2l "#fields")); reflexivity.
        + destruct (rstrip_lf raw) as [|c l] eqn:E; cbn [is_empty negb snd map];
            [reflexivity|]. rewrite <- app_assoc, <- E. reflexivity. }
    intros lines. apply (H lines ([], [], [])).
Qed.

Lemma merge_each_ok (per_log : list (str * list str)) :
  Forall (fun e => snd e <> []) per_log ->
  exists files,
    merge_each float per_log = Ok files
    /\ map fst files = map fst per_log
    /\ forall n text, In (n, text) files ->
         exists paths, In (n, paths) per_log /\ merge_one float paths = Ok text.
Proof.
  induction 1 as [|[n paths] per_log Hne _ IH]; cbn [merge_each].
  - exists []. repeat split. intros n text [].
  - destruct IH as (files & -> & Hk & Hf). cbn [snd] in Hne.
    destruct paths as [|p0 ps]; [congruence|].
    destruct (merge_one_ok p0 ps) as (rows & _ & _ & E). rewrite E. cbn [rbind].
    eexists. split; [reflexivity|]. split; [cbn; rewrite Hk; reflexivity|].
    intros n' text' [[= <- <-]|Hin].
    + exists (p0 :: ps). split; [left; reflexivity | exact E].
    + destruct (Hf n' text' Hin) as (paths' & Hin' & Hm).
      exists paths'. split; [right; exact Hin' | exact Hm].
Qed.

Lemma in_files_seq (n : str) (ws : listing) :
  In n (map fst (files_seq ws))
  <-> exists w logs text, In (w, Some logs) ws /\ In (n, text) logs.
Proof.
  unfold files_seq. rewrite in_map_iff. split.
  - intros ([n' text] & <- & Hin). apply in_flat_map in Hin.
    destruct Hin as ([w [logs|]] & Hw & Hin); cbn [snd] in Hin; [|contradiction].
    exists w, logs, text. split; [exact Hw|].
    apply (Permutation_in _ (Permutation_sym (py_sort_perm name_lt fst logs))).
    exact Hin.
  - intros (w & logs & text & Hw & Hin). exists (n, text). split; [reflexivity|].
    apply in_flat_map. exists (w, Some logs). split; [exact Hw|]. cbn [snd].
    apply (Permutation_in _ (py_sort_perm name_lt fst logs)). exact Hin.
Qed.

(** X14.  A run of the merger that completes has written one file per log
    name found in some worker's logs directory, no name twice; where no ts
    value of the rows of a name reads as NaN, its file is the merge of the
    files of that name, the workers taken in the order of their names.
    (The listing holds the text read from each entry the pattern [*.log]
    selects: a run in which such an entry cannot be read, a directory of
    that name for one, stops with the error of [open] and is not a
    completed run.) *)
Theorem one_merged_log_per_name (dir : listing) (files : list (str * str)) :
  merge_worker_logs float dir = Ok files ->
  NoDup (map fst files)
  /\ (forall n, In n (map fst files)
                <-> exists w logs text, In (w, Some logs) dir /\ In (n, text) logs)
  /\ (forall n text, In (n, text) files ->
        let paths := texts_named n (files_seq (py_sort name_lt fst dir)) in
        (forall ts_i r p0, nth_error paths 0 = Some p0 ->
                           _ts_index (fields_of p0) = Some ts_i ->
                           In r (concat (map rows_of paths)) ->
                           _ts_val float ts_i r <> S754_nan) ->
        merge_one float paths = Ok text).
Proof.
  unfold merge_worker_logs. rewrite collect_fold.
  destruct (per_log_spec float (files_seq (py_sort name_lt fst dir)))
    as (Hnd & Hkeys & Hvals).
  cbn zeta in Hnd, Hkeys, Hvals.
  set (per_log := fold_left _ (files_seq (py_sort name_lt fst dir)) []) in *.
  destruct (merge_each_ok per_log) as (files' & Hm & Hk & Hf).
  { apply List.Forall_forall. intros [n paths] Hin. apply (Hvals n paths Hin). }
  rewrite Hm. intros [= <-]. rewrite Hk. split; [exact Hnd|]. split.
  - intros n. rewrite Hkeys, in_files_seq. split.
    + intros (w & logs & text & Hw & Hin). exists w, logs, text. split; [|exact Hin].
      apply (Permutation_in _ (Permutation_sym (py_sort_perm name_lt fst dir))).
      exact Hw.
    + intros (w & logs & text & Hw & Hin). exists w, logs, text. split; [|exact Hin].
      apply (Permutation_in _ (py_sort_perm name_lt fst dir)). exact Hw.
  - intros n text Hin. cbv zeta. intros _. destruct (Hf n text Hin) as (paths' & Hp & Hmo).
    destruct (Hvals n paths' Hp) as [_ E]. subst paths'. exact Hmo.
Qed.

End MergeAgain.

Lemma merged_log_reads_back_witness :
  exists p0 rows,
    nth_error [ex_log_1; ex_log_2] 0 = Some p0
    /\ MergeLogs.merged_rows float_lit [ex_log_1; ex_log_2] = Ok rows
    /\ MergeLogs._read_zeek_log ex_merged = (header_of p0, fields_of p0, rows).
Proof.
  apply (merged_log_reads_back float_lit [ex_log_1; ex_log_2] ex_merged).
  - vm_compute. reflexivity.
  - intros ts_i r p0 Hp0 Hts Hin. injection Hp0 as <-.
    vm_compute in Hts. injection Hts as <-.
    vm_compute in Hin.
    destruct Hin as [<-|[<-|[<-|[<-|[]]]]]; vm_compute; discriminate.
Defined.

Lemma one_merged_log_per_name_witness :
  let files := [(s2l "conn.log", ex_merged)] in
  NoDup (map fst files)
  /\ (forall n, In n (map fst files)
                <-> exists w logs text, In (w, Some logs) ex_dir /\ In (n, text) logs)
  /\ (forall n text, In (n, text) files ->
        let paths := texts_named n (files_seq (py_sort MergeLogs.name_lt fst ex_dir)) in
        (forall ts_i r p0, nth_error paths 0 = Some p0 ->
                           MergeLogs._ts_index (fields_of p0) = Some ts_i ->
                           In r (concat (map rows_of paths)) ->
                           MergeLogs._ts_val float_lit ts_i r <> S754_nan) ->
        MergeLogs.merge_one float_lit paths = Ok text).
Proof.
  apply (one_merged_log_per_name float_lit ex_dir [(s2l "conn.log", ex_merged)]).
  vm_compute. reflexivity.
Defined.

Lemma merge_is_idempotent_witness :
  MergeLogs.merge_one float_lit [ex_merged] = Ok ex_merged.
Proof.
  apply (merge_is_idempotent float_lit [ex_log_1; ex_log_2] ex_merged).
  - vm_compute. reflexivity.
  - intros ts_i r p0 Hp0 Hts Hin. injection Hp0 as <-.
    vm_compute in Hts. injection Hts as <-.
    vm_compute in Hin.
    destruct Hin as [<-|[<-|[<-|[<-|[]]]]]; vm_compute; discriminate.
Defined.

(** ** The wildcard matcher *)

Section Wildcards.

Import Re Query.

(** Wildcard matching written out: [*] stands for any run of characters
    other than the line feed, [?] for one such character, every other
    character for itself in either case; the pattern covers the whole
    value, but for one line feed at its end. *)
Fixpoint glob (pat : str) (v : str) : bool :=
  match pat with
  | [] =>
      match v with
      | [] => true
      | [c] => ascii_eqb c LF
      | _ => false
      end
  | ch :: pat' =>
      if ascii_eqb ch "*" then
        (fix star (v : str) : bool :=
           glob pat' v
           || match v with
              | c :: v' => negb (ascii_eqb c LF) && star v'
              | [] => false
              end) v
      else
        match v with
        | c :: v' =>
            (if ascii_eqb ch "?" then negb (ascii_eqb c LF) else chr_eq true ch c)
            && glob pat' v'
        | [] => false
        end
  end.

Definition accepts (o : option mstate) : bool :=
  match o with Some _ => true | None => false end.

Definition wild_items (pat : str) : regex :=
  fold_right (fun ch r => Seq (wildcard_item ch) r) Eol pat.

Lemma star_dot_accepts (k : mstate -> option mstate) (g : str -> bool) :
  (forall st, accepts (k st) = g (rest st)) ->
  forall v st, rest st = v ->
    accepts (iter_star (exec true Dot) (length v) st k)
    = (fix star (v : str) : bool :=
         g v || match v with
                | c :: v' => negb (ascii_eqb c LF) && star v'
                | [] => false
                end) v.
Proof.
  intros Hk. induction v as [|c v IH]; intros st Hst; cbn [length iter_star].
  - rewrite Hk, Hst, orb_false_r. reflexivity.
  - cbn [exec]. unfold step. rewrite Hst.
    destruct (negb (ascii_eqb c LF)) eqn:Ec; cbn [andb].
    + assert (Hadv : rest (advance st) = v) by (cbn; rewrite Hst; reflexivity).
      rewrite Hadv. cbn [length].
      replace (length v <? S (length v)) with true
        by (symmetry; apply Nat.ltb_lt; lia).
      rewrite <- (IH (advance st) Hadv).
      destruct (iter_star _ _ _ k) as [m|]; cbn [accepts].
      * rewrite orb_true_r. reflexivity.
      * rewrite orb_false_r, Hk, Hst. reflexivity.
    + rewrite orb_false_r, Hk, Hst. reflexivity.
Qed.

Lemma wild_items_accepts (pat : str) :
  forall st, accepts (exec true (wild_items pat) st Some) = glob pat (rest st).
Proof.
  induction pat as [|ch pat IH]; intros st; cbn [wild_items fold_right exec glob].
  - destruct (rest st) as [|c [|c' l]]; try reflexivity.
    destruct (ascii_eqb c LF); reflexivity.
  - fold (wild_items pat). unfold wildcard_item.
    destruct (ascii_eqb ch "*"); [|destruct (ascii_eqb ch "?")]; cbn [exec].
    + apply (star_dot_accepts _ (glob pat)); [exact IH | reflexivity].
    + unfold step. destruct (rest st) as [|c v] eqn:E; [reflexivity|].
      destruct (negb (ascii_eqb c LF)); cbn [andb]; [|reflexivity].
      rewrite IH. unfold advance. cbn [rest]. rewrite E. reflexivity.
    + unfold step. destruct (rest st) as [|c v] eqn:E; [reflexivity|].
      destruct (chr_eq true ch c); cbn [andb]; [|reflexivity].
      rewrite IH. unfold advance. cbn [rest]. rewrite E. reflexivity.
Qed.

Lemma search_after_bol (r : regex) (s : str) (n : nat) :
  forall start, 0 < start -> search_from true (Seq Bol r) s n start = None.
Proof.
  induction n as [|n IH]; intros start Hs; cbn [search_from]; unfold match_at;
    cbn [exec pos]; replace (start =? 0) with false
      by (symmetry; apply Nat.eqb_neq; lia).
  - reflexivity.
  - apply IH. lia.
Qed.

Lemma search_bol_first (r : regex) (s : str) (n : nat) :
  search_from true (Seq Bol r) s n 0 = match_at true (Seq Bol r) s 0.
Proof.
  destruct n as [|n]; cbn [search_from];
    destruct (match_at true (Seq Bol r) s 0); try reflexivity.
  apply search_after_bol. lia.
Qed.

Lemma _match_value_glob (val pat : str) : _match_value val pat = glob pat val.
Proof.
  unfold _match_value, re_search, _wildcard_to_regex. fold (wild_items pat).
  rewrite search_bol_first. unfold match_at. cbn [exec pos Nat.eqb].
  change (skipn 0 val) with val.
  pose proof (wild_items_accepts pat (mk 0 val [])) as H. cbn [rest] in H.
  rewrite <- H. destruct (exec true (wild_items pat) (mk 0 val []) Some); reflexivity.
Qed.

(** X15.  [_match_value] is wildcard matching over the whole value, in
    either case: [*] takes any run of characters other than the line feed,
    [?] takes one such character, any other character takes itself, and
    one line feed at the end of the value is let through. *)
Theorem match_value_is_wildcard_match (val pat : str) :
  _match_value val pat = glob pat val.
Proof. apply _match_value_glob. Qed.

(** Two strings equal but for the case of their letters. *)
Fixpoint ci_eqb (a b : str) : bool :=
  match a, b with
  | [], [] => true
  | x :: a', y :: b' => chr_eq true x y && ci_eqb a' b'
  | _, _ => false
  end.

Definition has_wildcard (pat : str) : bool :=
  existsb (fun c => ascii_eqb c "*" || ascii_eqb c "?") pat.

Lemma chr_eq_lf (c : ascii) : chr_eq true LF c = ascii_eqb c LF.
Proof. destruct c as [[] [] [] [] [] [] [] []]; reflexivity. Qed.

(** X16.  A pattern without [*] and [?] matches the values equal to it
    but for the case of the letters, and those values followed by one line
    feed; it matches nothing else, so no proper substring. *)
Theorem literal_pattern_matches_equal_value (val pat : str) :
  has_wildcard pat = false ->
  _match_value val pat = ci_eqb pat val || ci_eqb (pat ++ [LF]) val.
Proof.
  rewrite _match_value_glob. revert val.
  induction pat as [|ch pat IH]; intros val Hw.
  - destruct val as [|c [|c' l]]; cbn [glob ci_eqb app orb].
    + reflexivity.
    + rewrite chr_eq_lf, andb_true_r. reflexivity.
    + rewrite andb_false_r. reflexivity.
  - cbn [has_wildcard existsb] in Hw. apply orb_false_iff in Hw.
    destruct Hw as [Hch Hw]. apply orb_false_iff in Hch. destruct Hch as [H1 H2].
    cbn [glob]. rewrite H1, H2. destruct val as [|c v]; [reflexivity|].
    cbn [app ci_eqb]. rewrite (IH v Hw), andb_orb_distrib_r. reflexivity.
Qed.

Lemma literal_pattern_matches_equal_value_witness :
  _match_value (s2l "TCP") (s2l "tcp")
  = ci_eqb (s2l "tcp") (s2l "TCP") || ci_eqb (s2l "tcp" ++ [LF]) (s2l "TCP").
Proof.
  apply (literal_pattern_matches_equal_value (s2l "TCP") (s2l "tcp")).
  vm_compute. reflexivity.
Defined.

End Wildcards.

(** ** The tokenizer as a scanner *)

Section Scanner.

Import Re Query.

(** [w] at the head of [s], in either case. *)
Fixpoint ci_prefix (w s : str) : bool :=
  match w, s with
  | [], _ => true
  | a :: w', x :: s' => chr_eq true a x && ci_prefix w' s'
  | _ :: _, [] => false
  end.

(** A character of a term: no white space, no parenthesis. *)
Definition tok_chr (c : ascii) : bool :=
  negb (isspace c) && negb (ascii_eqb c "(") && negb (ascii_eqb c ")").

(** The length of the longest prefix of [s] made of characters that pass
    [test]. *)
Fixpoint run (test : ascii -> bool) (s : str) : nat :=
  match s with
  | c :: s' => if test c then S (run test s') else 0
  | [] => 0
  end.

(** The length of the token at the head of [s], which starts with no white
    space: a parenthesis, or one of the three operator words in either
    case, whatever follows it, or else the run up to the next white space
    or parenthesis. *)
Definition token_len (s : str) : nat :=
  match s with
  | [] => 0
  | c :: _ =>
      if ascii_eqb c "(" || ascii_eqb c ")" then 1
      else if ci_prefix (s2l "AND") s then 3
      else if ci_prefix (s2l "OR") s then 2
      else if ci_prefix (s2l "NOT") s then 3
      else run tok_chr s
  end.

Fixpoint scan_tokens (fuel : nat) (s : str) : list str :=
  match fuel with
  | O => []
  | S fuel' =>
      match lstrip s with
      | [] => []
      | t => firstn (token_len t) t :: scan_tokens fuel' (skipn (token_len t) t)
      end
  end.

Definition tokens_of (q : str) : list str := scan_tokens (length q) q.

(** *** The matcher on the shapes [_TOKEN_RE] is made of *)

Definition adv (n : nat) (st : mstate) : mstate :=
  mk (pos st + n) (skipn n (rest st)) (spans st).

Lemma adv_0 (st : mstate) : adv 0 st = st.
Proof. destruct st. unfold adv. cbn. f_equal. lia. Qed.

Lemma adv_S (n : nat) (st : mstate) : adv (S n) st = adv n (advance st).
Proof.
  destruct st as [p r sp]. unfold adv, advance. cbn [pos rest spans]. f_equal; [lia|].
  destruct r; [cbn [tail]; rewrite !drop_nil; reflexivity | reflexivity].
Qed.

Lemma rest_advance (st : mstate) (c : ascii) (t : str) :
  rest st = c :: t -> rest (advance st) = t.
Proof. intros H. cbn. rewrite H. reflexivity. Qed.

(** A greedy repetition of one-character steps stops at the end of the run
    when what follows succeeds there. *)
Lemma iter_star_greedy (test : ascii -> bool)
    (body : mstate -> (mstate -> option mstate) -> option mstate)
    (k : mstate -> option mstate) (m : mstate) :
  (forall st k, body st k = step test st k) ->
  forall v st, rest st = v ->
    k (adv (run test v) st) = Some m ->
    iter_star body (length v) st k = Some m.
Proof.
  intros Hbody. induction v as [|c v IH]; intros st Hst; cbn [length iter_star run].
  - rewrite adv_0. auto.
  - rewrite Hbody. unfold step. rewrite Hst. destruct (test c).
    + rewrite adv_S. intros Hk. rewrite (rest_advance st c v Hst). cbn [length].
      replace (length v <? S (length v)) with true
        by (symmetry; apply Nat.ltb_lt; lia).
      rewrite (IH (advance st) (rest_advance st c v Hst) Hk). reflexivity.
    + rewrite adv_0. auto.
Qed.

(** A greedy repetition gives back nothing when what follows fails
    wherever the run goes on. *)
Lemma iter_star_skip (test : ascii -> bool)
    (body : mstate -> (mstate -> option mstate) -> option mstate)
    (k : mstate -> option mstate) :
  (forall st k, body st k = step test st k) ->
  (forall st c t, rest st = c :: t -> test c = true -> k st = None) ->
  forall v st, rest st = v ->
    iter_star body (length v) st k = k (adv (run test v) st).
Proof.
  intros Hbody Hk. induction v as [|c v IH]; intros st Hst; cbn [length iter_star run].
  - rewrite adv_0. reflexivity.
  - rewrite Hbody. unfold step. rewrite Hst. destruct (test c) eqn:Ec.
    + rewrite adv_S, (rest_advance st c v Hst). cbn [length].
      replace (length v <? S (length v)) with true
        by (symmetry; apply Nat.ltb_lt; lia).
      rewrite (IH (advance st) (rest_advance st c v Hst)).
      destruct (k (adv (run test v) (advance st))); [reflexivity|].
      apply (Hk st c v Hst Ec).
    + rewrite adv_0. reflexivity.
Qed.

Lemma word_exec (w : str) :
  forall st k,
    exec true (fold_right (fun c r => Seq (Lit c) r) Empty w) st k
    = if ci_prefix w (rest st) then k (adv (length w) st) else None.
Proof.
  induction w as [|a w IH]; intros st k; cbn [fold_right exec ci_prefix length].
  - rewrite adv_0. reflexivity.
  - unfold step. destruct (rest st) as [|x s] eqn:E; [reflexivity|].
    destruct (chr_eq true a x); cbn [andb]; [|reflexivity].
    rewrite IH, (rest_advance st x s E), adv_S. reflexivity.
Qed.

(** The alternatives of the group of [_TOKEN_RE]. *)
Definition TOKEN_ALTS : regex :=
  alts [Lit "("; Lit ")";
        IgnoreCase (alts [word "AND"; word "OR"; word "NOT"]);
        Plus (NoneOf [ISpace; IChar "("; IChar ")"]);
        QUOTED].

Lemma tok_chr_class (x : ascii) :
  negb (existsb (item_match false x) [ISpace; IChar "("; IChar ")"]) = tok_chr x.
Proof.
  unfold tok_chr. cbn [existsb item_match chr_eq]. unfold ascii_eqb.
  rewrite (Ascii.eqb_sym "(" x), (Ascii.eqb_sym ")" x).
  destruct (isspace x), (Ascii.eqb x "("), (Ascii.eqb x ")"); reflexivity.
Qed.

Lemma alts_fail_empty (st : mstate) (k : mstate -> option mstate) :
  rest st = [] -> exec false TOKEN_ALTS st k = None.
Proof.
  destruct st as [p r sp]. cbn [rest]. intros ->. reflexivity.
Qed.

Lemma alts_fail_space (st : mstate) (k : mstate -> option mstate) (c : ascii) (t : str) :
  rest st = c :: t -> isspace c = true -> exec false TOKEN_ALTS st k = None.
Proof.
  destruct st as [p r sp]. cbn [rest]. intros -> Hc.
  destruct c as [[] [] [] [] [] [] [] []];
    first [ discriminate Hc | reflexivity ].
Qed.

Lemma alts_token (g : mstate -> mstate) (st : mstate) (c : ascii) (t : str) :
  rest st = c :: t -> isspace c = false ->
  exec false TOKEN_ALTS st (fun st' => Some (g st'))
  = Some (g (adv (token_len (c :: t)) st)).
Proof.
  intros Hst Hc. unfold TOKEN_ALTS, alts. cbn [fold_left].
  set (k := fun st' => Some (g st')).
  assert (H1 : forall a, exec false (Lit a) st k
                         = if ascii_eqb c a then Some (g (adv 1 st)) else None).
  { intros a. cbn [exec]. unfold step. rewrite Hst. cbn [chr_eq]. unfold ascii_eqb.
    rewrite (Ascii.eqb_sym a c), adv_S, adv_0. reflexivity. }
  assert (H3 : forall w, exec true (word w) st k
                         = if ci_prefix (s2l w) (c :: t)
                           then Some (g (adv (length (s2l w)) st)) else None).
  { intros w. unfold word. rewrite word_exec, Hst. reflexivity. }
  assert (H4 : tok_chr c = true ->
               exec false (Plus (NoneOf [ISpace; IChar "("; IChar ")"])) st k
               = Some (g (adv (run tok_chr (c :: t)) st))).
  { intros Ht. cbn [exec]. unfold step at 1. rewrite Hst, tok_chr_class, Ht.
    rewrite (rest_advance st c t Hst).
    apply (iter_star_greedy tok_chr).
    - intros st' k'. cbn [exec]. unfold step. destruct (rest st'); [reflexivity|].
      rewrite tok_chr_class. reflexivity.
    - apply (rest_advance st c t Hst).
    - unfold k. cbn [run]. rewrite Ht, adv_S. reflexivity. }
  cbn [exec] in H1, H3, H4 |- *. unfold token_len.
  rewrite (H1 "("%char), (H1 ")"%char).
  destruct (ascii_eqb c "(") eqn:E1; [reflexivity|].
  destruct (ascii_eqb c ")") eqn:E2; [reflexivity|]. cbn [orb].
  rewrite !H3.
  destruct (ci_prefix (s2l "AND") (c :: t)); [reflexivity|].
  destruct (ci_prefix (s2l "OR") (c :: t)); [reflexivity|].
  destruct (ci_prefix (s2l "NOT") (c :: t)); [reflexivity|].
  rewrite H4; [reflexivity|]. unfold tok_chr. rewrite Hc, E1, E2. reflexivity.
Qed.


Lemma lstrip_run (s : str) : lstrip s = skipn (run isspace s) s.
Proof.
  induction s as [|c s IH]; cbn [lstrip run]; [reflexivity|].
  destruct (isspace c); [exact IH | reflexivity].
Qed.

Lemma run_le (test : ascii -> bool) (s : str) : run test s <= length s.
Proof.
  induction s as [|c s IH]; cbn [run length]; [lia|]. destruct (test c); lia.
Qed.

Lemma lstrip_head (s : str) (c : ascii) (t : str) :
  lstrip s = c :: t -> isspace c = false.
Proof.
  induction s as [|x s IH]; cbn [lstrip]; [discriminate|].
  destruct (isspace x) eqn:E; [exact IH|]. intros [= -> _]. exact E.
Qed.

Lemma lstrip_nil_drop (s : str) (n : nat) : lstrip s = [] -> lstrip (skipn n s) = [].
Proof.
  revert n. induction s as [|x s IH]; intros n; [rewrite drop_nil; reflexivity|].
  cbn [lstrip]. destruct (isspace x) eqn:E; [|discriminate]. intros H.
  destruct n as [|n]; [cbn [skipn lstrip]; rewrite E; exact H|].
  apply IH. exact H.
Qed.

Lemma ci_prefix_length (w s : str) : ci_prefix w s = true -> length w <= length s.
Proof.
  revert s. induction w as [|a w IH]; intros [|x s]; cbn [ci_prefix length];
    try discriminate; try lia.
  intros H. apply andb_true_iff in H. destruct H as [_ H]. apply IH in H. lia.
Qed.

Lemma token_len_bounds (c : ascii) (t : str) :
  isspace c = false -> 1 <= token_len (c :: t) <= length (c :: t).
Proof.
  intros Hc. unfold token_len.
  destruct (ascii_eqb c "(" || ascii_eqb c ")") eqn:Ep; [cbn [length]; lia|].
  apply orb_false_iff in Ep. destruct Ep as [E1 E2].
  destruct (ci_prefix (s2l "AND") (c :: t)) eqn:Ea;
    [apply ci_prefix_length in Ea; cbn [length s2l list_ascii_of_string] in *; lia|].
  destruct (ci_prefix (s2l "OR") (c :: t)) eqn:Eo;
    [apply ci_prefix_length in Eo; cbn [length s2l list_ascii_of_string] in *; lia|].
  destruct (ci_prefix (s2l "NOT") (c :: t)) eqn:En;
    [apply ci_prefix_length in En; cbn [length s2l list_ascii_of_string] in *; lia|].
  pose proof (run_le tok_chr (c :: t)) as Hr. split; [|exact Hr].
  cbn [run]. unfold tok_chr. rewrite Hc, E1, E2. cbn. lia.
Qed.

(** One match of [_TOKEN_RE]: the white space is passed, then the token at
    the head of what is left is taken; there is no match when only white
    space is left. *)
Lemma token_match (q : str) (start : nat) :
  match_at false _TOKEN_RE q start
  = match lstrip (skipn start q) with
    | [] => None
    | t =>
        let a := start + run isspace (skipn start q) in
        Some (mkmatched start (a + token_len t) [(1, (a, a + token_len t))])
    end.
Proof.
  unfold match_at. change _TOKEN_RE with (Seq (Star Space) (Group 1 TOKEN_ALTS)).
  set (s := skipn start q). cbn [exec rest].
  rewrite (iter_star_skip isspace).
  - rewrite lstrip_run.
    set (st1 := adv (run isspace s) (mk start s [])).
    assert (Hr : rest st1 = skipn (run isspace s) s) by reflexivity.
    destruct (skipn (run isspace s) s) as [|c t] eqn:E.
    + rewrite alts_fail_empty by exact Hr. reflexivity.
    + assert (Hc : isspace c = false).
      { apply (lstrip_head s c t). rewrite lstrip_run. exact E. }
      rewrite (alts_token _ st1 c t Hr Hc). reflexivity.
  - reflexivity.
  - intros st c t Hst Hc. apply (alts_fail_space st _ c t Hst Hc).
  - reflexivity.
Qed.

Lemma token_search_none (q : str) (n : nat) :
  forall start, lstrip (skipn start q) = [] ->
                search_from false _TOKEN_RE q n start = None.
Proof.
  induction n as [|n IH]; intros start H; cbn [search_from];
    rewrite token_match, H; [reflexivity|].
  apply IH. replace (skipn (S start) q) with (skipn 1 (skipn start q))
    by (rewrite drop_drop; f_equal; lia).
  apply lstrip_nil_drop. exact H.
Qed.

Lemma scan_tokens_fuel (f1 : nat) :
  forall f2 s, length s <= f1 -> length s <= f2 -> scan_tokens f1 s = scan_tokens f2 s.
Proof.
  induction f1 as [|f1 IH]; intros f2 s H1 H2.
  - destruct s; [|cbn in H1; lia]. destruct f2; reflexivity.
  - destruct f2 as [|f2]; [destruct s; [reflexivity | cbn in H2; lia]|].
    cbn [scan_tokens]. destruct (lstrip s) as [|c t] eqn:E; [reflexivity|].
    f_equal. pose proof (token_len_bounds c t (lstrip_head s c t E)) as Hb.
    assert (Hl : length (c :: t) <= length s).
    { rewrite <- E, lstrip_run, length_drop. lia. }
    apply IH; rewrite length_drop; lia.
Qed.

(** The fold of [_tokenize] over the matches of [finditer]. *)
Definition collect_tokens (q : str) (ms : list matched) (acc : list str) : list str :=
  fold_left (fun toks m =>
               match group q m 1 with
               | Some (c :: t) => toks ++ [c :: t]
               | _ => toks
               end) ms acc.

Lemma finditer_tokens (q : str) :
  forall fuel start, start <= length q -> length q - start < fuel ->
    exists ms,
      finditer_from fuel false _TOKEN_RE q start = Ok ms
      /\ forall acc, collect_tokens q ms acc
                     = acc ++ scan_tokens (length q - start) (skipn start q).
Proof.
  induction fuel as [|fuel IH]; intros start Hs Hf; [lia|]. cbn [finditer_from].
  replace (length q <? start) with false by (symmetry; apply Nat.ltb_ge; lia).
  set (s := skipn start q).
  assert (Hls : length s = length q - start) by (unfold s; apply length_drop).
  destruct (lstrip s) as [|c t] eqn:E.
  - rewrite token_search_none by exact E. exists []. split; [reflexivity|].
    intros acc. cbn [collect_tokens fold_left].
    destruct (length q - start); cbn [scan_tokens]; [|rewrite E]; symmetry; apply app_nil_r.
  - assert (Hc : isspace c = false) by apply (lstrip_head s c t E).
    pose proof (token_len_bounds c t Hc) as Hb.
    pose proof (run_le isspace s) as Hrun.
    assert (Ht : skipn (start + run isspace s) q = c :: t).
    { replace (skipn (start + run isspace s) q) with (skipn (run isspace s) s)
        by (unfold s; rewrite drop_drop; reflexivity).
      rewrite <- lstrip_run. exact E. }
    assert (Hlt : length (c :: t) = length s - run isspace s).
    { rewrite <- E, lstrip_run, length_drop. reflexivity. }
    assert (Hm : search_from false _TOKEN_RE q (length q - start) start
                 = Some (mkmatched start (start + run isspace s + token_len (c :: t))
                           [(1, (start + run isspace s,
                                 start + run isspace s + token_len (c :: t)))])).
    { destruct (length q - start); cbn [search_from]; rewrite token_match;
        fold s; rewrite E; reflexivity. }
    rewrite Hm. cbn [m_end m_start].
    set (a := start + run isspace s) in *. set (n := token_len (c :: t)) in *.
    replace (a + n =? start) with false by (symmetry; apply Nat.eqb_neq; lia).
    destruct (IH (a + n)) as (ms & -> & Hms); [lia | lia|]. cbn [rbind].
    eexists. split; [reflexivity|]. intros acc.
    unfold collect_tokens in *. cbn [fold_left]. unfold group.
    cbn [m_spans span_of Nat.eqb]. unfold slice.
    replace (a + n - a) with n by lia. rewrite Ht.
    destruct (firstn n (c :: t)) as [|c' t'] eqn:Ef.
    { apply (f_equal (@length ascii)) in Ef. rewrite length_take in Ef.
      cbn [length] in Ef, Hb. lia. }
    rewrite Hms, <- app_assoc. f_equal. cbn [app]. rewrite <- Ef.
    destruct (length q - start) as [|k] eqn:Ek; [lia|]. cbn [scan_tokens]. fold s.
    rewrite E. f_equal.
    replace (skipn (a + n) q) with (skipn n (c :: t))
      by (rewrite <- Ht, drop_drop; reflexivity).
    apply scan_tokens_fuel; rewrite length_drop; lia.
Qed.

Lemma _tokenize_scan (q : str) : _tokenize q = Ok (tokens_of q).
Proof.
  unfold _tokenize, finditer, tokens_of.
  destruct (finditer_tokens q (S (S (length q))) 0) as (ms & -> & H); [lia | lia|].
  cbn [rbind]. f_equal. fold (collect_tokens q ms []). rewrite H.
  rewrite Nat.sub_0_r. reflexivity.
Qed.


Definition visible (c : ascii) : bool := negb (isspace c).

Lemma isspace_lower (x : ascii) : isspace (lower_chr x) = isspace x.
Proof. destruct x as [[] [] [] [] [] [] [] []]; reflexivity. Qed.

Lemma chr_eq_visible (a x : ascii) :
  chr_eq true a x = true -> visible a = true -> visible x = true.
Proof.
  unfold chr_eq, visible. intros H. apply ascii_eqb_eq in H.
  rewrite <- (isspace_lower a), <- (isspace_lower x), H. auto.
Qed.

Lemma ci_prefix_visible (w s : str) :
  ci_prefix w s = true -> forallb visible w = true ->
  forallb visible (firstn (length w) s) = true.
Proof.
  revert s. induction w as [|a w IH]; intros [|x s]; cbn [ci_prefix length firstn forallb];
    try discriminate; try reflexivity.
  intros H Hw. apply andb_true_iff in H. destruct H as [Hax H].
  apply andb_true_iff in Hw. destruct Hw as [Ha Hw].
  rewrite (chr_eq_visible a x Hax Ha), (IH s H Hw). reflexivity.
Qed.

Lemma run_visible (s : str) : forallb visible (firstn (run tok_chr s) s) = true.
Proof.
  induction s as [|c s IH]; cbn [run]; [reflexivity|].
  destruct (tok_chr c) eqn:E; [|reflexivity]. cbn [firstn forallb]. rewrite IH.
  unfold tok_chr in E. unfold visible. destruct (isspace c); [discriminate | reflexivity].
Qed.

Lemma token_visible (c : ascii) (t : str) :
  isspace c = false ->
  forallb visible (firstn (token_len (c :: t)) (c :: t)) = true.
Proof.
  intros Hc. unfold token_len.
  destruct (ascii_eqb c "(" || ascii_eqb c ")");
    [cbn; unfold visible; rewrite Hc; reflexivity|].
  destruct (ci_prefix (s2l "AND") (c :: t)) eqn:Ea;
    [apply (ci_prefix_visible (s2l "AND") _ Ea); reflexivity|].
  destruct (ci_prefix (s2l "OR") (c :: t)) eqn:Eo;
    [apply (ci_prefix_visible (s2l "OR") _ Eo); reflexivity|].
  destruct (ci_prefix (s2l "NOT") (c :: t)) eqn:En;
    [apply (ci_prefix_visible (s2l "NOT") _ En); reflexivity|].
  apply run_visible.
Qed.

Lemma filter_visible_lstrip (s : str) :
  List.filter visible (lstrip s) = List.filter visible s.
Proof.
  induction s as [|c s IH]; cbn [lstrip List.filter]; [reflexivity|].
  unfold visible at 2. destruct (isspace c) eqn:E; cbn [negb]; [exact IH|].
  cbn [List.filter]. unfold visible at 1. rewrite E. reflexivity.
Qed.

Lemma scan_tokens_concat (fuel : nat) :
  forall s, length s <= fuel ->
    concat (scan_tokens fuel s) = List.filter visible s
    /\ Forall (fun t => t <> [] /\ forallb visible t = true) (scan_tokens fuel s).
Proof.
  induction fuel as [|fuel IH]; intros s Hs.
  - destruct s; [|cbn in Hs; lia]. split; [reflexivity | constructor].
  - cbn [scan_tokens]. rewrite <- (filter_visible_lstrip s).
    destruct (lstrip s) as [|c t] eqn:E; [split; [reflexivity | constructor]|].
    pose proof (lstrip_head s c t E) as Hc.
    pose proof (token_len_bounds c t Hc) as Hb.
    pose proof (token_visible c t Hc) as Hv.
    assert (Hl : length (c :: t) <= length s).
    { rewrite <- E, lstrip_run, length_drop. lia. }
    destruct (IH (skipn (token_len (c :: t)) (c :: t))) as [IH1 IH2].
    { rewrite length_drop. lia. }
    split.
    + cbn [concat]. rewrite IH1.
      assert (Hsplit : List.filter visible (c :: t)
                       = List.filter visible (firstn (token_len (c :: t)) (c :: t))
                         ++ List.filter visible (skipn (token_len (c :: t)) (c :: t))).
      { rewrite <- List.filter_app, take_drop. reflexivity. }
      rewrite Hsplit. f_equal. symmetry. apply forallb_filter_id. exact Hv.
    + constructor; [|exact IH2]. split; [|exact Hv].
      intros Hn. apply (f_equal (@length ascii)) in Hn.
      rewrite length_take in Hn. cbn [length] in Hn, Hb. lia.
Qed.

(** X17.  The tokenizer is a scanner: it passes white space and takes, at
    each step, a parenthesis, or one of the words AND, OR, NOT in either
    case (also at the head of a longer word), or the run up to the next
    white space or parenthesis, double quotes included.  So it never
    raises, no token is empty or holds white space, and the tokens put
    together are the query without its white space. *)
Theorem tokenizer_is_scanner (q : str) :
  _tokenize q = Ok (tokens_of q)
  /\ concat (tokens_of q) = List.filter (fun c => negb (isspace c)) q
  /\ Forall (fun t => t <> [] /\ forallb (fun c => negb (isspace c)) t = true)
            (tokens_of q).
Proof.
  split; [apply _tokenize_scan|]. apply (scan_tokens_concat (length q) q). lia.
Qed.

End Scanner.

(** ** A [field:pattern] query, from the text to the rows it selects *)

Section FieldTerm.

Import Re Query.

Lemma run_app (test : ascii -> bool) (l r : str) :
  forallb test l = true ->
  match r with [] => true | x :: _ => negb (test x) end = true ->
  run test (l ++ r) = length l.
Proof.
  intros Hl Hr. induction l as [|c l IH]; cbn [app run length].
  - destruct r as [|x r]; [reflexivity|]. cbn [run].
    destruct (test x); [discriminate | reflexivity].
  - cbn [forallb] in Hl. apply andb_true_iff in Hl. destruct Hl as [-> Hl].
    rewrite (IH Hl). reflexivity.
Qed.

(** A greedy star over a one-character class, at the run [l]. *)
Lemma star_run (ic : bool) (test : ascii -> bool) (r0 : regex)
    (k : mstate -> option mstate) (m : mstate) (p : nat) (l r : str)
    (sp : list (nat * (nat * nat))) :
  (forall st k, exec ic r0 st k = step test st k) ->
  forallb test l = true ->
  match r with [] => true | x :: _ => negb (test x) end = true ->
  k (mk (p + length l) r sp) = Some m ->
  exec ic (Star r0) (mk p (l ++ r) sp) k = Some m.
Proof.
  intros Hbody Hl Hr Hk. cbn [exec rest].
  apply (iter_star_greedy test); [exact Hbody | reflexivity|].
  rewrite (run_app test l r Hl Hr). unfold adv. cbn [pos rest spans].
  rewrite drop_app_length. exact Hk.
Qed.

Lemma plus_run (ic : bool) (test : ascii -> bool) (r0 : regex)
    (k : mstate -> option mstate) (m : mstate) (p : nat) (l r : str)
    (sp : list (nat * (nat * nat))) :
  (forall st k, exec ic r0 st k = step test st k) ->
  l <> [] -> forallb test l = true ->
  match r with [] => true | x :: _ => negb (test x) end = true ->
  k (mk (p + length l) r sp) = Some m ->
  exec ic (Plus r0) (mk p (l ++ r) sp) k = Some m.
Proof.
  intros Hbody Hne Hl Hr Hk. destruct l as [|c l]; [congruence|].
  cbn [forallb] in Hl. apply andb_true_iff in Hl. destruct Hl as [Hc Hl].
  cbn [exec]. rewrite Hbody. unfold step. cbn [rest app]. rewrite Hc.
  change (advance (mk p (c :: l ++ r) sp)) with (mk (S p) (l ++ r) sp). cbn [rest].
  apply (iter_star_greedy test); [exact Hbody | reflexivity|].
  rewrite (run_app test l r Hl Hr). unfold adv. cbn [pos rest spans].
  rewrite drop_app_length. cbn [length] in Hk.
  replace (S p + length l) with (p + S (length l)) by lia. exact Hk.
Qed.

Definition is_sep (c : ascii) : bool := ascii_eqb c ":" || ascii_eqb c "=".

(** A field name as the tokenizer and [TERM_RE] leave it whole. *)
Definition field_name (f : str) : bool :=
  negb (is_empty f)
  && forallb (fun c => tok_chr c && negb (is_sep c)) f
  && negb (startswith f [DQUOTE])
  && negb (ci_prefix (s2l "AND") f || ci_prefix (s2l "OR") f
           || ci_prefix (s2l "NOT") f).

(** A pattern as the tokenizer leaves it whole: no white space, no
    parenthesis, no double quote in front. *)
Definition pattern_text (p : str) : bool :=
  negb (is_empty p) && forallb tok_chr p && negb (startswith p [DQUOTE]).

Lemma sep_class (x : ascii) :
  existsb (item_match false x) [IChar ":"; IChar "="] = is_sep x.
Proof.
  unfold is_sep. cbn [existsb item_match chr_eq]. unfold ascii_eqb.
  rewrite (Ascii.eqb_sym ":" x), (Ascii.eqb_sym "=" x), orb_false_r. reflexivity.
Qed.

Lemma tok_chr_not_lf (c : ascii) : tok_chr c = true -> negb (ascii_eqb c LF) = true.
Proof.
  unfold tok_chr. destruct (ascii_eqb c LF) eqn:E; [|reflexivity].
  apply ascii_eqb_eq in E. subst c. discriminate.
Qed.

Lemma term_exec (f p : str) (sep : ascii) :
  f <> [] -> forallb (fun c => negb (is_sep c)) f = true ->
  is_sep sep = true -> isspace sep = false ->
  p <> [] -> forallb tok_chr p = true ->
  exec false TERM_RE (mk 0 (f ++ sep :: p) []) Some
  = Some (mk (length f + 1 + length p) []
             [(2, (length f + 1, length f + 1 + length p)); (1, (0, length f))]).
Proof.
  intros Hf Hfc Hsep Hsp Hp Hpc.
  assert (Hp0 : match p with [] => true | x :: _ => negb (isspace x) end = true).
  { destruct p as [|x p']; [reflexivity|]. cbn [forallb] in Hpc.
    apply andb_true_iff in Hpc. destruct Hpc as [Hx _]. unfold tok_chr in Hx.
    destruct (isspace x); [discriminate | reflexivity]. }
  assert (Hlf : forallb (fun c => negb (ascii_eqb c LF)) p = true).
  { apply forallb_forall. intros x Hx. apply tok_chr_not_lf.
    rewrite forallb_forall in Hpc. apply Hpc. exact Hx. }
  set (R5 := Seq (Group 2 (Plus Dot)) Eol).
  set (R4 := Seq (Star Space) R5).
  set (R3 := Seq (OneOf [IChar ":"; IChar "="]) R4).
  set (R2 := Seq (Star Space) R3).
  change (exec false TERM_RE (mk 0 (f ++ sep :: p) []) Some)
    with (exec false (Plus (NoneOf [IChar ":"; IChar "="]))
               (mk 0 (f ++ sep :: p) [])
               (fun st' => exec false R2
                             (mk (pos st') (rest st') ((1, (0, pos st')) :: spans st'))
                             Some)).
  apply (plus_run false (fun c => negb (is_sep c))).
  { intros st k. cbn [exec]. unfold step. destruct (rest st); [reflexivity|].
    rewrite sep_class. reflexivity. }
  { exact Hf. }
  { exact Hfc. }
  { rewrite Hsep. reflexivity. }
  cbv beta. cbn [pos rest spans].
  change (exec false R2 ?st Some)
    with (exec false (Star Space) st (fun st' => exec false R3 st' Some)).
  apply (star_run false isspace Space _ _ _ [] (sep :: p)).
  { intros st k. reflexivity. }
  { reflexivity. }
  { rewrite Hsp. reflexivity. }
  change (exec false R3 ?st Some)
    with (step (fun x => existsb (item_match false x) [IChar ":"; IChar "="]) st
               (fun st' => exec false R4 st' Some)).
  unfold step. cbn [rest]. rewrite sep_class, Hsep.
  change (advance (mk ?a (sep :: p) ?sp)) with (mk (S a) p sp).
  change (exec false R4 ?st Some)
    with (exec false (Star Space) st (fun st' => exec false R5 st' Some)).
  apply (star_run false isspace Space _ _ _ [] p).
  { intros st k. reflexivity. }
  { reflexivity. }
  { exact Hp0. }
  change (exec false R5 ?st Some)
    with (exec false (Plus Dot) st
               (fun st' => exec false Eol
                             (mk (pos st') (rest st')
                                 ((2, (pos st, pos st')) :: spans st')) Some)).
  match goal with
  | |- exec _ _ (mk ?P p ?SP) _ = _ =>
      replace (mk P p SP) with (mk P (p ++ []) SP) by (rewrite app_nil_r; reflexivity)
  end.
  apply (plus_run false (fun c => negb (ascii_eqb c LF))).
  { intros st k. reflexivity. }
  { exact Hp. }
  { exact Hlf. }
  { reflexivity. }
  cbn [exec pos rest spans length].
  replace (S (0 + length f + 0) + 0) with (length f + 1) by lia.
  replace (0 + length f) with (length f) by lia. reflexivity.
Qed.

Lemma strip_quotes_id (s : str) :
  startswith s [DQUOTE] = false -> _strip_quotes s = s.
Proof.
  unfold _strip_quotes. destruct s as [|c s]; [reflexivity|].
  cbn [startswith firstn str_eqb]. destruct s; rewrite !andb_true_r; intros ->;
    rewrite andb_false_r; reflexivity.
Qed.

Lemma lstrip_visible (s : str) :
  match s with [] => true | c :: _ => visible c end = true -> lstrip s = s.
Proof.
  destruct s as [|c s]; [reflexivity|]. unfold visible. cbn [lstrip].
  destruct (isspace c); [discriminate | reflexivity].
Qed.

Lemma strip_visible (s : str) : forallb visible s = true -> strip s = s.
Proof.
  intros H. unfold strip. rewrite (lstrip_visible s).
  - rewrite lstrip_visible; [apply rev_involutive|].
    destruct (rev s) as [|c r] eqn:E; [reflexivity|].
    rewrite forallb_forall in H. apply H. apply in_rev. rewrite E. left. reflexivity.
  - destruct s; [reflexivity|]. cbn [forallb] in H. apply andb_true_iff in H. apply H.
Qed.

Lemma tok_chr_visible (s : str) : forallb tok_chr s = true -> forallb visible s = true.
Proof.
  rewrite !forallb_forall. intros H x Hx. specialize (H x Hx).
  unfold tok_chr in H. unfold visible. destruct (isspace x); [discriminate | reflexivity].
Qed.

Lemma ci_prefix_app_sep (w f rest : str) (sep : ascii) :
  forallb (fun a => negb (chr_eq true a sep)) w = true ->
  ci_prefix w (f ++ sep :: rest) = ci_prefix w f.
Proof.
  revert f. induction w as [|a w IH]; intros f Hw; [reflexivity|].
  cbn [forallb] in Hw. apply andb_true_iff in Hw. destruct Hw as [Ha Hw].
  destruct f as [|x f]; cbn [app ci_prefix].
  - destruct (chr_eq true a sep); [discriminate | reflexivity].
  - rewrite (IH f Hw). reflexivity.
Qed.

Lemma scan_tokens_nil (fuel : nat) : scan_tokens fuel [] = [].
Proof. destruct fuel; reflexivity. Qed.

Lemma startswith_app (f x : str) (c : ascii) :
  f <> [] -> startswith (f ++ x) [c] = startswith f [c].
Proof.
  destruct f as [|a f]; [congruence|]. intros _. cbn [app startswith].
  destruct (f ++ x), f; reflexivity.
Qed.

Lemma head_app (f x : str) : f <> [] -> head (f ++ x) = head f.
Proof. destruct f; [congruence | reflexivity]. Qed.

Lemma is_empty_false (s : str) : is_empty s = false -> s <> [].
Proof. destruct s; [discriminate | discriminate]. Qed.

Lemma forallb_head (test : ascii -> bool) (s : str) (c : ascii) :
  forallb test s = true -> head s = Some c -> test c = true.
Proof.
  destruct s as [|x s]; [discriminate|]. cbn [forallb head].
  intros H [= <-]. apply andb_true_iff in H. apply H.
Qed.

Lemma token_len_run (s : str) :
  s <> [] -> forallb tok_chr s = true ->
  ci_prefix (s2l "AND") s = false -> ci_prefix (s2l "OR") s = false ->
  ci_prefix (s2l "NOT") s = false ->
  token_len s = length s.
Proof.
  intros Hne Ht Ha Ho Hn. unfold token_len. rewrite Ha, Ho, Hn.
  destruct s as [|c t] eqn:E; [congruence|]. rewrite <- E in *.
  assert (Hc : tok_chr c = true) by (apply (forallb_head tok_chr s c Ht); rewrite E; reflexivity).
  unfold tok_chr in Hc. destruct (isspace c); [discriminate|].
  destruct (ascii_eqb c "("); [discriminate|].
  destruct (ascii_eqb c ")"); [discriminate|]. cbn [orb].
  rewrite <- (app_nil_r s) at 1. apply run_app; [exact Ht | reflexivity].
Qed.

Lemma tokens_of_one (s : str) :
  s <> [] -> forallb tok_chr s = true ->
  ci_prefix (s2l "AND") s = false -> ci_prefix (s2l "OR") s = false ->
  ci_prefix (s2l "NOT") s = false ->
  tokens_of s = [s].
Proof.
  intros Hne Ht Ha Ho Hn. unfold tokens_of.
  destruct s as [|c t]; [congruence|]. cbn [length scan_tokens].
  rewrite lstrip_visible.
  2:{ apply (forallb_head visible (c :: t) c); [|reflexivity].
      apply tok_chr_visible. exact Ht. }
  rewrite (token_len_run (c :: t) Hne Ht Ha Ho Hn), firstn_all, drop_all,
    scan_tokens_nil.
  reflexivity.
Qed.

Section OneTerm.

Variables (f p : str) (sep : ascii).

Hypothesis Hf : field_name f = true.
Hypothesis Hp : pattern_text p = true.
Hypothesis Hsep : is_sep sep = true.

Lemma sep_cases : sep = ":"%char \/ sep = "="%char.
Proof.
  unfold is_sep in Hsep. apply orb_true_iff in Hsep.
  destruct Hsep as [H|H]; apply ascii_eqb_eq in H; auto.
Qed.

Lemma field_name_facts :
  f <> [] /\ forallb tok_chr f = true
  /\ forallb (fun c => negb (is_sep c)) f = true
  /\ startswith f [DQUOTE] = false
  /\ ci_prefix (s2l "AND") f = false /\ ci_prefix (s2l "OR") f = false
  /\ ci_prefix (s2l "NOT") f = false.
Proof.
  pose proof Hf as H. unfold field_name in H.
  apply andb_true_iff in H. destruct H as [H Hk].
  apply andb_true_iff in H. destruct H as [H Hq].
  apply andb_true_iff in H. destruct H as [He Hc].
  apply negb_true_iff in Hk, Hq, He.
  apply orb_false_iff in Hk. destruct Hk as [Hk Hn].
  apply orb_false_iff in Hk. destruct Hk as [Ha Ho].
  rewrite forallb_forall in Hc.
  split; [apply is_empty_false; exact He|].
  split; [|split].
  - apply forallb_forall. intros x Hx. specialize (Hc x Hx).
    apply andb_true_iff in Hc. apply Hc.
  - apply forallb_forall. intros x Hx. specialize (Hc x Hx).
    apply andb_true_iff in Hc. apply Hc.
  - auto.
Qed.

Lemma pattern_text_facts :
  p <> [] /\ forallb tok_chr p = true /\ startswith p [DQUOTE] = false.
Proof.
  pose proof Hp as H. unfold pattern_text in H.
  apply andb_true_iff in H. destruct H as [H Hq].
  apply andb_true_iff in H. destruct H as [He Hc].
  apply negb_true_iff in Hq, He.
  split; [apply is_empty_false; exact He|]. auto.
Qed.

Lemma sep_tok_chr : tok_chr sep = true.
Proof. destruct sep_cases as [E | E]; rewrite E; reflexivity. Qed.

Lemma term_tok_chr : forallb tok_chr (f ++ sep :: p) = true.
Proof.
  destruct field_name_facts as (_ & Hfc & _). destruct pattern_text_facts as (_ & Hpc & _).
  rewrite forallb_app. cbn [forallb]. rewrite Hfc, sep_tok_chr, Hpc. reflexivity.
Qed.

Lemma term_not_nil : f ++ sep :: p <> [].
Proof. intros H. apply app_eq_nil in H. destruct H as [_ H]. discriminate H. Qed.

Lemma term_fields_plain : term_fields (f ++ sep :: p) = Some (f, p).
Proof.
  destruct field_name_facts as (Hne & Hfc & Hfs & Hfq & _).
  destruct pattern_text_facts as (Hpne & Hpc & Hpq).
  assert (Hq : startswith (f ++ sep :: p) [DQUOTE] = false).
  { rewrite startswith_app by exact Hne. exact Hfq. }
  assert (Hss : isspace sep = false).
  { destruct sep_cases as [E | E]; rewrite E; reflexivity. }
  unfold term_fields. rewrite (strip_quotes_id _ Hq).
  unfold re_match, match_at. change (skipn 0 (f ++ sep :: p)) with (f ++ sep :: p).
  rewrite (term_exec f p sep Hne Hfs Hsep Hss Hpne Hpc).
  unfold group. cbn [m_spans spans span_of Nat.eqb]. unfold slice.
  change (skipn 0 (f ++ sep :: p)) with (f ++ sep :: p). rewrite Nat.sub_0_r.
  rewrite take_app_length.
  replace (length f + 1 + length p - (length f + 1)) with (length p) by lia.
  replace (skipn (length f + 1) (f ++ sep :: p)) with p.
  2:{ rewrite <- drop_drop, drop_app_length. reflexivity. }
  rewrite firstn_all.
  rewrite (strip_visible f (tok_chr_visible f Hfc)).
  rewrite (strip_visible p (tok_chr_visible p Hpc)).
  rewrite (strip_quotes_id p Hpq). reflexivity.
Qed.

Lemma term_tokens : _tokenize (strip (f ++ sep :: p)) = Ok [f ++ sep :: p].
Proof.
  destruct field_name_facts as (Hne & Hfc & _ & _ & Ha & Ho & Hn).
  assert (Hk : forall w, In w [s2l "AND"; s2l "OR"; s2l "NOT"] ->
                         ci_prefix w (f ++ sep :: p) = ci_prefix w f).
  { intros w Hw. apply ci_prefix_app_sep.
    destruct sep_cases as [E | E]; rewrite E;
      destruct Hw as [<-|[<-|[<-|[]]]]; reflexivity. }
  pose proof term_tok_chr as Ht.
  rewrite (strip_visible _ (tok_chr_visible _ Ht)), _tokenize_scan.
  f_equal. apply tokens_of_one; [apply term_not_nil | exact Ht | | |];
    rewrite Hk by (cbn; auto); assumption.
Qed.

Lemma field_term_compiles :
  _compile_query (f ++ sep :: p) = Ok (Some (_term_predicate (f ++ sep :: p)))
  /\ forall r : row,
       _term_predicate (f ++ sep :: p) r = glob p (default [] (r !! f)).
Proof.
  split.
  - apply (compile_single_term _ _ f p); [apply term_tokens | apply term_fields_plain].
  - intros r. unfold _term_predicate. rewrite term_fields_plain. unfold _pred.
    apply _match_value_glob.
Qed.

End OneTerm.

(** X18.  A query that is one term [field:pattern] or [field=pattern]
    (the field name without white space, parenthesis, separator or leading
    double quote and not beginning with AND, OR or NOT; the pattern
    without white space, parenthesis or leading double quote) selects the
    rows whose value of that field, the empty string when the field is
    absent, matches the pattern as a wildcard. *)
Theorem field_query_selects_by_wildcard (f p : str) (sep : ascii) :
  field_name f = true -> pattern_text p = true -> is_sep sep = true ->
  exists pr,
    _compile_query (f ++ sep :: p) = Ok (Some pr)
    /\ forall r : row, pr r = glob p (default [] (r !! f)).
Proof.
  intros Hf Hp Hsep. exists (_term_predicate (f ++ sep :: p)).
  apply (field_term_compiles f p sep Hf Hp Hsep).
Qed.

Lemma field_query_selects_by_wildcard_witness :
  exists pr,
    _compile_query (s2l "uid" ++ ":"%char :: s2l "C*") = Ok (Some pr)
    /\ forall r : row, pr r = glob (s2l "C*") (default [] (r !! s2l "uid")).
Proof.
  apply (field_query_selects_by_wildcard (s2l "uid") (s2l "C*") ":"%char);
    vm_compute; reflexivity.
Defined.

End FieldTerm.

(** ** Terms without an operator between them *)

Section Juxtaposition.

Import Re Query.

Lemma rpn_loop_atoms (ts : list str) :
  Forall atom ts ->
  forall opstack out, rpn_loop ts (opstack, out) = Ok (opstack, out ++ ts).
Proof.
  induction 1 as [|t ts Ht _ IH]; intros opstack out; cbn [rpn_loop].
  - rewrite app_nil_r. reflexivity.
  - rewrite (rpn_step_atom opstack out t Ht). cbn [rbind].
    rewrite IH, <- app_assoc. reflexivity.
Qed.

Lemma compile_loop_atoms (ts : list str) :
  Forall atom ts ->
  forall preds,
    compile_loop ts preds = Ok (rev (map _term_predicate ts) ++ preds).
Proof.
  induction 1 as [|t ts [Ht _] _ IH]; intros preds; cbn [compile_loop map rev].
  - reflexivity.
  - rewrite (compile_step_atom preds t Ht). cbn [rbind].
    rewrite IH, <- app_assoc. reflexivity.
Qed.

(** X19.  Terms that follow one another with no operator between them are
    not joined: the query compiles to the predicate of its last term, and
    the terms before it are ignored. *)
Theorem last_term_wins (q : str) (ts : list str) (t : str) :
  _tokenize (strip q) = Ok (ts ++ [t]) -> Forall atom (ts ++ [t]) ->
  _compile_query q = Ok (Some (_term_predicate t)).
Proof.
  intros Htok Hat.
  assert (Hne : ts ++ [t] <> []) by (destruct ts; discriminate).
  replace (Some (_term_predicate t))
    with (head (rev (map _term_predicate (ts ++ [t])) ++ [])).
  2:{ rewrite map_app, rev_app_distr. reflexivity. }
  apply (compile_query_steps q (ts ++ [t]) (ts ++ [t]) _ Htok Hne).
  - unfold _to_rpn. rewrite (rpn_loop_atoms _ Hat). cbn [rbind fst snd app].
    rewrite app_nil_r. reflexivity.
  - apply compile_loop_atoms. exact Hat.
  - intros E. rewrite E in Htok. vm_compute in Htok. injection Htok as Htok.
    symmetry in Htok. contradiction.
Qed.

Lemma last_term_wins_witness :
  _compile_query (s2l "uid:a ts:1") = Ok (Some (_term_predicate (s2l "ts:1"))).
Proof.
  apply (last_term_wins (s2l "uid:a ts:1") [s2l "uid:a"] (s2l "ts:1")).
  - vm_compute. reflexivity.
  - repeat constructor; try (vm_compute; reflexivity); discriminate.
Defined.

End Juxtaposition.

(** ** The postfix form *)

Section Postfix.

Import Re Query.

(** A token that is neither a parenthesis nor an operator. *)
Definition is_operand (t : str) : bool :=
  negb (str_eqb (norm t) (s2l "(")) && negb (str_eqb (norm t) (s2l ")"))
  && negb (is_operator (norm t)).

Definition no_operand (l : list str) : Prop := Forall (fun t => is_operand t = false) l.

Definition no_close (l : list str) : Prop := Forall (fun t => t <> s2l ")") l.

Lemma filter_no_operand (l : list str) :
  no_operand l -> List.filter is_operand l = [].
Proof.
  induction 1 as [|t l Ht _ IH]; cbn [List.filter]; [reflexivity|].
  rewrite Ht. exact IH.
Qed.

Lemma norm_operator (t : str) : is_operator t = true -> norm t = t.
Proof.
  intros H. unfold norm. rewrite (is_operator_upper t H), H. reflexivity.
Qed.

Lemma operand_of_operator (t : str) : is_operator t = true -> is_operand t = false.
Proof.
  intros H. unfold is_operand. rewrite (norm_operator t H), H.
  rewrite andb_false_r. reflexivity.
Qed.

Lemma operator_not_close (t : str) : is_operator t = true -> t <> s2l ")".
Proof. intros H ->. vm_compute in H. discriminate. Qed.

Lemma pop_to_paren_inv (opstack : list str) :
  forall out ops' out',
    pop_to_paren opstack out = (ops', out') ->
    no_operand opstack -> no_close opstack -> no_close out ->
    no_operand ops' /\ no_close ops' /\ no_close out'
    /\ List.filter is_operand out' = List.filter is_operand out.
Proof.
  induction opstack as [|top ops IH]; intros out ops' out'; cbn [pop_to_paren].
  - intros [= <- <-]. auto.
  - destruct (negb (str_eqb top (s2l "("))).
    + intros H Ho Hc Hout. apply Forall_cons_1 in Ho. destruct Ho as [Ht Ho].
      apply Forall_cons_1 in Hc. destruct Hc as [Htc Hc].
      destruct (IH _ _ _ H Ho Hc) as (H1 & H2 & H3 & H4).
      { apply Forall_app. split; [exact Hout | repeat constructor; exact Htc]. }
      repeat split; try assumption. rewrite H4, List.filter_app. cbn [List.filter].
      rewrite Ht. apply app_nil_r.
    + intros [= <- <-]. auto.
Qed.

Lemma pop_higher_inv (t : str) (opstack : list str) :
  forall out ops' out',
    pop_higher t opstack out = Ok (ops', out') ->
    no_operand opstack -> no_close opstack -> no_close out ->
    no_operand ops' /\ no_close ops' /\ no_close out'
    /\ List.filter is_operand out' = List.filter is_operand out.
Proof.
  induction opstack as [|top ops IH]; intros out ops' out'; cbn [pop_higher].
  - intros [= <- <-]. auto.
  - destruct (in_prec top); [|intros [= <- <-]; auto].
    destruct (prec top) as [ptop|]; cbn [rbind]; [|discriminate].
    destruct (prec t) as [pt|]; cbn [rbind]; [|discriminate].
    destruct (pt <=? ptop)%Z; [|intros [= <- <-]; auto].
    intros H Ho Hc Hout. apply Forall_cons_1 in Ho. destruct Ho as [Ht Ho].
    apply Forall_cons_1 in Hc. destruct Hc as [Htc Hc].
    destruct (IH _ _ _ H Ho Hc) as (H1 & H2 & H3 & H4).
    { apply Forall_app. split; [exact Hout | repeat constructor; exact Htc]. }
    repeat split; try assumption. rewrite H4, List.filter_app. cbn [List.filter].
    rewrite Ht. apply app_nil_r.
Qed.

Lemma rpn_step_inv (opstack out : list str) (raw : str) (ops' out' : list str) :
  rpn_step (opstack, out) raw = Ok (ops', out') ->
  no_operand opstack -> no_close opstack -> no_close out ->
  no_operand ops' /\ no_close ops' /\ no_close out'
  /\ List.filter is_operand out'
     = List.filter is_operand out ++ List.filter is_operand [raw].
Proof.
  unfold rpn_step. cbn [List.filter].
  destruct (str_eqb (norm raw) (s2l "(")) eqn:E1.
  - assert (Hop : is_operand raw = false) by (unfold is_operand; rewrite E1; reflexivity).
    rewrite Hop, app_nil_r.
    intros [= <- <-] Ho Hc Hout. apply str_eqb_eq in E1. rewrite E1.
    split; [constructor; [reflexivity | exact Ho]|].
    split; [constructor; [discriminate | exact Hc]|]. auto.
  - destruct (str_eqb (norm raw) (s2l ")")) eqn:E2.
    + assert (Hop : is_operand raw = false)
        by (unfold is_operand; rewrite E1, E2; reflexivity).
      rewrite Hop, app_nil_r.
      destruct (pop_to_paren opstack out) as [ops1 out1] eqn:Ep.
      intros H Ho Hc Hout.
      destruct (pop_to_paren_inv _ _ _ _ Ep Ho Hc Hout) as (H1 & H2 & H3 & H4).
      rewrite <- H4.
      destruct ops1 as [|top ops1]; [injection H as <- <-; auto|].
      apply Forall_cons_1 in H1 as H1'. destruct H1' as [_ H1'].
      apply Forall_cons_1 in H2 as H2'. destruct H2' as [_ H2'].
      destruct (str_eqb top (s2l "(")); injection H as <- <-; auto.
    + destruct (is_operator (norm raw)) eqn:E3.
      * assert (Hop : is_operand raw = false)
          by (unfold is_operand; rewrite E1, E2, E3; reflexivity).
        rewrite Hop, app_nil_r.
        destruct (pop_higher (norm raw) opstack out) as [[ops1 out1]|e] eqn:Ep;
          cbn [rbind fst snd]; [|discriminate].
        intros [= <- <-] Ho Hc Hout.
        destruct (pop_higher_inv _ _ _ _ _ Ep Ho Hc Hout) as (H1 & H2 & H3 & H4).
        split; [constructor; [apply operand_of_operator; exact E3 | exact H1]|].
        split; [constructor; [apply operator_not_close; exact E3 | exact H2]|].
        auto.
      * assert (Hop : is_operand raw = true)
          by (unfold is_operand; rewrite E1, E2, E3; reflexivity).
        rewrite Hop.
        intros [= <- <-] Ho Hc Hout.
        split; [exact Ho|]. split; [exact Hc|]. split.
        -- apply Forall_app. split; [exact Hout|]. repeat constructor.
           intros ->. vm_compute in E2. discriminate.
        -- rewrite List.filter_app. cbn [List.filter]. rewrite Hop. reflexivity.
Qed.

Lemma rpn_loop_inv (tokens : list str) :
  forall opstack out ops' out',
    rpn_loop tokens (opstack, out) = Ok (ops', out') ->
    no_operand opstack -> no_close opstack -> no_close out ->
    no_operand ops' /\ no_close ops' /\ no_close out'
    /\ List.filter is_operand out'
       = List.filter is_operand out ++ List.filter is_operand tokens.
Proof.
  induction tokens as [|raw tokens IH]; intros opstack out ops' out'; cbn [rpn_loop].
  - intros [= <- <-] Ho Hc Hout. rewrite app_nil_r. auto.
  - destruct (rpn_step (opstack, out) raw) as [[ops1 out1]|e] eqn:Es; cbn [rbind];
      [|discriminate].
    intros H Ho Hc Hout.
    destruct (rpn_step_inv _ _ _ _ _ Es Ho Hc Hout) as (H1 & H2 & H3 & H4).
    destruct (IH _ _ _ _ H H1 H2 H3) as (H5 & H6 & H7 & H8).
    repeat split; try assumption.
    rewrite H8, H4, <- app_assoc, <- List.filter_app. reflexivity.
Qed.

(** X20.  The postfix form lists the terms of the query in their order,
    whatever the operators and parentheses between them, and it holds no
    closing parenthesis. *)
Theorem rpn_keeps_terms_in_order (tokens : list str) :
  exists rpn,
    _to_rpn tokens = Ok rpn
    /\ List.filter is_operand rpn = List.filter is_operand tokens
    /\ Forall (fun t => t <> s2l ")") rpn.
Proof.
  destruct (_to_rpn_ok tokens) as (rpn & Hr). exists rpn. split; [exact Hr|].
  unfold _to_rpn in Hr.
  destruct (rpn_loop tokens ([], [])) as [[ops out]|e] eqn:El; cbn [rbind] in Hr;
    [|discriminate].
  injection Hr as <-. cbn [fst snd].
  destruct (rpn_loop_inv tokens [] [] ops out El ltac:(constructor)
              ltac:(constructor) ltac:(constructor)) as (H1 & H2 & H3 & H4).
  split.
  - rewrite List.filter_app, H4, (filter_no_operand ops H1), app_nil_r. reflexivity.
  - apply Forall_app. split; assumption.
Qed.

End Postfix.

(** ** Parentheses *)

Section Parentheses.

Import Re Query.

Lemma rpn_step_open (opstack out : list str) :
  rpn_step (opstack, out) (s2l "(") = Ok (s2l "(" :: opstack, out).
Proof. reflexivity. Qed.

Lemma atom_predicate_open : _term_predicate (s2l "(") = _pred_any (s2l "(").
Proof.
  unfold _term_predicate.
  replace (term_fields (s2l "(")) with (@None (str * str)) by (vm_compute; reflexivity).
  reflexivity.
Qed.

(** X21.  Parentheses group: in [( a OR b ) AND c] the OR is applied first,
    against the precedence of AND. *)
Theorem parentheses_group_terms (q a b c o1 o2 : str) :
  _tokenize (strip q) = Ok [s2l "("; a; o1; b; s2l ")"; o2; c] ->
  atom a -> atom b -> atom c ->
  upper o1 = s2l "OR" -> upper o2 = s2l "AND" ->
  _compile_query q
  = Ok (Some (fun r => (_term_predicate a r || _term_predicate b r)
                       && _term_predicate c r)).
Proof.
  intros Ht Ha Hb Hc H1 H2.
  apply (compile_query_steps q [s2l "("; a; o1; b; s2l ")"; o2; c]
           [a; b; s2l "OR"; c; s2l "AND"] [_] Ht).
  - discriminate.
  - unfold _to_rpn. cbn [rpn_loop]. rewrite rpn_step_open. cbn [rbind].
    rewrite (rpn_step_atom _ _ a Ha). cbn [rbind].
    rewrite rpn_step_operator by (rewrite H1; reflexivity). rewrite H1.
    change (pop_higher (s2l "OR") [s2l "("] ([] ++ [a]))
      with (@Ok (list str * list str) ([s2l "("], [] ++ [a])).
    cbn [rbind fst snd].
    rewrite (rpn_step_atom _ _ b Hb). cbn [rbind].
    change (rpn_step ([s2l "OR"; s2l "("], ([] ++ [a]) ++ [b]) (s2l ")"))
      with (@Ok (list str * list str) ([], (([] ++ [a]) ++ [b]) ++ [s2l "OR"])).
    cbn [rbind].
    rewrite rpn_step_operator by (rewrite H2; reflexivity). rewrite H2.
    cbn [pop_higher rbind fst snd].
    rewrite (rpn_step_atom _ _ c Hc). cbn [rbind fst snd app]. reflexivity.
  - destruct Ha as [Ha _], Hb as [Hb _], Hc as [Hc _]. cbn [compile_loop].
    rewrite (compile_step_atom _ a Ha). cbn [rbind].
    rewrite (compile_step_atom _ b Hb). cbn [rbind].
    rewrite compile_step_or by reflexivity. cbn [rbind].
    rewrite (compile_step_atom _ c Hc). cbn [rbind].
    rewrite compile_step_and by reflexivity. cbn [rbind].
    reflexivity.
  - intros E. rewrite E in Ht. vm_compute in Ht. discriminate.
Qed.

Lemma parentheses_group_terms_witness :
  _compile_query (s2l "(a OR b) AND c")
  = Ok (Some (fun r => (_term_predicate (s2l "a") r || _term_predicate (s2l "b") r)
                       && _term_predicate (s2l "c") r)).
Proof.
  apply (parentheses_group_terms (s2l "(a OR b) AND c") (s2l "a") (s2l "b") (s2l "c")
           (s2l "OR") (s2l "AND"));
    try (vm_compute; reflexivity);
    (split; [vm_compute; reflexivity | split; discriminate]).
Defined.

(** X22.  An opening parenthesis that is never closed raises nothing and
    ends up as the last term of the postfix form: the query [( a] selects
    the rows in which some field matches the text of one opening
    parenthesis, and the term [a] decides nothing. *)
Theorem unclosed_parenthesis_becomes_term (q a : str) :
  _tokenize (strip q) = Ok [s2l "("; a] -> atom a ->
  _to_rpn [s2l "("; a] = Ok [a; s2l "("]
  /\ _compile_query q = Ok (Some (_pred_any (s2l "("))).
Proof.
  intros Ht Ha.
  assert (Hr : _to_rpn [s2l "("; a] = Ok [a; s2l "("]).
  { unfold _to_rpn. cbn [rpn_loop]. rewrite rpn_step_open. cbn [rbind].
    rewrite (rpn_step_atom _ _ a Ha). reflexivity. }
  split; [exact Hr|]. rewrite <- atom_predicate_open.
  apply (compile_query_steps q [s2l "("; a] [a; s2l "("]
           [_term_predicate (s2l "("); _term_predicate a] Ht).
  - discriminate.
  - exact Hr.
  - destruct Ha as [Ha _]. cbn [compile_loop].
    rewrite (compile_step_atom _ a Ha). cbn [rbind].
    rewrite compile_step_atom by (vm_compute; reflexivity). reflexivity.
  - intros E. rewrite E in Ht. vm_compute in Ht. discriminate.
Qed.

Lemma unclosed_parenthesis_becomes_term_witness :
  _to_rpn [s2l "("; s2l "uid:x"] = Ok [s2l "uid:x"; s2l "("]
  /\ _compile_query (s2l "(uid:x") = Ok (Some (_pred_any (s2l "("))).
Proof.
  apply (unclosed_parenthesis_becomes_term (s2l "(uid:x") (s2l "uid:x")).
  - vm_compute. reflexivity.
  - split; [vm_compute; reflexivity | split; discriminate].
Defined.

End Parentheses.

(** ** The log endpoint on any file and any query *)

Section Endpoint.

Import Re Query.

Lemma compile_query_total (q : str) : exists c, _compile_query q = Ok c.
Proof.
  unfold _compile_query. destruct (strip q) as [|c q'] eqn:E; [eauto|].
  destruct (_tokenize_ok (c :: q')) as (toks & ->). cbn [rbind].
  destruct toks as [|t toks]; [eauto|].
  destruct (_to_rpn_ok (t :: toks)) as (rpn & ->). cbn [rbind].
  destruct (compile_loop_ok rpn []) as (preds & ->). cbn [rbind].
  destruct preds; eauto.
Qed.

Lemma scan_header (pred : option (row -> bool)) (lines : list str) :
  forall st,
    header_meta (fold_left (scan_line pred) lines st)
    = header_meta st ++ List.filter is_comment (map rstrip_lf lines).
Proof.
  induction lines as [|raw lines IH]; intros st; cbn [fold_left map List.filter].
  - symmetry. apply app_nil_r.
  - rewrite IH. unfold scan_line, is_comment.
    destruct (startswith (rstrip_lf raw) (s2l "#")).
    + destruct (startswith (rstrip_lf raw) (s2l "#fields")); cbn [header_meta];
        rewrite <- app_assoc; reflexivity.
    + destruct (decode (fields st) (rstrip_lf raw)) as [fs r].
      destruct (keep pred r); reflexivity.
Qed.

(** X23.  For every file and every query of at most 256 characters (a
    bound that keeps the closures of the compiled predicate, one inside the
    other for each operator, few) the endpoint answers: it keeps, in the
    order of the file, the decoded rows the compiled query accepts (all of
    them when there is none), counts them all in the total, and returns the
    page that starts at the offset (at least 0) and holds at most the limit
    (between 1 and 5000) of them; the header is every comment line of the
    file. *)
Theorem get_log_filters_then_pages (content : str) (offset limit : Z) (q : str) :
  length q <= 256 ->
  exists pred pg,
    _compile_query q = Ok pred
    /\ get_log content offset limit q = Ok pg
    /\ p_total pg
       = length (List.filter (keep pred) (decoded_rows None (file_lines content)))
    /\ p_offset pg = Z.max 0 offset
    /\ p_limit pg = Z.min 5000 (Z.max 1 limit)
    /\ p_rows pg
       = firstn (Z.to_nat (p_limit pg))
                (skipn (Z.to_nat (p_offset pg))
                       (List.filter (keep pred)
                                    (decoded_rows None (file_lines content))))
    /\ length (p_rows pg) <= 5000
    /\ p_header pg = List.filter is_comment (map rstrip_lf (file_lines content)).
Proof.
  intros _. destruct (compile_query_total q) as (pred & Hc). exists pred.
  unfold get_log. rewrite Hc. cbn [rbind]. eexists. split; [reflexivity|].
  split; [reflexivity|]. cbn [p_total p_offset p_limit p_rows p_header].
  rewrite scan_rows, scan_header. cbn [all_rows fields header_meta app].
  assert (Ho : (if (offset <? 0)%Z then 0%Z else offset) = Z.max 0 offset).
  { destruct (Z.ltb_spec offset 0); lia. }
  assert (Hl : (if (5000 <? (if (limit <? 1)%Z then 1%Z else limit))%Z
                then 5000%Z else if (limit <? 1)%Z then 1%Z else limit)
               = Z.min 5000 (Z.max 1 limit)).
  { destruct (Z.ltb_spec limit 1); [destruct (Z.ltb_spec 5000 1); lia|].
    destruct (Z.ltb_spec 5000 limit); lia. }
  rewrite Ho, Hl.
  assert (Hs : forall l : list row,
            slice l (Z.to_nat (Z.max 0 offset))
                  (Z.to_nat (Z.max 0 offset + Z.min 5000 (Z.max 1 limit)))
            = firstn (Z.to_nat (Z.min 5000 (Z.max 1 limit)))
                     (skipn (Z.to_nat (Z.max 0 offset)) l)).
  { intros l. unfold slice. f_equal. lia. }
  rewrite Hs. repeat split. rewrite length_take. lia.
Qed.

Lemma get_log_filters_then_pages_witness :
  let q := s2l "ts:2 AND NOT uid:a" in
  exists pred pg,
    _compile_query q = Ok pred
    /\ get_log ex_merged 1 2 q = Ok pg
    /\ p_total pg
       = length (List.filter (keep pred) (decoded_rows None (file_lines ex_merged)))
    /\ p_offset pg = Z.max 0 1
    /\ p_limit pg = Z.min 5000 (Z.max 1 2)
    /\ p_rows pg
       = firstn (Z.to_nat (p_limit pg))
                (skipn (Z.to_nat (p_offset pg))
                       (List.filter (keep pred)
                                    (decoded_rows None (file_lines ex_merged))))
    /\ length (p_rows pg) <= 5000
    /\ p_header pg = List.filter is_comment (map rstrip_lf (file_lines ex_merged)).
Proof.
  apply (get_log_filters_then_pages ex_merged 1 2 (s2l "ts:2 AND NOT uid:a")).
  vm_compute. lia.
Defined.

(** *** Decoding a line under a field list *)

Lemma fold_insert_notin (l : list (str * str)) :
  forall (m : row) k,
    ~ In k (map fst l) ->
    fold_left (fun (m : row) kv => <[fst kv := snd kv]> m) l m !! k = m !! k.
Proof.
  induction l as [|[k0 v0] l IH]; intros m k Hk; cbn [fold_left]; [reflexivity|].
  cbn [map fst In] in Hk. rewrite IH by tauto. cbn [fst snd].
  apply lookup_insert_ne. tauto.
Qed.

Lemma fold_insert_in (l : list (str * str)) :
  NoDup (map fst l) ->
  forall (m : row) k v,
    In (k, v) l ->
    fold_left (fun (m : row) kv => <[fst kv := snd kv]> m) l m !! k = Some v.
Proof.
  induction l as [|[k0 v0] l IH]; intros Hnd m k v Hin; [destruct Hin|].
  cbn [map fst] in Hnd. apply NoDup_cons_1_1 in Hnd as Hk0.
  apply NoDup_cons_1_2 in Hnd as Hnd'. cbn [fold_left fst snd].
  destruct Hin as [[= -> ->]|Hin].
  - rewrite fold_insert_notin.
    + apply lookup_insert_eq.
    + intros H. apply Hk0. apply list_elem_of_In. exact H.
  - apply IH; assumption.
Qed.

Lemma map_fst_combine {A B : Type} (l : list A) :
  forall l' : list B, length l = length l' -> map fst (combine l l') = l.
Proof.
  induction l as [|x l IH]; intros [|y l'] H; cbn in *; try lia; [reflexivity|].
  rewrite IH by lia. reflexivity.
Qed.

Lemma nth_error_combine {A B : Type} (l : list A) :
  forall (l' : list B) i x y,
    nth_error l i = Some x -> nth_error l' i = Some y ->
    In (x, y) (combine l l').
Proof.
  induction l as [|a l IH]; intros [|b l'] [|i] x y; cbn; try discriminate.
  - intros [= ->] [= ->]. left. reflexivity.
  - intros H1 H2. right. apply (IH l' i); assumption.
Qed.

(** The columns of a line, as many as there are fields. *)
Definition columns (n : nat) (line : str) : list str :=
  firstn n (split_on TAB line ++ repeat [] (n - length (split_on TAB line))).

Lemma length_columns (n : nat) (line : str) : length (columns n line) = n.
Proof.
  unfold columns. rewrite length_take, length_app, repeat_length. lia.
Qed.

Lemma nth_error_columns (n i : nat) (line : str) :
  i < n -> nth_error (columns n line) i = Some (nth i (split_on TAB line) []).
Proof.
  intros Hi. unfold columns. rewrite nth_error_firstn.
  replace (i <? n) with true by (symmetry; apply Nat.ltb_lt; exact Hi).
  destruct (le_lt_dec (length (split_on TAB line)) i) as [Hl|Hl].
  - rewrite nth_error_app2 by exact Hl. rewrite (nth_overflow _ _ Hl).
    apply nth_error_repeat. lia.
  - rewrite nth_error_app1 by exact Hl. apply nth_error_nth'. exact Hl.
Qed.

(** X24.  Under a field list without a repeated name, the decoded row maps
    the i-th field to the i-th tab-separated column of the line, to the
    empty string when the line has fewer columns; columns beyond the field
    list are dropped, and the row has no other key. *)
Theorem decode_pads_and_cuts (fs : list str) (line : str) :
  NoDup fs ->
  (forall i f, nth_error fs i = Some f ->
               snd (decode (Some fs) line) !! f
               = Some (nth i (split_on TAB line) []))
  /\ (forall k, ~ In k fs -> snd (decode (Some fs) line) !! k = None).
Proof.
  intros Hnd. unfold decode. cbn [snd]. fold (columns (length fs) line).
  unfold make_row.
  pose proof (map_fst_combine fs (columns (length fs) line)
                (eq_sym (length_columns (length fs) line))) as Hk.
  split.
  - intros i f Hi. apply fold_insert_in.
    + rewrite Hk. exact Hnd.
    + apply (nth_error_combine fs _ i); [exact Hi|].
      apply nth_error_columns. apply nth_error_Some. congruence.
  - intros k Hn. rewrite fold_insert_notin; [apply lookup_empty|].
    rewrite Hk. exact Hn.
Qed.

Lemma decode_pads_and_cuts_witness :
  (forall i f, nth_error [s2l "ts"; s2l "uid"; s2l "host"] i = Some f ->
               snd (decode (Some [s2l "ts"; s2l "uid"; s2l "host"])
                           (s2l "1" ++ [TAB] ++ s2l "a")) !! f
               = Some (nth i (split_on TAB (s2l "1" ++ [TAB] ++ s2l "a")) []))
  /\ (forall k, ~ In k [s2l "ts"; s2l "uid"; s2l "host"] ->
                snd (decode (Some [s2l "ts"; s2l "uid"; s2l "host"])
                            (s2l "1" ++ [TAB] ++ s2l "a")) !! k = None).
Proof.
  apply (decode_pads_and_cuts [s2l "ts"; s2l "uid"; s2l "host"]
           (s2l "1" ++ [TAB] ++ s2l "a")).
  repeat constructor; rewrite ?list_elem_of_In; cbn; intuition discriminate.
Defined.

(** *** A file without a fields line *)

Lemma decode_raw (line : str) :
  snd (decode (Some [s2l "_raw"]) line)
  = {[ s2l "_raw" := hd [] (split_on TAB line) ]}.
Proof.
  unfold decode. cbn [snd length].
  destruct (split_on_cons TAB line) as (p & ps & ->).
  cbn [Nat.sub length app firstn]. 
  replace (firstn 1 ((p :: ps) ++ repeat [] (1 - S (length ps)))) with [p]
    by reflexivity.
  unfold make_row. cbn [combine fold_left fst snd hd]. apply insert_empty.
Qed.

Lemma decoded_rows_raw (lines : list str) :
  Forall (fun raw => is_comment (rstrip_lf raw) = false) lines ->
  decoded_rows (Some [s2l "_raw"]) lines
  = map (fun raw => {[ s2l "_raw" := hd [] (split_on TAB (rstrip_lf raw)) ]}) lines.
Proof.
  induction 1 as [|raw lines Hc _ IH]; cbn [decoded_rows map]; [reflexivity|].
  unfold is_comment in Hc. rewrite Hc, decode_raw. cbn [decode fst]. rewrite IH.
  reflexivity.
Qed.

Lemma scan_fields_raw (pred : option (row -> bool)) (lines : list str) :
  Forall (fun raw => is_comment (rstrip_lf raw) = false) lines ->
  forall st, fields st = None \/ fields st = Some [s2l "_raw"] ->
    fields (fold_left (scan_line pred) lines st)
    = match lines with [] => fields st | _ => Some [s2l "_raw"] end.
Proof.
  induction 1 as [|raw lines Hc Hl IH]; intros st Hst; cbn [fold_left]; [reflexivity|].
  assert (Hf : fields (scan_line pred st raw) = Some [s2l "_raw"]).
  { unfold scan_line. unfold is_comment in Hc. rewrite Hc.
    destruct Hst as [-> | ->]; cbn [decode];
      match goal with |- context [keep pred ?r] => destruct (keep pred r) end;
      reflexivity. }
  rewrite IH by (right; exact Hf). destruct lines; [exact Hf | reflexivity].
Qed.

(** X25.  In a file with no comment line at all, so with no fields line,
    every row has the one key [_raw]: the first line is kept whole, and
    each later line is cut at its first tab. *)
Theorem headerless_file_keeps_first_column (content : str) (offset limit : Z) :
  Forall (fun raw => is_comment (rstrip_lf raw) = false) (file_lines content) ->
  exists pg,
    get_log content offset limit [] = Ok pg
    /\ p_header pg = []
    /\ match file_lines content with
       | [] => p_fields pg = [] /\ p_total pg = 0
       | first :: later =>
           p_fields pg = [s2l "_raw"]
           /\ p_total pg = length (file_lines content)
           /\ p_rows pg
              = slice ({[ s2l "_raw" := rstrip_lf first ]}
                       :: map (fun raw =>
                                 {[ s2l "_raw"
                                    := hd [] (split_on TAB (rstrip_lf raw)) ]})
                              later)
                      (Z.to_nat (p_offset pg))
                      (Z.to_nat (p_offset pg + p_limit pg))
       end.
Proof.
  intros Hl. unfold get_log. change (_compile_query []) with (@Ok (option (row -> bool)) None).
  cbn [rbind]. eexists. split; [reflexivity|].
  cbn [p_total p_offset p_limit p_rows p_header p_fields].
  rewrite scan_rows, scan_header, (scan_fields_raw None _ Hl) by (left; reflexivity).
  cbn [all_rows fields header_meta app].
  assert (Hall : forall l : list row, List.filter (keep None) l = l).
  { intros l. apply forallb_filter_id. apply forallb_forall. reflexivity. }
  rewrite Hall. split.
  { clear Hall. induction Hl as [|raw lines Hc _ IH]; cbn [map List.filter];
      [reflexivity|]. rewrite Hc. exact IH. }
  destruct (file_lines content) as [|first later]; [split; reflexivity|].
  apply Forall_cons_1 in Hl. destruct Hl as [Hc Hl].
  cbn [decoded_rows default]. unfold is_comment in Hc. rewrite Hc.
  cbn [decode fst snd]. rewrite (decoded_rows_raw later Hl).
  split; [reflexivity|]. split; [|reflexivity].
  cbn [length]. rewrite length_map. reflexivity.
Qed.

Lemma headerless_file_keeps_first_column_witness :
  exists pg,
    get_log (s2l "a" ++ [TAB] ++ s2l "b" ++ [LF] ++ s2l "c" ++ [TAB] ++ s2l "d" ++ [LF])
            0 200 [] = Ok pg
    /\ p_header pg = []
    /\ match file_lines (s2l "a" ++ [TAB] ++ s2l "b" ++ [LF] ++ s2l "c" ++ [TAB]
                           ++ s2l "d" ++ [LF]) with
       | [] => p_fields pg = [] /\ p_total pg = 0
       | first :: later =>
           p_fields pg = [s2l "_raw"]
           /\ p_total pg
              = length (file_lines (s2l "a" ++ [TAB] ++ s2l "b" ++ [LF] ++ s2l "c"
                                      ++ [TAB] ++ s2l "d" ++ [LF]))
           /\ p_rows pg
              = slice ({[ s2l "_raw" := rstrip_lf first ]}
                       :: map (fun raw =>
                                 {[ s2l "_raw"
                                    := hd [] (split_on TAB (rstrip_lf raw)) ]})
                              later)
                      (Z.to_nat (p_offset pg))
                      (Z.to_nat (p_offset pg + p_limit pg))
       end.
Proof.
  apply (headerless_file_keeps_first_column
           (s2l "a" ++ [TAB] ++ s2l "b" ++ [LF] ++ s2l "c" ++ [TAB] ++ s2l "d" ++ [LF])
           0 200).
  vm_compute. repeat constructor.
Defined.

(** The two lines a, b and c, d: the second row has lost its d. *)
Example ex_headerless_rows :
  option_map p_rows
    (match get_log (s2l "a" ++ [TAB] ++ s2l "b" ++ [LF] ++ s2l "c" ++ [TAB]
                      ++ s2l "d" ++ [LF]) 0 200 [] with
     | Ok pg => Some pg
     | Raise _ => None
     end)
  = Some [ {[ s2l "_raw" := s2l "a" ++ [TAB] ++ s2l "b" ]};
           {[ s2l "_raw" := s2l "c" ]} ].
Proof. vm_compute. reflexivity. Qed.

End Endpoint.

(** ** The shard map, from the sharder to the log endpoint *)

Section MapServed.

Import SplitPcap Query.

(** The characters of a number written in base ten or sixteen. *)
Definition numeric (P : ascii -> bool) : Prop :=
  forallb P (s2l "0123456789abcdef-") = true.

Lemma decimal_chars (P : ascii -> bool) (d : Decimal.uint) :
  numeric P -> forallb P (s2l (DecimalString.NilEmpty.string_of_uint d)) = true.
Proof.
  unfold numeric. cbn [forallb s2l list_ascii_of_string]. intros H.
  repeat (apply andb_true_iff in H; let H1 := fresh "H" in destruct H as [H1 H]).
  unfold s2l.
  induction d; cbn [DecimalString.NilEmpty.string_of_uint list_ascii_of_string forallb];
    try reflexivity; rewrite IHd, andb_true_r; assumption.
Qed.

Lemma str_of_int_chars (P : ascii -> bool) (v : Z) :
  numeric P -> forallb P (str_of_int v) = true /\ str_of_int v <> [].
Proof.
  intros HP. unfold str_of_int, DecimalString.NilZero.string_of_int.
  assert (H0 : P "0"%char = true /\ P "-"%char = true).
  { unfold numeric in HP. cbn [forallb s2l list_ascii_of_string] in HP.
    repeat (apply andb_true_iff in HP; let H1 := fresh "H" in destruct HP as [H1 HP]).
    split; assumption. }
  assert (H : forall d, forallb P (s2l (DecimalString.NilZero.string_of_uint d)) = true
                        /\ s2l (DecimalString.NilZero.string_of_uint d) <> []).
  { intros d. unfold DecimalString.NilZero.string_of_uint.
    destruct d; try (split; [apply (decimal_chars P _ HP) | discriminate]).
    cbn. rewrite (proj1 H0). split; [reflexivity | discriminate]. }
  destruct (Z.to_int v); [apply H|].
  cbn [s2l list_ascii_of_string forallb]. destruct (H d) as [Hd _].
  fold (s2l (DecimalString.NilZero.string_of_uint d)). rewrite Hd, (proj2 H0).
  split; [reflexivity | discriminate].
Qed.

Lemma hexadecimal_chars (P : ascii -> bool) (d : Hexadecimal.uint) :
  numeric P -> forallb P (s2l (HexadecimalString.NilEmpty.string_of_uint d)) = true.
Proof.
  unfold numeric. cbn [forallb s2l list_ascii_of_string]. intros H.
  repeat (apply andb_true_iff in H; let H1 := fresh "H" in destruct H as [H1 H]).
  unfold s2l.
  induction d;
    cbn [HexadecimalString.NilEmpty.string_of_uint list_ascii_of_string forallb];
    try reflexivity; rewrite IHd, andb_true_r; assumption.
Qed.

Lemma format_04x_chars (P : ascii -> bool) (v : Z) :
  numeric P -> forallb P (format_04x v) = true.
Proof.
  intros HP. unfold format_04x. rewrite forallb_app. apply andb_true_iff. split.
  - assert (H0 : P "0"%char = true).
    { unfold numeric in HP. cbn [forallb s2l list_ascii_of_string] in HP.
      apply andb_true_iff in HP. apply HP. }
    generalize (4 - length (s2l (HexadecimalString.NilZero.string_of_uint
                                   (N.to_hex_uint (Z.to_N v))))) as n.
    induction n as [|n IH]; cbn [repeat forallb]; [reflexivity|].
    rewrite H0, IH. reflexivity.
  - unfold HexadecimalString.NilZero.string_of_uint.
    destruct (N.to_hex_uint (Z.to_N v)); try apply (hexadecimal_chars P _ HP).
    unfold numeric in HP. cbn [forallb s2l list_ascii_of_string] in HP |- *.
    apply andb_true_iff in HP. rewrite (proj1 HP). reflexivity.
Qed.

Lemma join_chars (P : ascii -> bool) (sep : str) (parts : list str) :
  forallb P sep = true -> Forall (fun p => forallb P p = true) parts ->
  forallb P (join sep parts) = true.
Proof.
  intros Hs. induction 1 as [|p ps Hp Hps IH]; [reflexivity|].
  destruct ps as [|p' ps]; [exact Hp|].
  change (join sep (p :: p' :: ps)) with (p ++ sep ++ join sep (p' :: ps)).
  rewrite !forallb_app, Hp, Hs, IH. reflexivity.
Qed.

(** An address as the sharder prints it has no white space in it. *)
Definition shown (s : str) : Prop := forallb visible s = true.

Lemma numeric_visible : numeric visible.
Proof. reflexivity. Qed.

Lemma shown_fmt_ipv4 (ip4 : list byte) : shown (_fmt_ipv4 ip4).
Proof.
  unfold _fmt_ipv4. apply join_chars; [reflexivity|].
  apply List.Forall_forall. intros x Hx. apply in_map_iff in Hx.
  destruct Hx as (b & <- & _). apply (str_of_int_chars visible _ numeric_visible).
Qed.

Lemma shown_fmt_ipv6 (ip6 : list byte) : shown (_fmt_ipv6 ip6).
Proof.
  unfold _fmt_ipv6. apply join_chars; [reflexivity|].
  apply List.Forall_forall. intros x Hx. apply in_map_iff in Hx.
  destruct Hx as (b & <- & _). apply (format_04x_chars visible _ numeric_visible).
Qed.

Definition shown_flow (v : Flow.t) : Prop :=
  shown (Flow.src_ip v) /\ shown (Flow.dst_ip v).

Lemma tuple_for_packet_shown (pkt key : list byte) (rep : Rep.t) :
  tuple_for_packet pkt = Ok (key, rep) ->
  shown (Rep.src_ip rep) /\ shown (Rep.dst_ip rep).
Proof.
  unfold tuple_for_packet.
  destruct (_ipv4_tuple pkt) as [[[[[[s d] sp] dp] pr]|]|e]; cbn [rbind];
    [| |discriminate].
  - destruct (l3_key _ _); cbn [rbind]; [|discriminate]. intros [= _ <-].
    split; apply shown_fmt_ipv4.
  - destruct (_ipv6_tuple pkt) as [[[[[[s d] sp] dp] pr]|]|e]; cbn [rbind];
      [| |discriminate].
    + destruct (l3_key _ _); cbn [rbind]; [|discriminate]. intros [= _ <-].
      split; apply shown_fmt_ipv6.
    + intros [= _ <-]. split; reflexivity.
Qed.

Lemma fm_update_shown (key : list byte) (w : Z) (rep : Rep.t) (m : flow_map) :
  shown (Rep.src_ip rep) /\ shown (Rep.dst_ip rep) ->
  Forall (fun kv => shown_flow (snd kv)) m ->
  Forall (fun kv => shown_flow (snd kv)) (fm_update key w rep m).
Proof.
  intros Hrep Hm. unfold fm_update. destruct (negb (fm_mem key m)).
  - apply Forall_app. split; [exact Hm|]. constructor; [exact Hrep | constructor].
  - induction Hm as [|[k v] m Hv Hm IH]; cbn [fm_incr]; [constructor|].
    destruct (bytes_eqb key k); constructor; assumption.
Qed.

Lemma split_loop_shown (workers : Z) (data : list byte) (fuel : nat) :
  forall off st st',
    split_loop fuel data workers off st = Ok st' ->
    Forall (fun kv => shown_flow (snd kv)) (flows st) ->
    Forall (fun kv => shown_flow (snd kv)) (flows st').
Proof.
  induction fuel as [|fuel IH]; intros off st st'; cbn [split_loop]; [discriminate|].
  destruct (_ <=? _); [|intros [= <-]; auto].
  destruct (_ <? _); [intros [= <-]; auto|].
  destruct (route workers _ _ st) as [st1|e] eqn:Er; cbn [rbind]; [|discriminate].
  intros Hl Hm. apply (IH _ _ _ Hl). revert Er. unfold route.
  destruct (tuple_for_packet _) as [[key rep]|e] eqn:Et; cbn [rbind]; [|discriminate].
  destruct (py_mod _ _); cbn [rbind]; [|discriminate].
  destruct (resolve_index _ _); cbn [rbind]; [|discriminate].
  intros [= <-]. cbn [flows]. apply fm_update_shown; [|exact Hm].
  apply (tuple_for_packet_shown _ key rep Et).
Qed.

Lemma split_rows_shown (data : list byte) (workers : Z) (out : output) :
  split_pcap_flowhash data workers = Ok out ->
  exists rows,
    worker_map out = write_worker_map_log rows /\ Forall shown_flow rows.
Proof.
  unfold split_pcap_flowhash. destruct (_ <? _); [discriminate|].
  destruct (split_loop _ _ _ _ _) as [st|e] eqn:El; cbn [rbind]; [|discriminate].
  intros [= <-]. cbn [worker_map]. eexists. split; [reflexivity|].
  apply (Permutation_Forall (py_sort_perm key_lt row_key (map snd (flows st)))).
  apply split_loop_shown in El; [|constructor].
  apply List.Forall_forall. intros v Hv. apply in_map_iff in Hv.
  destruct Hv as ([k v'] & <- & Hin). rewrite List.Forall_forall in El.
  apply (El _ Hin).
Qed.

Lemma shown_clean (s : str) : shown s -> clean s.
Proof.
  unfold shown, clean. rewrite forallb_forall. intros H.
  apply List.Forall_forall. intros c Hc. specialize (H c Hc).
  split; intros ->; discriminate H.
Qed.

(** The columns of a row of the shard map, in the order of its fields. *)
Definition map_columns (r : Flow.t) : list str :=
  [str_of_int (Flow.worker r); str_of_int (Flow.ip_ver r); Flow.src_ip r;
   str_of_int (Flow.src_port r); Flow.dst_ip r; str_of_int (Flow.dst_port r);
   str_of_int (Flow.proto r); str_of_int (Flow.pkt_count r)].

Lemma split_on_shown (sep : ascii) (a : str) :
  isspace sep = true -> shown a -> split_on sep a = [a].
Proof.
  intros Hs. unfold shown. induction a as [|c a IH]; cbn [forallb split_on];
    [reflexivity|].
  intros H. apply andb_true_iff in H. destruct H as [Hc Ha].
  rewrite (IH Ha). destruct (ascii_eqb c sep) eqn:E; [|reflexivity].
  apply ascii_eqb_eq in E. subst c. unfold visible in Hc. rewrite Hs in Hc.
  discriminate.
Qed.

Lemma split_on_app (sep : ascii) (a rest : str) :
  isspace sep = true -> shown a ->
  split_on sep (a ++ sep :: rest) = a :: split_on sep rest.
Proof.
  intros Hs. unfold shown. induction a as [|c a IH]; cbn [forallb split_on app].
  - intros _. rewrite (proj2 (ascii_eqb_eq sep sep) eq_refl). reflexivity.
  - intros H. apply andb_true_iff in H. destruct H as [Hc Ha].
    rewrite (IH Ha). destruct (ascii_eqb c sep) eqn:E; [|reflexivity].
    apply ascii_eqb_eq in E. subst c. unfold visible in Hc. rewrite Hs in Hc.
    discriminate.
Qed.

Lemma split_join_shown (cols : list str) :
  cols <> [] -> Forall shown cols -> split_on TAB (join [TAB] cols) = cols.
Proof.
  intros Hne H. induction H as [|a cols Ha Hcols IH]; [congruence|].
  destruct cols as [|b cols]; [apply split_on_shown; [reflexivity | exact Ha]|].
  change (join [TAB] (a :: b :: cols)) with (a ++ TAB :: join [TAB] (b :: cols)).
  rewrite split_on_app by (try reflexivity; exact Ha).
  rewrite IH by discriminate. reflexivity.
Qed.

Lemma map_columns_shown (r : Flow.t) : shown_flow r -> Forall shown (map_columns r).
Proof.
  intros [Hs Hd]. unfold map_columns.
  repeat constructor; try assumption;
    apply (str_of_int_chars visible _ numeric_visible).
Qed.

Lemma map_line_not_comment (r : Flow.t) :
  is_comment (join [TAB] (map_columns r)) = false.
Proof.
  unfold map_columns.
  change (join [TAB] (?a :: ?l)) with (a ++ [TAB] ++ join [TAB] l).
  destruct (str_of_int_chars (fun c => negb (ascii_eqb c "#")) (Flow.worker r)
              eq_refl) as [Hc Hne].
  unfold is_comment. change (s2l "#") with ["#"%char].
  rewrite startswith_app by exact Hne.
  destruct (str_of_int (Flow.worker r)) as [|c s]; [congruence|].
  cbn [forallb] in Hc. apply andb_true_iff in Hc. destruct Hc as [Hc _].
  cbn [startswith]. apply negb_true_iff in Hc. rewrite Hc.
  reflexivity.
Qed.

(** The field list in force after the lines [lines]. *)
Fixpoint last_fields (flds : option (list str)) (lines : list str)
    : option (list str) :=
  match lines with
  | [] => flds
  | raw :: lines' =>
      let line := rstrip_lf raw in
      if startswith line (s2l "#") then
        last_fields (if startswith line (s2l "#fields")
                     then Some (tail (split_on TAB line)) else flds) lines'
      else last_fields (Some (fst (decode flds line))) lines'
  end.

Lemma scan_fields (pred : option (row -> bool)) (lines : list str) :
  forall st, fields (fold_left (scan_line pred) lines st)
             = last_fields (fields st) lines.
Proof.
  induction lines as [|raw lines IH]; intros st; cbn [fold_left last_fields];
    [reflexivity|].
  rewrite IH. unfold scan_line.
  destruct (startswith (rstrip_lf raw) (s2l "#")).
  - destruct (startswith (rstrip_lf raw) (s2l "#fields")); reflexivity.
  - destruct (decode (fields st) (rstrip_lf raw)) as [fs r]. cbn [fst].
    destruct (keep pred r); reflexivity.
Qed.

Lemma read_map_rows (rows : list Flow.t) :
  Forall shown_flow rows ->
  forall rest,
    decoded_rows (Some worker_map_fields)
                 (map (fun l => l ++ [LF]) (map (fun r => join [TAB] (map_columns r)) rows)
                  ++ rest)
    = map (fun r => make_row worker_map_fields (map_columns r)) rows
      ++ decoded_rows (Some worker_map_fields) rest
    /\ last_fields (Some worker_map_fields)
                   (map (fun l => l ++ [LF])
                        (map (fun r => join [TAB] (map_columns r)) rows) ++ rest)
       = last_fields (Some worker_map_fields) rest.
Proof.
  induction 1 as [|r rows Hr _ IH]; intros rest; cbn [map app decoded_rows last_fields];
    [split; reflexivity|].
  pose proof (map_columns_shown r Hr) as Hcols.
  assert (Hclean : Forall (fun c => c <> LF) (join [TAB] (map_columns r))).
  { apply clean_no_lf. apply clean_join.
    - constructor; [split; discriminate | constructor].
    - revert Hcols. apply List.Forall_impl. apply shown_clean. }
  rewrite (rstrip_lf_line _ Hclean).
  pose proof (map_line_not_comment r) as Hc. unfold is_comment in Hc. rewrite Hc.
  cbn [decode fst snd].
  destruct (IH rest) as [-> ->]. split; [|reflexivity]. f_equal.
  rewrite split_join_shown by (try discriminate; exact Hcols).
  reflexivity.
Qed.

(** X26.  The shard map a run writes is a log the endpoint reads back in
    full: the field list is the eight names of its fields line, there is
    one row per flow, in the order written, and the row of a flow maps
    each field name to the column the sharder wrote for it. *)
Theorem shard_map_is_served (data : list byte) (workers : Z) (out : output)
    (offset limit : Z) :
  split_pcap_flowhash data workers = Ok out ->
  exists rows pg,
    worker_map out = write_worker_map_log rows
    /\ get_log (worker_map out) offset limit [] = Ok pg
    /\ p_fields pg = worker_map_fields
    /\ p_total pg = length rows
    /\ p_rows pg
       = slice (map (fun r => make_row worker_map_fields (map_columns r)) rows)
               (Z.to_nat (p_offset pg)) (Z.to_nat (p_offset pg + p_limit pg)).
Proof.
  intros Hs. destruct (split_rows_shown data workers out Hs) as (rows & Hw & Hrows).
  exists rows. rewrite Hw. unfold get_log.
  change (_compile_query []) with (@Ok (option (row -> bool)) None). cbn [rbind].
  eexists. split; [reflexivity|]. split; [reflexivity|].
  cbn [p_total p_offset p_limit p_rows p_fields].
  rewrite scan_rows, scan_fields. cbn [all_rows fields app].
  assert (Hall : forall l : list row, List.filter (keep None) l = l).
  { intros l. apply forallb_filter_id. apply forallb_forall. reflexivity. }
  rewrite Hall, write_worker_map_log_lines, file_lines_written.
  2:{ assert (Hcf : Forall clean_flow rows).
      { revert Hrows. apply List.Forall_impl. intros r [H1 H2].
        split; apply shown_clean; assumption. }
      pose proof (worker_map_lines_clean rows Hcf) as H.
      revert H. apply List.Forall_impl. tauto. }
  unfold worker_map_lines. rewrite !map_app.
  change (map (fun l => l ++ [LF])
              (map (fun r => join [TAB]
                        [str_of_int (Flow.worker r); str_of_int (Flow.ip_ver r);
                         Flow.src_ip r; str_of_int (Flow.src_port r); Flow.dst_ip r;
                         str_of_int (Flow.dst_port r); str_of_int (Flow.proto r);
                         str_of_int (Flow.pkt_count r)]) rows))
    with (map (fun l => l ++ [LF])
              (map (fun r => join [TAB] (map_columns r)) rows)).
  set (body := map (fun l => l ++ [LF])
                   (map (fun r => join [TAB] (map_columns r)) rows)
               ++ map (fun l => l ++ [LF]) [s2l "#close 0"]).
  assert (Hd : forall f, decoded_rows f (map (fun l => l ++ [LF])
                 [s2l "#separator " ++ [TAB]; s2l "#set_separator ,";
                  s2l "#empty_field (empty)"; s2l "#unset_field -";
                  s2l "#path worker_map"; s2l "#open 0";
                  s2l "#fields" ++ [TAB] ++ join [TAB] worker_map_fields;
                  s2l "#types" ++ [TAB] ++ join [TAB] worker_map_types] ++ body)
               = decoded_rows (Some worker_map_fields) body) by reflexivity.
  assert (Hf : forall f, last_fields f (map (fun l => l ++ [LF])
                 [s2l "#separator " ++ [TAB]; s2l "#set_separator ,";
                  s2l "#empty_field (empty)"; s2l "#unset_field -";
                  s2l "#path worker_map"; s2l "#open 0";
                  s2l "#fields" ++ [TAB] ++ join [TAB] worker_map_fields;
                  s2l "#types" ++ [TAB] ++ join [TAB] worker_map_types] ++ body)
               = last_fields (Some worker_map_fields) body) by reflexivity.
  rewrite Hd, Hf. unfold body.
  destruct (read_map_rows rows Hrows (map (fun l => l ++ [LF]) [s2l "#close 0"]))
    as [-> ->].
  change (decoded_rows (Some worker_map_fields)
            (map (fun l => l ++ [LF]) [s2l "#close 0"])) with (@nil row).
  change (last_fields (Some worker_map_fields)
            (map (fun l => l ++ [LF]) [s2l "#close 0"]))
    with (Some worker_map_fields).
  rewrite app_nil_r, length_map. repeat split.
Qed.

(** The run on a capture of one record, with one worker. *)
Definition ex_one_record : list byte := ex_global_hdr ++ ex_record ex_pkt_a.

Definition ex_one_record_out : output :=
  mkoutput [ex_one_record]
           (write_worker_map_log
              [Flow.mk 1 4 (s2l "10.0.0.1") (s2l "10.0.0.2") 1234 80 6 1]).

Lemma shard_map_is_served_witness :
  exists rows pg,
    worker_map ex_one_record_out = write_worker_map_log rows
    /\ get_log (worker_map ex_one_record_out) 0 200 [] = Ok pg
    /\ p_fields pg = worker_map_fields
    /\ p_total pg = length rows
    /\ p_rows pg
       = slice (map (fun r => make_row worker_map_fields (map_columns r)) rows)
               (Z.to_nat (p_offset pg)) (Z.to_nat (p_offset pg + p_limit pg)).
Proof.
  apply (shard_map_is_served ex_one_record 1 ex_one_record_out 0 200).
  vm_compute. reflexivity.
Defined.

End MapServed.

(** ** The connectives *)

Section Connectives.

Import Re Query.

(** X27.  Two terms joined by AND select the rows both select; joined by
    OR, the rows either selects; the operator is read in either case. *)
Theorem and_or_of_two_terms (q a o b : str) :
  _tokenize (strip q) = Ok [a; o; b] -> atom a -> atom b ->
  upper o = s2l "AND" \/ upper o = s2l "OR" ->
  _compile_query q
  = Ok (Some (fun r => if str_eqb (upper o) (s2l "AND")
                       then _term_predicate a r && _term_predicate b r
                       else _term_predicate a r || _term_predicate b r)).
Proof.
  intros Ht Ha Hb Ho.
  apply (compile_query_steps q [a; o; b] [a; b; upper o] [_] Ht).
  - discriminate.
  - unfold _to_rpn. cbn [rpn_loop].
    rewrite (rpn_step_atom _ _ a Ha). cbn [rbind].
    rewrite rpn_step_operator by (destruct Ho as [-> | ->]; reflexivity).
    cbn [pop_higher rbind fst snd].
    rewrite (rpn_step_atom _ _ b Hb). reflexivity.
  - destruct Ha as [Ha _], Hb as [Hb _]. cbn [compile_loop].
    rewrite (compile_step_atom _ a Ha). cbn [rbind].
    rewrite (compile_step_atom _ b Hb). cbn [rbind].
    destruct Ho as [E | E]; rewrite E.
    + rewrite compile_step_and by reflexivity. reflexivity.
    + rewrite compile_step_or by reflexivity. reflexivity.
  - intros E. rewrite E in Ht. vm_compute in Ht. discriminate.
Qed.

Lemma and_or_of_two_terms_witness :
  _compile_query (s2l "uid:a or ts:1")
  = Ok (Some (fun r => if str_eqb (upper (s2l "or")) (s2l "AND")
                       then _term_predicate (s2l "uid:a") r
                            && _term_predicate (s2l "ts:1") r
                       else _term_predicate (s2l "uid:a") r
                            || _term_predicate (s2l "ts:1") r)).
Proof.
  apply (and_or_of_two_terms (s2l "uid:a or ts:1") (s2l "uid:a") (s2l "or")
           (s2l "ts:1")).
  - vm_compute. reflexivity.
  - split; [vm_compute; reflexivity | split; discriminate].
  - split; [vm_compute; reflexivity | split; discriminate].
  - right. vm_compute. reflexivity.
Defined.

Definition is_not (o : str) : Prop := upper o = s2l "NOT".

Lemma rpn_step_not (out : list str) (o : str) :
  is_not o ->
  rpn_step ([], out) o = Ok ([s2l "NOT"], out)
  /\ rpn_step ([s2l "NOT"], out) o = Ok ([s2l "NOT"], out ++ [s2l "NOT"]).
Proof.
  intros Ho. unfold is_not in Ho.
  rewrite !rpn_step_operator by (rewrite Ho; reflexivity). rewrite Ho.
  split; reflexivity.
Qed.

Lemma rpn_loop_nots (nots : list str) :
  Forall is_not nots ->
  forall out,
    rpn_loop nots ([s2l "NOT"], out)
    = Ok ([s2l "NOT"], out ++ repeat (s2l "NOT") (length nots)).
Proof.
  induction 1 as [|o nots Ho _ IH]; intros out; cbn [rpn_loop length repeat].
  - rewrite app_nil_r. reflexivity.
  - rewrite (proj2 (rpn_step_not out o Ho)). cbn [rbind].
    rewrite IH, <- app_assoc. reflexivity.
Qed.

Lemma compile_loop_app (l1 l2 : list str) :
  forall preds,
    compile_loop (l1 ++ l2) preds
    = (p <~ compile_loop l1 preds ;; compile_loop l2 p).
Proof.
  induction l1 as [|t l1 IH]; intros preds; cbn [app compile_loop]; [reflexivity|].
  destruct (compile_step preds t); cbn [rbind]; [apply IH | reflexivity].
Qed.

(** X28.  A run of one or more NOT before a term negates the term once:
    NOT NOT a selects the rows NOT a selects, not those a selects. *)
Theorem repeated_not_negates_once (q : str) (o : str) (nots : list str) (a : str) :
  _tokenize (strip q) = Ok (o :: nots ++ [a]) ->
  Forall (fun t => upper t = s2l "NOT") (o :: nots) -> atom a ->
  _compile_query q = Ok (Some (fun r => negb (_term_predicate a r))).
Proof.
  intros Ht Hn Ha. apply Forall_cons_1 in Hn. destruct Hn as [Ho Hn].
  destruct (compile_loop_ok (repeat (s2l "NOT") (length nots)) []) as (st & Hst).
  apply (compile_query_steps q (o :: nots ++ [a])
           (repeat (s2l "NOT") (length nots) ++ [a; s2l "NOT"])
           ((fun r => negb (_term_predicate a r)) :: st) Ht).
  - discriminate.
  - unfold _to_rpn. cbn [rpn_loop].
    rewrite (proj1 (rpn_step_not [] o Ho)). cbn [rbind].
    assert (Hl : forall l1 l2 st0 st1,
              rpn_loop l1 st0 = Ok st1 -> rpn_loop (l1 ++ l2) st0 = rpn_loop l2 st1).
    { induction l1 as [|t l1 IH]; intros l2 st0 st1; cbn [app rpn_loop].
      - intros [= ->]. reflexivity.
      - destruct (rpn_step st0 t); cbn [rbind]; [apply IH | discriminate]. }
    rewrite (Hl _ _ _ _ (rpn_loop_nots nots Hn [])). cbn [rpn_loop].
    rewrite (rpn_step_atom _ _ a Ha). cbn [rbind fst snd app].
    rewrite <- app_assoc. reflexivity.
  - rewrite compile_loop_app, Hst. cbn [rbind compile_loop].
    destruct Ha as [Ha _]. rewrite (compile_step_atom _ a Ha). cbn [rbind].
    rewrite compile_step_not by reflexivity. reflexivity.
  - intros E. rewrite E in Ht. vm_compute in Ht. discriminate.
Qed.

Lemma repeated_not_negates_once_witness :
  _compile_query (s2l "NOT not uid:x")
  = Ok (Some (fun r => negb (_term_predicate (s2l "uid:x") r))).
Proof.
  apply (repeated_not_negates_once (s2l "NOT not uid:x") (s2l "NOT") [s2l "not"]
           (s2l "uid:x")).
  - vm_compute. reflexivity.
  - repeat constructor.
  - split; [vm_compute; reflexivity | split; discriminate].
Defined.

(** On a row whose uid is x, the doubled NOT answers as the single one. *)
Example ex_double_not :
  match _compile_query (s2l "uid:x"), _compile_query (s2l "NOT NOT uid:x") with
  | Ok (Some p1), Ok (Some p2) =>
      Some (p1 ({[ s2l "uid" := s2l "x" ]}), p2 ({[ s2l "uid" := s2l "x" ]}))
  | _, _ => None
  end
  = Some (true, false).
Proof. vm_compute. reflexivity. Qed.

(** *** A field whose name begins with an operator word *)

Lemma tokens_of_word (kw t : str) (c : ascii) (k : str) :
  kw = c :: k -> isspace c = false ->
  token_len (kw ++ t) = length kw ->
  tokens_of (kw ++ t) = kw :: tokens_of t.
Proof.
  intros -> Hc Hl. unfold tokens_of. cbn [app length scan_tokens lstrip].
  rewrite Hc. cbn [app] in Hl. rewrite Hl.
  change (c :: k ++ t) with ((c :: k) ++ t).
  rewrite take_app_length, drop_app_length. f_equal.
  apply scan_tokens_fuel; rewrite ?length_app; lia.
Qed.

Lemma binary_word_cases (kw : str) :
  upper kw = s2l "AND" \/ upper kw = s2l "OR" ->
  In kw (mixed_case (s2l "AND") ++ mixed_case (s2l "OR")).
Proof.
  intros [H|H]; apply in_app_iff; [left | right];
    apply upper_mixed_case; [reflexivity | exact H | reflexivity | exact H].
Qed.

Section WordAndTerm.

Variables (kw f p : str) (sep : ascii).

Hypothesis Hkw : upper kw = s2l "AND" \/ upper kw = s2l "OR".
Hypothesis Hf : field_name f = true.
Hypothesis Hp : pattern_text p = true.
Hypothesis Hsep : is_sep sep = true.

Lemma word_term_tokens :
  _tokenize (kw ++ f ++ sep :: p) = Ok [kw; f ++ sep :: p]
  /\ strip (kw ++ f ++ sep :: p) = kw ++ f ++ sep :: p.
Proof.
  pose proof (term_tok_chr f p sep Hf Hp Hsep) as Ht.
  pose proof (term_tokens f p sep Hf Hp Hsep) as Htok.
  rewrite (strip_visible _ (tok_chr_visible _ Ht)), _tokenize_scan in Htok.
  injection Htok as Htok.
  pose proof (binary_word_cases kw Hkw) as Hin. vm_compute in Hin.
  rewrite _tokenize_scan.
  repeat (destruct Hin as [E|Hin];
          [rewrite <- E;
           split;
           [ f_equal; erewrite tokens_of_word by (try reflexivity);
             rewrite Htok; reflexivity
           | apply strip_visible; rewrite forallb_app;
             rewrite (tok_chr_visible _ Ht); reflexivity ]|]).
  destruct Hin.
Qed.

Lemma term_is_atom : atom (f ++ sep :: p).
Proof.
  pose proof (term_fields_plain f p sep Hf Hp Hsep) as Htf.
  split; [|split].
  - destruct (is_operator (upper (f ++ sep :: p))) eqn:E; [|reflexivity].
    apply operator_not_field_term in E. congruence.
  - intros E. rewrite E in Htf. vm_compute in Htf. discriminate.
  - intros E. rewrite E in Htf. vm_compute in Htf. discriminate.
Qed.

Lemma word_term_compiles :
  _compile_query (kw ++ f ++ sep :: p) = Ok (Some always_true).
Proof.
  destruct word_term_tokens as [Htok Hs]. rewrite <- Hs in Htok.
  pose proof term_is_atom as Ha.
  apply (compile_query_steps _ [kw; f ++ sep :: p] [f ++ sep :: p; upper kw]
           [always_true; _term_predicate (f ++ sep :: p)] Htok).
  - discriminate.
  - unfold _to_rpn. cbn [rpn_loop].
    rewrite rpn_step_operator by (destruct Hkw as [E | E]; rewrite E; reflexivity).
    cbn [pop_higher rbind fst snd].
    rewrite (rpn_step_atom _ _ _ Ha). reflexivity.
  - destruct Ha as [Ha _]. cbn [compile_loop].
    rewrite (compile_step_atom _ _ Ha). cbn [rbind].
    destruct Hkw as [E | E]; rewrite E; reflexivity.
  - rewrite Hs. destruct word_term_tokens as [Htok' _].
    intros E. rewrite E in Htok'. vm_compute in Htok'. discriminate.
Qed.

End WordAndTerm.

(** X29.  A field whose name begins with the letters of AND or OR, in
    either case, cannot be queried: the tokenizer cuts the word off the
    name, the operator finds one operand only, and the query selects every
    row.  So for [orig_bytes:0], read as OR followed by [ig_bytes:0]. *)
Theorem field_named_like_operator (kw f p : str) (sep : ascii) :
  upper kw = s2l "AND" \/ upper kw = s2l "OR" ->
  field_name f = true -> pattern_text p = true -> is_sep sep = true ->
  _tokenize (kw ++ f ++ sep :: p) = Ok [kw; f ++ sep :: p]
  /\ _compile_query (kw ++ f ++ sep :: p) = Ok (Some always_true).
Proof.
  intros Hkw Hf Hp Hsep. split.
  - apply (word_term_tokens kw f p sep Hkw Hf Hp Hsep).
  - apply (word_term_compiles kw f p sep Hkw Hf Hp Hsep).
Qed.

Lemma field_named_like_operator_witness :
  _tokenize (s2l "or" ++ s2l "ig_bytes" ++ ":"%char :: s2l "0")
  = Ok [s2l "or"; s2l "ig_bytes" ++ ":"%char :: s2l "0"]
  /\ _compile_query (s2l "or" ++ s2l "ig_bytes" ++ ":"%char :: s2l "0")
     = Ok (Some always_true).
Proof.
  apply (field_named_like_operator (s2l "or") (s2l "ig_bytes") (s2l "0") ":"%char);
    try (vm_compute; reflexivity).
  right. vm_compute. reflexivity.
Defined.

End Connectives.

(** ** Precedence of NOT, AND and OR *)

Section Precedence.

Import Re Query.

(** A query as its author means it: terms joined by NOT, AND and OR. *)
Inductive expr : Type :=
| Term (t : str)
| Neg (a : expr)
| Conj (a b : expr)
| Disj (a b : expr).



(** The tokens of an expression written with the fewest parentheses under
    the precedence NOT (3) over AND (2) over OR (1), AND and OR grouping to
    the left: [show l e] writes [e] where an operand of precedence [l] or
    more is expected, and puts it in parentheses when its own operator is
    weaker.  The operand of NOT is a term or in parentheses. *)
Definition wrap (l lv : Z) (body : list str) : list str :=
  if (l <=? lv)%Z then body else s2l "(" :: body ++ [s2l ")"].

Fixpoint show (l : Z) (e : expr) : list str :=
  match e with
  | Term t => wrap l 4 [t]
  | Neg a => wrap l 3 (s2l "NOT" :: show 4 a)
  | Conj a b => wrap l 2 (show 2 a ++ s2l "AND" :: show 3 b)
  | Disj a b => wrap l 1 (show 1 a ++ s2l "OR" :: show 2 b)
  end.

(** The query string: the tokens, one blank between two of them. *)
Definition query_of (e : expr) : str := join (s2l " ") (show 1 e).



(** *** Terms *)





(** *** The tokenizer on tokens one blank apart *)













(** *** The conversion to postfix *)

















(** *** The postfix form compiled *)






End Precedence.


(** How expressions are written: parentheses only against the precedence,
    and around the operand of NOT when it is not a term. *)
Example ex_query_of :
  let a := Term (s2l "a") in
  let b := Term (s2l "b") in
  let c := Term (s2l "c") in
  map query_of [Disj a (Conj b (Neg c)); Disj (Conj a b) c; Conj a (Disj b c);
                Conj (Conj a b) c; Conj a (Conj b c); Neg (Neg a)]
  = map s2l ["a OR b AND NOT c"; "a AND b OR c"; "a AND ( b OR c )";
             "a AND b AND c"; "a AND ( b AND c )"; "NOT ( NOT a )"]%string.
Proof. vm_compute. reflexivity. Qed.
